(** * cave_tests: the particle fountain of Particle.cpp and Application.cpp

    A shallow embedding of the simulation core: [Particle] (Particle.cpp)
    and the frame update of [Application] (Application.cpp), over IEEE 754
    binary32 ([float]) and binary64 ([double]) numbers as specified by the
    Standard Library's [SpecFloat] (round to nearest, ties to even). *)

From Stdlib Require Import ZArith List Bool Lia Lqa QArith Qpower Qround SpecFloat.
From Stdlib Require Import Ascii.
Import ListNotations.

Local Open Scope Z_scope.

(** * Definitions *)

(** ** IEEE 754 formats *)

(** C++ [float]: 24 bits of precision, exponent of the infinities 128. *)
Module Float.
Definition prec : Z := 24.
Definition emax : Z := 128.
Definition t := spec_float.

Definition add : t -> t -> t := SFadd prec emax.
Definition sub : t -> t -> t := SFsub prec emax.
Definition mul : t -> t -> t := SFmul prec emax.
Definition div : t -> t -> t := SFdiv prec emax.
Definition leb : t -> t -> bool := SFleb.
Definition ltb : t -> t -> bool := SFltb.
Definition eqb : t -> t -> bool := SFeqb.
Definition valid : t -> bool := valid_binary prec emax.

(** Conversion of an integer, rounded like every other operation. *)
Definition of_Z (n : Z) : t := binary_normalize prec emax n 0 false.

(** The literal [n/d] written in decimal in the source ([0.73f] is
    [lit 73 100]): the nearest binary32 number. *)
Definition lit (n d : Z) : t := div (of_Z n) (of_Z d).
End Float.

(** C++ [double]: 53 bits of precision, exponent of the infinities 1024. *)
Module Double.
Definition prec : Z := 53.
Definition emax : Z := 1024.
Definition t := spec_float.

Definition add : t -> t -> t := SFadd prec emax.
Definition sub : t -> t -> t := SFsub prec emax.
Definition valid : t -> bool := valid_binary prec emax.
Definition of_Z (n : Z) : t := binary_normalize prec emax n 0 false.
Definition lit (n d : Z) : t := SFdiv prec emax (of_Z n) (of_Z d).
End Double.

Definition float : Type := Float.t.
Definition double : Type := Double.t.

(** The implicit conversions between the two formats: the number is
    rounded to the format it is converted to (widening loses nothing). *)
Definition round_to (prec emax : Z) (u : spec_float) : spec_float :=
  match u with
  | S754_finite s m e => binary_round prec emax s m e
  | _ => u
  end.

Definition double_to_float : double -> float := round_to Float.prec Float.emax.
Definition float_to_double : float -> double := round_to Double.prec Double.emax.

Definition is_finite (u : spec_float) : bool :=
  match u with
  | S754_zero _ | S754_finite _ _ _ => true
  | _ => false
  end.

Definition is_nan (u : spec_float) : bool :=
  match u with S754_nan => true | _ => false end.

(** The exact rational value of a finite number (0 for the others, which
    [is_finite] tells apart). *)
Definition F2Q (u : spec_float) : Q :=
  match u with
  | S754_finite s m e => (inject_Z (cond_Zopp s (Zpos m)) * Qpower 2 e)%Q
  | _ => 0%Q
  end.

(** Equality of numbers: structural, except that the two zeros are the
    same number (C++ [==], without its NaN case). *)
Definition same_number (u v : spec_float) : Prop :=
  match u, v with
  | S754_zero _, S754_zero _ => True
  | _, _ => u = v
  end.

(** [size_t] is a 64-bit unsigned integer. *)
Definition size_t : Type := N.
Definition size_t_max : Z := 2 ^ 64 - 1.

(** [static_cast<size_t>(u)] for a [float] u: truncation toward zero,
    defined when the truncated value is a [size_t]; undefined behaviour
    ([None]) for NaN, the infinities and every value whose truncation is
    out of range. *)
Definition truncate (u : spec_float) : option Z :=
  match u with
  | S754_zero _ => Some 0
  | S754_finite s m e =>
      Some (cond_Zopp s (match e with
                         | Zneg p => Z.shiftr (Zpos m) (Zpos p)
                         | _ => Z.shiftl (Zpos m) e
                         end))
  | _ => None
  end.

Definition float_to_size_t (u : float) : option size_t :=
  match truncate u with
  | Some n => if (0 <=? n) && (n <=? size_t_max) then Some (Z.to_N n) else None
  | None => None
  end.

(** Integer to [float] conversion of the usual arithmetic conversions. *)
Definition size_t_to_float (n : size_t) : float := Float.of_Z (Z.of_N n).

(** ** The vocabulary of rounding

    [SpecFloat] rounds [m * 2^e] by shifting the mantissa right and
    looking at what was shifted out.  The definitions below say what
    that computes; the lemmas of the second part prove it. *)

(** [shl m n] is [m * 2^n]. *)
Definition shl (m : positive) (n : nat) : positive := Nat.iter n xO m.

(** What is left of [M] after [n] shifts: the quotient [M / 2^n], and
    where the remainder lies with respect to one half. *)
Definition round_bit (M n : Z) : bool := 2 ^ n <=? 2 * (M mod 2 ^ n).
Definition sticky_bit (M n : Z) : bool :=
  negb (M mod 2 ^ n =? 0) && negb (2 * (M mod 2 ^ n) =? 2 ^ n).

(** [M / 2^n] rounded to the nearest integer, ties to even. *)
Definition rne (M n : Z) : Z :=
  let q := M / 2 ^ n in
  let rho := M mod 2 ^ n in
  if 2 * rho <? 2 ^ n then q
  else if 2 * rho =? 2 ^ n then (if Z.even q then q else q + 1)
  else q + 1.

(** The exponent and the mantissa that rounding [m * 2^e] gives, before
    a mantissa of [2^prec] is renormalised. *)
Definition round_exp (prec emax : Z) (m : positive) (e : Z) : Z :=
  fexp prec emax (Zpos (digits2_pos m) + e).

Definition round_man (prec emax : Z) (m : positive) (e : Z) : Z :=
  let e0 := Z.min e (round_exp prec emax m e) in
  rne (Zpos m * 2 ^ (e - e0)) (round_exp prec emax m e - e0).

Definition finish (prec emax : Z) (s : bool) (N E : Z) : spec_float :=
  match N with
  | Z0 => S754_zero s
  | Zpos n =>
      if N =? 2 ^ prec then
        if E + 1 <=? emax - prec
        then S754_finite s (Z.to_pos (2 ^ (prec - 1))) (E + 1)
        else S754_infinity s
      else if E <=? emax - prec then S754_finite s n E else S754_infinity s
  | Zneg _ => S754_nan
  end.

(** The position of a rounded number among the numbers of the format:
    consecutive mantissas, then consecutive exponents. *)
Definition ord (prec emax : Z) (N E : Z) : Z :=
  (E - emin prec emax) * 2 ^ (prec - 1) + N.

(** What rounding produces: a mantissa of at most [prec] bits (or
    [2^prec], to renormalise), of exactly [prec] bits above the smallest
    exponent. *)
Definition shape (prec emax : Z) (N E : Z) : Prop :=
  emin prec emax <= E /\ 0 <= N <= 2 ^ prec
  /\ (emin prec emax < E -> 2 ^ (prec - 1) <= N).

Definition normal_shape (prec emax : Z) (N E : Z) : Prop :=
  emin prec emax <= E /\ 0 <= N < 2 ^ prec
  /\ (emin prec emax < E -> 2 ^ (prec - 1) <= N).

(** The rational number [M * 2^e]. *)
Definition dyadic (M e : Z) : Q := (inject_Z M * Qpower 2 e)%Q.

(** The number a finite [u] stands for, as a mantissa and an exponent. *)
Definition mantissa (u : spec_float) : Z :=
  match u with
  | S754_finite s m _ => cond_Zopp s (Zpos m)
  | _ => 0
  end.

Definition exponent (u : spec_float) : Z :=
  match u with
  | S754_finite _ _ e => e
  | _ => 0
  end.

(** Rounding the number [M * 2^e] to a format. *)
Definition rnd (prec emax : Z) (M e : Z) : spec_float :=
  binary_normalize prec emax M e false.

(** [u] is the rounding of the rational number [q] to a format. *)
Definition rounds_to (prec emax : Z) (u : spec_float) (q : Q) : Prop :=
  exists M e, same_number u (rnd prec emax M e) /\ (dyadic M e == q)%Q.

(** [u] is the rounding of [q] to [float]; to [double]. *)
Definition float_of (u : float) (q : Q) : Prop := rounds_to Float.prec Float.emax u q.
Definition double_of (u : double) (q : Q) : Prop := rounds_to Double.prec Double.emax u q.

(** Where the exact quotient lies between two consecutive mantissas, in
    quarters: 0 for the lower one, 1 below the middle, 2 in the middle,
    3 above it. *)
Definition loc_code (l : location) : Z :=
  match l with
  | loc_Exact => 0
  | loc_Inexact Lt => 1
  | loc_Inexact Eq => 2
  | loc_Inexact Gt => 3
  end.

(** ** Particle.h *)

(** Modelled from the spec: [point3] and [color4] are declared in a header
    that is not among the sources; the spec calls them a 3D vector and a
    colour, and Particle.cpp initialises them with three and four [float]
    components. *)
Record point3 := mk_point3 { x : float; y : float; z : float }.
Record color4 := mk_color4 { r : float; g : float; b : float; a : float }.

(** Modelled from the spec: the vector operators used by
    [Particle::update], component by component. *)
Definition point3_add (p q : point3) : point3 :=
  mk_point3 (Float.add (x p) (x q)) (Float.add (y p) (y q)) (Float.add (z p) (z q)).

Definition point3_scale (k : float) (p : point3) : point3 :=
  mk_point3 (Float.mul k (x p)) (Float.mul k (y p)) (Float.mul k (z p)).

(** Modelled from the spec: [color_grad] is declared in a header that is
    not among the sources.  The spec describes it as the linear
    interpolation between two colours, clamped by the range of the
    interpolation factor: the factor is brought into [0, 1] and every
    channel is [from + (to - from) * factor]. *)
Definition clamp01 (t : float) : float :=
  if Float.ltb t (Float.of_Z 0) then Float.of_Z 0
  else if Float.ltb (Float.of_Z 1) t then Float.of_Z 1
  else t.

Definition lerp (from to t : float) : float :=
  Float.add from (Float.mul (Float.sub to from) t).

Definition color_grad (from to : color4) (ratio : float) : color4 :=
  let t := clamp01 ratio in
  mk_color4 (lerp (r from) (r to) t) (lerp (g from) (g to) t)
            (lerp (b from) (b to) t) (lerp (a from) (a to) t).

(** ** Particle.cpp *)

Module Particle.

(** The data members, in the order the constructor initialises them. *)
Record t := mk {
  life : float;
  position : point3;
  direction : point3
}.

Definition gravity : point3 :=
  mk_point3 (Float.of_Z 0) (Float.of_Z (-1)) (Float.of_Z 0).
Definition cold : color4 :=
  mk_color4 (Float.of_Z 0) (Float.lit 73 100) (Float.of_Z 1) (Float.of_Z 1).
Definition hot : color4 :=
  mk_color4 (Float.lit 8 10) (Float.of_Z 0) (Float.of_Z 0) (Float.of_Z 1).
Definition default_life : float := Float.of_Z 10.
Definition slowdown_per_second : float := Float.lit 2 10.

(** [Particle::Particle(position, direction)] *)
Definition new (position direction : point3) : t :=
  mk default_life position direction.

(** The interpolation factor of [get_color], [direction.y/2+1.0f]: the
    integer 2 is converted to [float]. *)
Definition color_factor (p : t) : float :=
  Float.add (Float.div (y (direction p)) (Float.of_Z 2)) (Float.of_Z 1).

(** [Particle::get_color()] *)
Definition get_color (p : t) : color4 := color_grad cold hot (color_factor p).

(** [Particle::update(time_delta)] *)
Definition update (time_delta : float) (p : t) : t :=
  let position' :=
    point3_add (position p) (point3_scale time_delta (direction p)) in
  let direction' :=
    point3_add
      (point3_scale
         (Float.sub (Float.of_Z 1) (Float.mul time_delta slowdown_per_second))
         (direction p))
      (point3_scale time_delta gravity) in
  let life' := Float.sub (life p) time_delta in
  mk life' position' direction'.

(** Modelled from the spec: [Particle::dead()] is defined in Particle.h,
    which is not among the sources; the spec has is_dead() true iff
    life <= 0. *)
Definition dead (p : t) : bool := Float.leb (life p) (Float.of_Z 0).

End Particle.

(** ** The random number library *)

(** [std::uniform_real_distribution<float>], constructed from its two
    bounds. *)
Record uniform_real_distribution := mk_uniform { dist_a : float; dist_b : float }.

(** The template parameter [Generator] of [create_particle]: a generator
    state from which a distribution draws one number, leaving the next
    state.  The standard library is not part of the program; it is the
    interface the program is written against. *)
Class Generator (G : Type) := {
  draw : uniform_real_distribution -> G -> float * G
}.

(** A generator that replays a prepared sequence of numbers (and the lower
    bound once the sequence is used up). *)
Definition replay : Type := list float.

#[export] Instance replay_generator : Generator replay := {
  draw d s := match s with
              | [] => (dist_a d, [])
              | v :: s' => (v, s')
              end
}.

(** ** Application.cpp *)

Module Application.

(** Number of particles to spawn each second. *)
Definition particles_per_second : size_t := 400%N.
(** Default position in the scene (for [reset]). *)
Definition default_position : point3 :=
  mk_point3 (Float.of_Z 0) (Float.of_Z 0) (Float.of_Z (-5)).

(** Modelled from the spec: [state_t], the type of [state_], is declared
    in Application.h, which is not among the sources.  Its members are
    the ones Application.cpp uses; [time_delta] is a [float], the type
    [Particle::update] receives, and [particles_to_create] a [size_t],
    the type it is cast to. *)
Record state_t := mk_state {
  position : point3;
  rotation_y : float;
  time_delta : float;
  reset_scene : bool;
  particles_to_create : size_t
}.

(** The data members of [Application] that the update uses. *)
Record t (G : Type) := mk {
  distribution_position_ : uniform_real_distribution;
  distribution_direction_ : uniform_real_distribution;
  last_time_ : double;
  state_ : state_t;
  particles_ : list Particle.t;
  generator_ : G
}.
Arguments mk {G}.
Arguments distribution_position_ {G}.
Arguments distribution_direction_ {G}.
Arguments last_time_ {G}.
Arguments state_ {G}.
Arguments particles_ {G}.
Arguments generator_ {G}.

Section WithGenerator.
Context {G : Type} {gen : Generator G}.

Definition with_state (app : t G) (s : state_t) : t G :=
  mk (distribution_position_ app) (distribution_direction_ app)
     (last_time_ app) s (particles_ app) (generator_ app).

Definition with_particles (app : t G) (ps : list Particle.t) : t G :=
  mk (distribution_position_ app) (distribution_direction_ app)
     (last_time_ app) (state_ app) ps (generator_ app).

(** The vertical direction of a new particle, [u*2.0f+2.0] for a draw
    [u]: [float * float + double], computed in [double] and narrowed by
    the assignment to the [float] member. *)
Definition upward (u : float) : float :=
  double_to_float
    (Double.add (float_to_double (Float.mul u (Float.of_Z 2))) (Double.of_Z 2)).

(** [create_particle(d_position, d_direction, generator)]: six draws, in
    the order of the statements. *)
Definition create_particle (d_position d_direction : uniform_real_distribution)
           (generator : G) : Particle.t * G :=
  let '(px, g1) := draw d_position generator in
  let '(py, g2) := draw d_position g1 in
  let '(pz, g3) := draw d_position g2 in
  let '(dx, g4) := draw d_direction g3 in
  let '(u, g5) := draw d_direction g4 in
  let dy := upward u in
  let '(dz, g6) := draw d_direction g5 in
  (Particle.new (mk_point3 px py pz) (mk_point3 dx dy dz), g6).

(** [Application::Application]: the two distributions and [last_time_]
    are initialised here (from [double] literals); [particles_] starts
    empty; the constructor leaves [state_] and the unseeded generator as
    they are declared, so they are taken as given. *)
Definition new (state0 : state_t) (generator0 : G) : t G :=
  mk (mk_uniform (double_to_float (Double.of_Z 0)) (double_to_float (Double.of_Z 1)))
     (mk_uniform (double_to_float (Double.of_Z (-1))) (double_to_float (Double.of_Z 1)))
     (Double.of_Z 0) state0 [] generator0.

(** [Application::reset(value)] *)
Definition reset (value : bool) (app : t G) : t G :=
  let s := state_ app in
  let s1 := mk_state (position s) (rotation_y s) (time_delta s) value
                     (particles_to_create s) in
  if value then
    with_state app
      (mk_state default_position (Float.of_Z 0) (time_delta s1)
                (reset_scene s1) (particles_to_create s1))
  else with_state app s1.

(** [Application::update_time(current_time)].  The difference is a
    [double], narrowed by the assignment; the product is a [float]
    product ([particles_per_second] is converted); the cast to [size_t]
    is undefined outside its range, hence the [option]. *)
Definition update_time (current_time : double) (app : t G) : option (t G) :=
  let s := state_ app in
  let time_delta' := double_to_float (Double.sub current_time (last_time_ app)) in
  match float_to_size_t
          (Float.mul (size_t_to_float particles_per_second) time_delta') with
  | Some n =>
      Some (mk (distribution_position_ app) (distribution_direction_ app)
               current_time
               (mk_state (position s) (rotation_y s) time_delta'
                         (reset_scene s) n)
               (particles_ app) (generator_ app))
  | None => None
  end.

(** The loop of [update] that creates the particles, one [emplace_back]
    per iteration. *)
Fixpoint spawn (n : nat) (app : t G) : t G :=
  match n with
  | O => app
  | S n' =>
      let '(p, g') := create_particle (distribution_position_ app)
                                      (distribution_direction_ app)
                                      (generator_ app) in
      spawn n' (mk (distribution_position_ app) (distribution_direction_ app)
                   (last_time_ app) (state_ app)
                   (particles_ app ++ [p]) g')
  end.

(** The loop of [update] over the particles and the erase-remove of the
    dead ones, which keeps the others in their order. *)
Definition advance (time_delta : float) (ps : list Particle.t) : list Particle.t :=
  filter (fun p => negb (Particle.dead p)) (map (Particle.update time_delta) ps).

(** [Application::update()] *)
Definition update (app : t G) : t G :=
  let app1 := if reset_scene (state_ app) then with_particles app [] else app in
  let app2 := spawn (N.to_nat (particles_to_create (state_ app1))) app1 in
  let app3 := with_particles app2
                (advance (time_delta (state_ app2)) (particles_ app2)) in
  reset false app3.

(** The simulation part of [render_glut]: one frame of the desktop build. *)
Definition frame (current_time : double) (app : t G) : option (t G) :=
  option_map update (update_time current_time app).

End WithGenerator.

End Application.

(** ** The mathematical library *)

(** [std::sin] and [std::cos] on [float]: like the random number
    library, [<cmath>] is not part of the program, and the program
    relies on no property of the two functions. *)
Class Math := {
  sin : float -> float;
  cos : float -> float
}.

(** ** Application.cpp: the constants of the viewer *)

(** PI constant. *)
Definition pi_constant : float := Float.lit 314159265 100000000.
(** Rotation speed (in rad/s). *)
Definition rotation_per_second : float := Float.div pi_constant (Float.of_Z 2).

(** ** Application.cpp: the callbacks of the desktop build *)

Module Glut.
Import Application.

(** What a callback leaves behind: the application, or the status the
    process has exited with. *)
Inductive control (A : Type) : Type :=
| Running (a : A)
| Exited (status : Z).
Arguments Running {A}.
Arguments Exited {A}.

(** The calls of OpenGL that [resize_glut] makes, with their arguments. *)
Inductive matrix_mode : Type := GL_PROJECTION | GL_MODELVIEW.

Inductive gl_call : Type :=
| glMatrixMode (mode : matrix_mode)
| glLoadIdentity
| glViewport (x y width height : Z)
| gluPerspective (fovy aspect zNear zFar : double).

Definition double_mul : double -> double -> double := SFmul Double.prec Double.emax.
Definition double_div : double -> double -> double := SFdiv Double.prec Double.emax.

(** [float ratio = w * 1.0 / h]: the two [int]s are converted, the
    quotient is a [double], narrowed by the initialisation. *)
Definition aspect (w h : Z) : float :=
  double_to_float
    (double_div (double_mul (Double.of_Z w) (Double.of_Z 1)) (Double.of_Z h)).

(** [resize_glut(w, h)]; [gluPerspective] takes [double]s, to which its
    [float] arguments are widened. *)
Definition resize_glut (w h : Z) : list gl_call :=
  let h := if h =? 0 then 1 else h in
  let ratio := aspect w h in
  [glMatrixMode GL_PROJECTION;
   glLoadIdentity;
   glViewport 0 0 w h;
   gluPerspective (float_to_double (Float.of_Z 45)) (float_to_double ratio)
                  (float_to_double (Float.lit 1 10)) (float_to_double (Float.of_Z 100));
   glMatrixMode GL_MODELVIEW].

Section WithLibraries.
Context {G : Type} {gen : Generator G} {math : Math}.

Definition with_position (app : t G) (p : point3) : t G :=
  let s := state_ app in
  with_state app (mk_state p (rotation_y s) (time_delta s) (reset_scene s)
                           (particles_to_create s)).

Definition with_rotation_y (app : t G) (r : float) : t G :=
  let s := state_ app in
  with_state app (mk_state (position s) r (time_delta s) (reset_scene s)
                           (particles_to_create s)).

(** [Application::keyboard_glut(key, x, y)], on the application that
    [instance] points to; the position of the mouse is not used. *)
Definition keyboard_glut (key : ascii) (instance : t G) : control (t G) :=
  let s := state_ instance in
  match key with
  | "027"%char => Exited 0
  | " "%char => Running (reset true instance)
  | "w"%char =>
      Running (with_position instance
                 (mk_point3 (Float.add (x (position s)) (sin (rotation_y s)))
                            (y (position s))
                            (Float.add (z (position s)) (cos (rotation_y s)))))
  | "s"%char =>
      Running (with_position instance
                 (mk_point3 (Float.sub (x (position s)) (sin (rotation_y s)))
                            (y (position s))
                            (Float.sub (z (position s)) (cos (rotation_y s)))))
  | "a"%char =>
      Running (with_rotation_y instance
                 (Float.add (rotation_y s)
                            (Float.div rotation_per_second (Float.of_Z 20))))
  | "d"%char =>
      Running (with_rotation_y instance
                 (Float.sub (rotation_y s)
                            (Float.div rotation_per_second (Float.of_Z 20))))
  | _ => Running instance
  end.

(** [Application::render_glut()]: nothing without an instance; else the
    clock is read in milliseconds, [update_time] and [update] are called,
    and the scene is drawn, which changes nothing of the application.
    The outer [None] is the undefined cast of [update_time]. *)
Definition render_glut (elapsed : Z) (instance : option (t G)) : option (option (t G)) :=
  match instance with
  | None => Some None
  | Some app =>
      let current_time := double_div (Double.of_Z elapsed) (Double.of_Z 1000) in
      option_map Some (frame current_time app)
  end.

End WithLibraries.

End Glut.

(** ** Application.cpp: the frame function of the CAVE build *)

(** The class of the elements of [buttons_] is declared in a header that
    is not among the sources.  [update_cave] uses two of its members,
    [update] and [was_pressed], and is modelled against them, whatever
    they do. *)
Class Button (B : Type) := {
  button_update : Z -> B -> B;
  was_pressed : B -> bool
}.

Module Cave.
Import Application.

(** What CAVElib answers during one call of [update_cave]: the two
    elections, the controller, the clock, and what the channel
    delivers to an instance that reads it. *)
Record cavelib := mk_cavelib {
  CAVEMasterDisplay : bool;
  CAVEDistribMaster : bool;
  button : nat -> Z;
  valuator : nat -> float;
  CAVEGetTime : double;
  CAVEDistribRead : state_t
}.

(** The application with the member that the CAVE build adds. *)
Record t (G B : Type) := mk {
  application : Application.t G;
  buttons_ : list B
}.
Arguments mk {G B}.
Arguments application {G B}.
Arguments buttons_ {G B}.

Section WithLibraries.
Context {G : Type} {gen : Generator G} {B : Type} {btn : Button B} {math : Math}.

(** The loop over [buttons_], from index [i] on. *)
Fixpoint update_buttons (button : nat -> Z) (i : nat) (bs : list B) : list B :=
  match bs with
  | [] => []
  | b :: rest => button_update (button i) b :: update_buttons button (S i) rest
  end.

(** [Application::update_cave()].  The result is the application and,
    on the master instance, the [state_] written to the channel; [None]
    is undefined behaviour: [buttons_[0]] of an empty vector, or the
    cast of [update_time]. *)
Definition update_cave (lib : cavelib) (c : t G B) : option (t G B * option state_t) :=
  if CAVEMasterDisplay lib then
    if CAVEDistribMaster lib then
      let buttons' := update_buttons (button lib) 0 (buttons_ c) in
      match buttons' with
      | [] => None
      | b0 :: _ =>
          match update_time (CAVEGetTime lib) (reset (was_pressed b0) (application c)) with
          | None => None
          | Some app2 =>
              let s := state_ app2 in
              let joystick_x := valuator lib 0 in
              let joystick_y := valuator lib 1 in
              let rotation_y' :=
                if Float.ltb (Float.lit 1 10) (SFabs joystick_x)
                then Float.add (rotation_y s)
                               (Float.mul (Float.mul joystick_x rotation_per_second)
                                          (time_delta s))
                else rotation_y s in
              let move_vector :=
                mk_point3 (sin rotation_y') (Float.of_Z 0) (cos rotation_y') in
              let position' :=
                if Float.ltb (Float.lit 1 10) (SFabs joystick_y)
                then point3_add (position s)
                                (point3_scale (Float.mul joystick_y (time_delta s))
                                              move_vector)
                else position s in
              let s' := mk_state position' rotation_y' (time_delta s) (reset_scene s)
                                 (particles_to_create s) in
              Some (mk (update (with_state app2 s')) buttons', Some s')
          end
      end
    else
      Some (mk (update (with_state (application c) (CAVEDistribRead lib))) (buttons_ c),
            None)
  else Some (c, None).

End WithLibraries.

End Cave.

(** ** Runs *)

(** The life of a particle of the pool: a number above 0 and at most the
    life a particle starts with. *)
Definition life_ok (p : Particle.t) : bool :=
  Float.valid (Particle.life p)
  && Float.ltb (Float.of_Z 0) (Particle.life p)
  && Float.leb (Particle.life p) Particle.default_life.

(** Clock readings that do not go back, from [last] on. *)
Fixpoint increasing (last : double) (times : list double) : bool :=
  match times with
  | [] => true
  | t :: rest => Double.valid t && SFleb last t && increasing t rest
  end.

(** The frames of a run: the main loop calls [render_glut] (or
    [update_cave]) again and again; each call reads the clock and does
    [update_time] and [update]. *)
Fixpoint frames {G : Type} {gen : Generator G}
         (times : list double) (app : Application.t G) : option (Application.t G) :=
  match times with
  | [] => Some app
  | current_time :: rest =>
      match Application.frame current_time app with
      | Some app' => frames rest app'
      | None => None
      end
  end.

(** Two instances that simulate the same scene: the same distributions,
    particles and generator.  Their clocks may differ: only the master
    instance reads its clock. *)
Definition replica {G : Type} (a b : Application.t G) : Prop :=
  Application.distribution_position_ a = Application.distribution_position_ b
  /\ Application.distribution_direction_ a = Application.distribution_direction_ b
  /\ Application.particles_ a = Application.particles_ b
  /\ Application.generator_ a = Application.generator_ b.

(** ** Inputs and predicates of the statements *)

Definition origin : point3 := mk_point3 (Float.of_Z 0) (Float.of_Z 0) (Float.of_Z 0).

(** A fresh particle at rest, as in the scenario of the specification. *)
Definition resting_particle : Particle.t := Particle.new origin origin.

(** A particle in flight. *)
Definition falling_particle : Particle.t :=
  Particle.mk (Float.of_Z 10)
              (mk_point3 (Float.of_Z 1) (Float.of_Z 2) (Float.of_Z 3))
              (mk_point3 (Float.lit 1 2) (Float.of_Z (-3)) (Float.of_Z 0)).

(** 2^-60 seconds. *)
Definition tiny_delta : float := S754_finite false 8388608 (-83).

(** A [state_] whose numbers are not initialised. *)
Definition blank_state : Application.state_t :=
  Application.mk_state origin S754_nan S754_nan false 0%N.

(** 41943.0625 seconds, a [float] value. *)
Definition long_delta : double := Double.lit 671089 16.

(** A pool of 50 live particles, with the reset flag up and nothing to
    spawn. *)
Definition reset_app : Application.t replay :=
  Application.mk (mk_uniform (Float.of_Z 0) (Float.of_Z 1))
                 (mk_uniform (Float.of_Z (-1)) (Float.of_Z 1))
                 (Double.of_Z 0)
                 (Application.mk_state origin (Float.of_Z 0) (Float.lit 1 10) true 0%N)
                 [] [].

(** One particle about to die, one that stays. *)
Definition two_particles : Application.t replay :=
  Application.mk (mk_uniform (Float.of_Z 0) (Float.of_Z 1))
                 (mk_uniform (Float.of_Z (-1)) (Float.of_Z 1))
                 (Double.of_Z 0)
                 (Application.mk_state origin (Float.of_Z 0) (Float.of_Z 6) false 0%N)
                 [Particle.mk (Float.of_Z 5) origin origin; resting_particle] [].

Definition finite_point (p : point3) : bool :=
  is_finite (x p) && is_finite (y p) && is_finite (z p).

Definition valid_point (p : point3) : bool :=
  Float.valid (x p) && Float.valid (y p) && Float.valid (z p).

Definition same_point (p q : point3) : Prop :=
  same_number (x p) (x q) /\ same_number (y p) (y q) /\ same_number (z p) (z q).

(** A draw lies between the bounds of its distribution. *)
Definition in_range (d : uniform_real_distribution) (v : float) : bool :=
  Float.valid v && Float.leb (dist_a d) v && Float.leb v (dist_b d).

(** The values of [sin] and [cos] at a yaw of 0, for the examples. *)
Definition level_math : Math := {| sin := fun _ => Float.of_Z 0; cos := fun _ => Float.of_Z 1 |}.

(** A new application, nothing drawn yet. *)
Definition fresh_app : Application.t replay := Application.new blank_state [].

(** A frame of 12 seconds over one live particle, with two to create. *)
Definition long_frame : Application.t replay :=
  Application.mk (mk_uniform (Float.of_Z 0) (Float.of_Z 1))
                 (mk_uniform (Float.of_Z (-1)) (Float.of_Z 1))
                 (Double.of_Z 0)
                 (Application.mk_state origin (Float.of_Z 0) (Float.of_Z 12) false 2%N)
                 [resting_particle] [].

(** Six draws: a position, then a direction whose vertical draw is 0.5. *)
Definition six_draws : replay :=
  [Float.lit 1 4; Float.lit 1 2; Float.lit 3 4; Float.of_Z 0; Float.lit 1 2; Float.of_Z (-1)].

(** A button that reports whether it is held down, for the examples. *)
Definition held_button : Button bool :=
  {| button_update := fun v _ => negb (v =? 0); was_pressed := fun b => b |}.

(** A master instance at 0.1 s, no button held, the joystick at rest. *)
Definition master_cave : Cave.cavelib :=
  Cave.mk_cavelib true true (fun _ => 0) (fun _ => Float.of_Z 0) (Double.lit 1 10)
                  blank_state.

(** Another instance, which reads [s] from the channel. *)
Definition follower_cave (s : Application.state_t) : Cave.cavelib :=
  Cave.mk_cavelib true false (fun _ => 0) (fun _ => Float.of_Z 0) (Double.of_Z 0) s.

(** * Properties *)

(** ** The literals of the sources *)

Example lit_0_2 : Particle.slowdown_per_second = S754_finite false 13421773 (-26).
Proof. reflexivity. Qed.
Example lit_0_73 : g Particle.cold = S754_finite false 12247368 (-24).
Proof. reflexivity. Qed.
Example lit_0_8 : r Particle.hot = S754_finite false 13421773 (-24).
Proof. reflexivity. Qed.
Example lit_10 : Particle.default_life = S754_finite false 10485760 (-20).
Proof. reflexivity. Qed.
Example lit_m1 : y Particle.gravity = S754_finite true 8388608 (-23).
Proof. reflexivity. Qed.
Example lit_0 : x Particle.gravity = S754_zero false.
Proof. reflexivity. Qed.
Example lit_400 :
  size_t_to_float Application.particles_per_second = S754_finite false 13107200 (-15).
Proof. reflexivity. Qed.
Example lit_tiny : (F2Q tiny_delta == 1 # 1152921504606846976)%Q.
Proof. reflexivity. Qed.
Example lit_long : (F2Q long_delta == 671089 # 16)%Q.
Proof. reflexivity. Qed.

(** ** Number of bits *)

Lemma digits2_size (m : positive) : digits2_pos m = Pos.size m.
Proof. induction m; cbn; congruence. Qed.

Lemma digits2_bounds (m : positive) :
  2 ^ (Zpos (digits2_pos m) - 1) <= Zpos m < 2 ^ Zpos (digits2_pos m).
Proof.
  rewrite digits2_size. split.
  - pose proof (Pos.size_le m) as H.
    apply Pos2Z.pos_le_pos in H. rewrite Pos2Z.inj_pow in H.
    replace (Zpos (Pos.size m)) with (Z.succ (Zpos (Pos.size m) - 1)) in H by lia.
    rewrite Z.pow_succ_r in H by lia. change (Zpos m~0) with (2 * Zpos m) in H. lia.
  - pose proof (Pos.size_gt m) as H.
    apply Pos2Z.pos_lt_pos in H. now rewrite Pos2Z.inj_pow in H.
Qed.

(** ** The shifts of the rounding *)

Lemma shr_1_spec (m : Z) (r s : bool) :
  0 <= m ->
  shr_1 (Build_shr_record m r s) = Build_shr_record (m / 2) (Z.odd m) (r || s).
Proof.
  intros Hm. destruct m as [| [p | p |] | p]; try lia; cbn [shr_1 Z.odd]; f_equal.
  - change (Zpos p~1) with (2 * Zpos p + 1).
    rewrite Z.mul_comm, Z.div_add_l by lia. reflexivity.
  - change (Zpos p~0) with (2 * Zpos p).
    rewrite Z.mul_comm, Z.div_mul by lia. reflexivity.
Qed.

Lemma shr_nat_spec (n : nat) (M : Z) :
  0 <= M ->
  Nat.iter n shr_1 (Build_shr_record M false false)
  = Build_shr_record (M / 2 ^ Z.of_nat n) (round_bit M (Z.of_nat n))
                     (sticky_bit M (Z.of_nat n)).
Proof.
  intros HM. induction n as [| n IH].
  - cbn [Nat.iter Z.of_nat]. unfold round_bit, sticky_bit.
    rewrite Z.pow_0_r, Z.div_1_r, Z.mod_1_r. reflexivity.
  - rewrite Nat.iter_succ, IH.
    assert (Hp : 0 < 2 ^ Z.of_nat n) by (apply Z.pow_pos_nonneg; lia).
    rewrite shr_1_spec by (apply Z.div_pos; lia).
    unfold round_bit, sticky_bit.
    rewrite Nat2Z.inj_succ, Z.pow_succ_r by lia.
    rewrite (Z.mul_comm 2 (2 ^ Z.of_nat n)).
    rewrite Z.rem_mul_r by lia. rewrite <- Z.div_div by lia.
    set (q := M / 2 ^ Z.of_nat n). set (rho := M mod 2 ^ Z.of_nat n).
    assert (Hrho : 0 <= rho < 2 ^ Z.of_nat n) by (apply Z.mod_pos_bound; lia).
    assert (Hb : q mod 2 = 0 \/ q mod 2 = 1)
      by (pose proof (Z.mod_pos_bound q 2); lia).
    rewrite <- Z.negb_even, Zeven_mod. 
    f_equal.
    + destruct Hb as [-> | ->]; cbn [Z.eqb negb]; symmetry;
        [apply Z.leb_gt | apply Z.leb_le]; lia.
    + destruct Hb as [-> | ->]; 
      destruct (Z.leb_spec (2 ^ Z.of_nat n) (2 * rho));
      destruct (Z.eqb_spec rho 0); destruct (Z.eqb_spec (2 * rho) (2 ^ Z.of_nat n));
      destruct (Z.eqb_spec (rho + 2 ^ Z.of_nat n * 0) 0);
      destruct (Z.eqb_spec (rho + 2 ^ Z.of_nat n * 1) 0);
      destruct (Z.eqb_spec (2 * (rho + 2 ^ Z.of_nat n * 0)) (2 ^ Z.of_nat n * 2));
      destruct (Z.eqb_spec (2 * (rho + 2 ^ Z.of_nat n * 1)) (2 ^ Z.of_nat n * 2));
      cbn; try reflexivity; try lia.
Qed.

Lemma round_nearest_even_rne (M n : Z) :
  round_nearest_even (M / 2 ^ n)
    (loc_of_shr_record (Build_shr_record (M / 2 ^ n) (round_bit M n) (sticky_bit M n)))
  = rne M n.
Proof.
  unfold rne, round_bit, sticky_bit, loc_of_shr_record.
  destruct (Z.leb_spec (2 ^ n) (2 * (M mod 2 ^ n)));
    destruct (Z.ltb_spec (2 * (M mod 2 ^ n)) (2 ^ n)); try lia;
    destruct (Z.eqb_spec (2 * (M mod 2 ^ n)) (2 ^ n));
    destruct (Z.eqb_spec (M mod 2 ^ n) 0); cbn; try reflexivity; try lia.
Qed.

Lemma rne_bounds (M n : Z) : M / 2 ^ n <= rne M n <= M / 2 ^ n + 1.
Proof.
  unfold rne. destruct (_ <? _); [lia |]. destruct (_ =? _); [| lia].
  destruct (Z.even _); lia.
Qed.

Lemma rne_0_r (M : Z) : rne M 0 = M.
Proof.
  unfold rne. rewrite Z.pow_0_r, Z.div_1_r, Z.mod_1_r. reflexivity.
Qed.

Lemma rne_mono (M M' n : Z) : 0 <= n -> M <= M' -> rne M n <= rne M' n.
Proof.
  intros Hn HM.
  assert (Hp : 0 < 2 ^ n) by (apply Z.pow_pos_nonneg; lia).
  pose proof (Z.div_le_mono M M' (2 ^ n) Hp HM) as Hq.
  destruct (Z.eq_dec (M / 2 ^ n) (M' / 2 ^ n)) as [E | NE].
  - assert (Hr : M mod 2 ^ n <= M' mod 2 ^ n).
    { rewrite !Z.mod_eq by lia. rewrite E. lia. }
    unfold rne. rewrite E.
    destruct (Z.ltb_spec (2 * (M mod 2 ^ n)) (2 ^ n));
      destruct (Z.ltb_spec (2 * (M' mod 2 ^ n)) (2 ^ n));
      destruct (Z.eqb_spec (2 * (M mod 2 ^ n)) (2 ^ n));
      destruct (Z.eqb_spec (2 * (M' mod 2 ^ n)) (2 ^ n));
      destruct (Z.even (M' / 2 ^ n)); lia.
  - pose proof (rne_bounds M n). pose proof (rne_bounds M' n). lia.
Qed.

Lemma rne_scale (M n k : Z) :
  0 <= n -> 0 <= k -> rne (M * 2 ^ k) (n + k) = rne M n.
Proof.
  intros Hn Hk.
  assert (Hp : 0 < 2 ^ n) by (apply Z.pow_pos_nonneg; lia).
  assert (Hq : 0 < 2 ^ k) by (apply Z.pow_pos_nonneg; lia).
  unfold rne. rewrite Z.pow_add_r by lia.
  rewrite Z.div_mul_cancel_r by lia.
  rewrite Z.mul_mod_distr_r by lia.
  set (q := M / 2 ^ n). set (rho := M mod 2 ^ n).
  destruct (Z.ltb_spec (2 * (rho * 2 ^ k)) (2 ^ n * 2 ^ k));
    destruct (Z.ltb_spec (2 * rho) (2 ^ n)); try nia;
    destruct (Z.eqb_spec (2 * (rho * 2 ^ k)) (2 ^ n * 2 ^ k));
    destruct (Z.eqb_spec (2 * rho) (2 ^ n)); try nia; reflexivity.
Qed.

Lemma iter_pos_nat {A} (f : A -> A) (p : positive) (u : A) :
  iter_pos f p u = Nat.iter (Pos.to_nat p) f u.
Proof.
  revert u; induction p as [p IH | p IH |]; intros u; cbn [iter_pos].
  - rewrite !IH, Pos2Nat.inj_xI.
    replace (S (2 * Pos.to_nat p))%nat
      with (Pos.to_nat p + (Pos.to_nat p + 1))%nat by lia.
    rewrite !Nat.iter_add. reflexivity.
  - rewrite !IH, Pos2Nat.inj_xO.
    replace (2 * Pos.to_nat p)%nat with (Pos.to_nat p + Pos.to_nat p)%nat by lia.
    rewrite Nat.iter_add. reflexivity.
  - reflexivity.
Qed.
Lemma digits2_shl (n : nat) (m : positive) :
  Zpos (digits2_pos (shl m n)) = Zpos (digits2_pos m) + Z.of_nat n.
Proof.
  induction n as [| n IH]; [cbn; lia |].
  change (shl m (S n)) with (xO (shl m n)). cbn [digits2_pos].
  rewrite Pos2Z.inj_succ, IH. lia.
Qed.
Lemma pos_iter_shl (m d : positive) : Pos.iter xO m d = shl m (Pos.to_nat d).
Proof. apply Pos2Nat.inj_iter. Qed.

Lemma shl_pow (m : positive) (n : nat) : Zpos (shl m n) = Zpos m * 2 ^ Z.of_nat n.
Proof.
  induction n as [| n IH]; [cbn; lia |].
  change (shl m (S n)) with (xO (shl m n)).
  rewrite Nat2Z.inj_succ, Z.pow_succ_r by lia.
  change (Zpos (shl m n)~0) with (2 * Zpos (shl m n)). lia.
Qed.

Lemma digits2_le (m : positive) (k : Z) : Zpos m < 2 ^ k -> Zpos (digits2_pos m) <= k.
Proof.
  intros H. destruct (Z.le_gt_cases (Zpos (digits2_pos m)) k) as [L | L]; [exact L |].
  pose proof (digits2_bounds m) as [B _].
  assert (2 ^ k <= 2 ^ (Zpos (digits2_pos m) - 1)) by (apply Z.pow_le_mono_r; lia).
  lia.
Qed.

Lemma digits2_ge (m : positive) (k : Z) : 2 ^ k <= Zpos m -> k < Zpos (digits2_pos m).
Proof.
  intros H. destruct (Z.lt_ge_cases k (Zpos (digits2_pos m))) as [L | L]; [exact L |].
  pose proof (digits2_bounds m) as [_ B].
  assert (2 ^ Zpos (digits2_pos m) <= 2 ^ k) by (apply Z.pow_le_mono_r; lia).
  lia.
Qed.

Section Rounding.
Variables prec emax : Z.
Hypothesis Hprec : 0 < prec.

Lemma fexp_ge_emin (k : Z) : (emin prec emax) <= fexp prec emax k.
Proof. unfold fexp. lia. Qed.

Lemma fexp_spec (k : Z) : fexp prec emax k = Z.max (k - prec) (emin prec emax).
Proof. reflexivity. Qed.

Lemma shr_nonpos (mrs : shr_record) (e n : Z) : n <= 0 -> shr mrs e n = (mrs, e).
Proof. destruct n; try reflexivity. lia. Qed.

Lemma second_stage (s : bool) (N E : Z) :
  0 <= N <= 2 ^ prec -> (emin prec emax) <= E ->
  (let '(mrs, e) := shr_fexp prec emax N E loc_Exact in
   match shr_m mrs with
   | Z0 => S754_zero s
   | Zpos m => if e <=? emax - prec then S754_finite s m e else S754_infinity s
   | Zneg _ => S754_nan
   end) = finish prec emax s N E.
Proof.
  intros HN HE. unfold shr_fexp, finish. cbn [shr_record_of_loc].
  destruct N as [| n | n]; try lia.
  - cbn [Zdigits2]. rewrite shr_nonpos by (rewrite fexp_spec; lia). reflexivity.
  - cbn [Zdigits2]. destruct (Z.eqb_spec (Zpos n) (2 ^ prec)) as [Heq | Hne].
    + assert (Hd : Zpos (digits2_pos n) = prec + 1).
      { pose proof (digits2_bounds n) as [B1 B2]. rewrite Heq in B1, B2.
        apply Z.pow_le_mono_r_iff in B1; try lia.
        apply Z.pow_lt_mono_r_iff in B2; lia. }
      rewrite Hd, fexp_spec.
      replace (Z.max (prec + 1 + E - prec) (emin prec emax) - E) with 1 by lia.
      cbn [shr iter_pos]. rewrite shr_1_spec by lia. cbn [shr_m].
      rewrite Heq. 
      replace (2 ^ prec / 2) with (2 ^ (prec - 1)).
      2:{ replace prec with (Z.succ (prec - 1)) at 2 by lia.
          rewrite Z.pow_succ_r by lia. rewrite Z.mul_comm, Z.div_mul; lia. }
      assert (Hpos : 0 < 2 ^ (prec - 1)) by (apply Z.pow_pos_nonneg; lia).
      destruct (2 ^ (prec - 1)) eqn:Ep; try lia. reflexivity.
    + assert (Hd : Zpos (digits2_pos n) <= prec) by (apply digits2_le; lia).
      rewrite shr_nonpos by (rewrite fexp_spec; lia). reflexivity.
Qed.

Lemma rne_le_pow (m : positive) (e n : Z) :
  0 <= n -> Zpos (digits2_pos m) <= n + prec ->
  0 <= rne (Zpos m) n <= 2 ^ prec.
Proof.
  intros Hn Hd.
  assert (Hp : 0 < 2 ^ n) by (apply Z.pow_pos_nonneg; lia).
  pose proof (rne_bounds (Zpos m) n) as [B1 B2].
  assert (0 <= Zpos m / 2 ^ n) by (apply Z.div_pos; lia).
  assert (Zpos m / 2 ^ n < 2 ^ prec).
  { apply Z.div_lt_upper_bound; [lia |]. rewrite <- Z.pow_add_r by lia.
    pose proof (digits2_bounds m) as [_ B].
    eapply Z.lt_le_trans; [exact B |]. apply Z.pow_le_mono_r; lia. }
  lia.
Qed.

(** Rounding a mantissa that has at least the bits of the format. *)
Lemma binary_round_aux_finish (s : bool) (m : positive) (e : Z) :
  e <= round_exp prec emax m e ->
  binary_round_aux prec emax s (Zpos m) e loc_Exact
  = finish prec emax s (rne (Zpos m) (round_exp prec emax m e - e)) (round_exp prec emax m e).
Proof.
  intros HP. unfold binary_round_aux.
  assert (H1 : shr_fexp prec emax (Zpos m) e loc_Exact
               = (Build_shr_record (Zpos m / 2 ^ (round_exp prec emax m e - e))
                                   (round_bit (Zpos m) (round_exp prec emax m e - e))
                                   (sticky_bit (Zpos m) (round_exp prec emax m e - e)),
                  round_exp prec emax m e)).
  { unfold shr_fexp. cbn [Zdigits2 shr_record_of_loc]. fold (round_exp prec emax m e).
    destruct (round_exp prec emax m e - e) as [| p | p] eqn:En; try lia.
    - cbn [shr]. unfold round_bit, sticky_bit.
      rewrite Z.pow_0_r, Z.div_1_r, Z.mod_1_r. cbn. f_equal. lia.
    - cbn [shr]. rewrite iter_pos_nat, shr_nat_spec by lia.
      rewrite positive_nat_Z. f_equal. lia. }
  rewrite H1. cbn [shr_m]. rewrite round_nearest_even_rne.
  apply second_stage.
  - apply (rne_le_pow m e); [lia |]. unfold round_exp in *. rewrite fexp_spec in *. lia.
  - apply fexp_ge_emin.
Qed.

Lemma binary_round_finish (s : bool) (m : positive) (e : Z) :
  binary_round prec emax s m e = finish prec emax s (round_man prec emax m e) (round_exp prec emax m e).
Proof.
  unfold binary_round, shl_align, round_man. fold (round_exp prec emax m e).
  destruct (round_exp prec emax m e - e) as [| p | p] eqn:En.
  - rewrite binary_round_aux_finish by lia.
    replace (Z.min e (round_exp prec emax m e)) with e by lia.
    rewrite Z.sub_diag, Z.pow_0_r, Z.mul_1_r. reflexivity.
  - rewrite binary_round_aux_finish by lia.
    replace (Z.min e (round_exp prec emax m e)) with e by lia.
    rewrite Z.sub_diag, Z.pow_0_r, Z.mul_1_r. reflexivity.
  - rewrite pos_iter_shl.
    assert (HE : round_exp prec emax (shl m (Pos.to_nat p)) (round_exp prec emax m e) = round_exp prec emax m e).
    { unfold round_exp. rewrite digits2_shl, positive_nat_Z. f_equal.
      fold (round_exp prec emax m e). lia. }
    rewrite binary_round_aux_finish by lia.
    rewrite HE. replace (Z.min e (round_exp prec emax m e)) with (round_exp prec emax m e) by lia.
    rewrite Z.sub_diag. rewrite shl_pow, positive_nat_Z.
    replace (e - round_exp prec emax m e) with (Zpos p) by lia. reflexivity.
Qed.
End Rounding.

Section Monotone.
Variables prec emax : Z.
Hypothesis Hprec : 0 < prec.

Lemma pow_prec_double : 2 ^ prec = 2 * 2 ^ (prec - 1).
Proof.
  replace prec with (Z.succ (prec - 1)) at 1 by lia.
  rewrite Z.pow_succ_r by lia. reflexivity.
Qed.

Lemma pow_prec_pos : 0 < 2 ^ (prec - 1).
Proof. apply Z.pow_pos_nonneg; lia. Qed.

Lemma finish_normal (s : bool) (N E : Z) :
  shape prec emax N E ->
  exists N' E', normal_shape prec emax N' E' /\ ord prec emax N' E' = ord prec emax N E /\ finish prec emax s N E = finish prec emax s N' E'.
Proof.
  intros (HE & HN & Hn). pose proof pow_prec_double. pose proof pow_prec_pos.
  destruct (Z.eq_dec N (2 ^ prec)) as [-> | Hne].
  - exists (2 ^ (prec - 1)), (E + 1). split; [| split].
    + unfold normal_shape. lia.
    + unfold ord. lia.
    + unfold finish. rewrite Z.eqb_refl.
      replace (2 ^ (prec - 1) =? 2 ^ prec) with false by (symmetry; apply Z.eqb_neq; lia).
      destruct (2 ^ prec) eqn:E1; try lia.
      destruct (2 ^ (prec - 1)) eqn:E2; try lia. reflexivity.
  - exists N, E. split; [unfold normal_shape; lia | split; reflexivity].
Qed.

Lemma finish_normal_shape (s : bool) (N E : Z) :
  normal_shape prec emax N E ->
  finish prec emax s N E =
  match N with
  | Z0 => S754_zero s
  | Zpos n => if E <=? emax - prec then S754_finite s n E else S754_infinity s
  | Zneg _ => S754_nan
  end.
Proof.
  intros (HE & HN & Hn). unfold finish. destruct N as [| n | n]; try reflexivity.
  replace (Zpos n =? 2 ^ prec) with false by (symmetry; apply Z.eqb_neq; lia).
  reflexivity.
Qed.

Lemma ord_lex (N E N' E' : Z) :
  normal_shape prec emax N E -> normal_shape prec emax N' E' -> ord prec emax N E <= ord prec emax N' E' ->
  E < E' \/ (E = E' /\ N <= N').
Proof.
  intros (HE & HN & Hn) (HE' & HN' & Hn') Ho. unfold ord in Ho.
  pose proof pow_prec_double. pose proof pow_prec_pos.
  destruct (Z.lt_trichotomy E E') as [L | [Eq | Gt]]; [now left | right | exfalso].
  - subst E'. split; [reflexivity | lia].
  - assert (2 ^ (prec - 1) <= N) by (apply Hn; lia). nia.
Qed.

(** The order of the positions is the order of the numbers. *)
Lemma leb_finish (N E N' E' : Z) :
  shape prec emax N E -> shape prec emax N' E' -> ord prec emax N E <= ord prec emax N' E' ->
  SFleb (finish prec emax false N E) (finish prec emax false N' E') = true
  /\ SFleb (finish prec emax true N' E') (finish prec emax true N E) = true.
Proof.
  intros S1 S2 Ho.
  destruct (finish_normal false N E S1) as (M & F & Sh & Ho1 & ->).
  destruct (finish_normal true N E S1) as (M0 & F0 & Sh0 & Ho0 & ->).
  destruct (finish_normal false N' E' S2) as (M' & F' & Sh' & Ho1' & ->).
  destruct (finish_normal true N' E' S2) as (M0' & F0' & Sh0' & Ho0' & ->).
  rewrite !finish_normal_shape by assumption.
  assert (L : F < F' \/ (F = F' /\ M <= M')) by (apply ord_lex; auto; lia).
  assert (L0 : F0 < F0' \/ (F0 = F0' /\ M0 <= M0')) by (apply ord_lex; auto; lia).
  clear Ho Ho1 Ho0 Ho1' Ho0' S1 S2.
  pose proof pow_prec_pos.
  destruct Sh as (A1 & A2 & A3), Sh' as (B1 & B2 & B3),
           Sh0 as (C1 & C2 & C3), Sh0' as (D1 & D2 & D3).
  split.
  - destruct M as [| m | m], M' as [| m' | m']; try lia.
    + reflexivity.
    + destruct (F' <=? emax - prec); reflexivity.
    + destruct (Z.leb_spec F (emax - prec)), (Z.leb_spec F' (emax - prec));
        try reflexivity; try lia.
      unfold SFleb, SFcompare.
      destruct (Z.compare_spec F F'); try reflexivity; try lia.
      change (match (m ?= m')%positive with Gt => false | _ => true end = true).
      destruct (Pos.compare_spec m m'); try reflexivity. lia.
  - destruct M0 as [| m | m], M0' as [| m' | m']; try lia.
    + reflexivity.
    + destruct (F0' <=? emax - prec); reflexivity.
    + destruct (Z.leb_spec F0 (emax - prec)), (Z.leb_spec F0' (emax - prec));
        try reflexivity; try lia.
      unfold SFleb, SFcompare.
      destruct (Z.compare_spec F0' F0); try reflexivity; try lia.
      change (match CompOpp (m' ?= m)%positive with Gt => false | _ => true end = true).
      destruct (Pos.compare_spec m' m); try reflexivity. lia.
Qed.

Lemma round_man_aligned (m : positive) (e e0 : Z) :
  e0 <= e -> e0 <= round_exp prec emax m e ->
  round_man prec emax m e = rne (Zpos m * 2 ^ (e - e0)) (round_exp prec emax m e - e0).
Proof.
  intros H1 H2. unfold round_man.
  set (e1 := Z.min e (round_exp prec emax m e)).
  rewrite <- (rne_scale (Zpos m * 2 ^ (e - e1)) (round_exp prec emax m e - e1) (e1 - e0)) by lia.
  rewrite <- Z.mul_assoc, <- Z.pow_add_r by lia.
  replace (e - e1 + (e1 - e0)) with (e - e0) by lia.
  replace (round_exp prec emax m e - e1 + (e1 - e0)) with (round_exp prec emax m e - e0) by lia.
  reflexivity.
Qed.

Lemma round_shape (m : positive) (e : Z) :
  shape prec emax (round_man prec emax m e) (round_exp prec emax m e).
Proof.
  pose proof (digits2_bounds m) as [D1 D2].
  set (d := Zpos (digits2_pos m)) in *.
  set (E := round_exp prec emax m e).
  assert (HE : E = Z.max (d + e - prec) (emin prec emax)) by reflexivity.
  set (e0 := Z.min e E).
  assert (Hn : 0 < 2 ^ (E - e0)) by (apply Z.pow_pos_nonneg; lia).
  assert (Hk : 0 < 2 ^ (e - e0)) by (apply Z.pow_pos_nonneg; lia).
  pose proof (rne_bounds (Zpos m * 2 ^ (e - e0)) (E - e0)) as [B1 B2].
  fold (round_man prec emax m e) in B1, B2. 
  change (rne (Zpos m * 2 ^ (e - e0)) (E - e0)) with (round_man prec emax m e) in B1, B2.
  split; [lia | split; [split |]].
  - assert (0 <= Zpos m * 2 ^ (e - e0) / 2 ^ (E - e0)) by (apply Z.div_pos; lia). lia.
  - assert (Zpos m * 2 ^ (e - e0) / 2 ^ (E - e0) < 2 ^ prec); [| lia].
    apply Z.div_lt_upper_bound; [lia |]. rewrite <- Z.pow_add_r by lia.
    apply Z.lt_le_trans with (2 ^ d * 2 ^ (e - e0)); [nia |].
    rewrite <- Z.pow_add_r by lia. apply Z.pow_le_mono_r; lia.
  - intros Hgt.
    assert (2 ^ (prec - 1) <= Zpos m * 2 ^ (e - e0) / 2 ^ (E - e0)); [| lia].
    apply Z.div_le_lower_bound; [lia |]. rewrite <- Z.pow_add_r by lia.
    apply Z.le_trans with (2 ^ (d - 1) * 2 ^ (e - e0)); [| nia].
    rewrite <- Z.pow_add_r by lia. apply Z.pow_le_mono_r; lia.
Qed.

Lemma round_exp_mono (m m' : positive) (e e' c : Z) :
  c <= e -> c <= e' ->
  Zpos m * 2 ^ (e - c) <= Zpos m' * 2 ^ (e' - c) ->
  round_exp prec emax m e <= round_exp prec emax m' e'.
Proof.
  intros Hc Hc' Hle.
  pose proof (digits2_bounds m) as [D1 _]. pose proof (digits2_bounds m') as [_ D2'].
  assert (H : 2 ^ (Zpos (digits2_pos m) - 1 + (e - c))
              < 2 ^ (Zpos (digits2_pos m') + (e' - c))).
  { rewrite !Z.pow_add_r by lia.
    assert (0 < 2 ^ (e - c)) by (apply Z.pow_pos_nonneg; lia).
    assert (0 < 2 ^ (e' - c)) by (apply Z.pow_pos_nonneg; lia). nia. }
  apply Z.pow_lt_mono_r_iff in H; try lia.
  unfold round_exp, fexp. lia.
Qed.

Lemma ord_mono (m m' : positive) (e e' c : Z) :
  c <= e -> c <= e' ->
  Zpos m * 2 ^ (e - c) <= Zpos m' * 2 ^ (e' - c) ->
  ord prec emax (round_man prec emax m e) (round_exp prec emax m e) <= ord prec emax (round_man prec emax m' e') (round_exp prec emax m' e').
Proof.
  intros Hc Hc' Hle.
  pose proof (round_exp_mono m m' e e' c Hc Hc' Hle) as HE.
  pose proof (round_shape m e) as (S1 & S2 & S3).
  pose proof (round_shape m' e') as (S1' & S2' & S3').
  pose proof pow_prec_double. pose proof pow_prec_pos.
  unfold ord. destruct (Z.eq_dec (round_exp prec emax m e) (round_exp prec emax m' e')) as [Eq | Ne].
  - set (e0 := Z.min c (round_exp prec emax m e)).
    rewrite (round_man_aligned m e e0), (round_man_aligned m' e' e0) by lia.
    rewrite <- Eq.
    assert (rne (Zpos m * 2 ^ (e - e0)) (round_exp prec emax m e - e0)
            <= rne (Zpos m' * 2 ^ (e' - e0)) (round_exp prec emax m e - e0)); [| lia].
    apply rne_mono; [lia |].
    replace (e - e0) with ((e - c) + (c - e0)) by lia.
    replace (e' - e0) with ((e' - c) + (c - e0)) by lia.
    rewrite !Z.pow_add_r by lia.
    assert (0 < 2 ^ (c - e0)) by (apply Z.pow_pos_nonneg; lia). nia.
  - assert (2 ^ (prec - 1) <= round_man prec emax m' e') by (apply S3'; lia). nia.
Qed.

(** Rounding is monotone. *)
Theorem binary_round_mono (m m' : positive) (e e' c : Z) :
  c <= e -> c <= e' ->
  Zpos m * 2 ^ (e - c) <= Zpos m' * 2 ^ (e' - c) ->
  SFleb (binary_round prec emax false m e) (binary_round prec emax false m' e') = true
  /\ SFleb (binary_round prec emax true m' e') (binary_round prec emax true m e) = true.
Proof.
  intros Hc Hc' Hle. rewrite !binary_round_finish by assumption.
  apply leb_finish; try apply round_shape. now apply (ord_mono m m' e e' c).
Qed.

End Monotone.

(** ** Exact values *)

Lemma Qpower_2_pos (e : Z) : (0 < Qpower 2 e)%Q.
Proof. now apply Qpower_0_lt. Qed.

Lemma Qpower_2_nonneg (k : Z) : 0 <= k -> (Qpower 2 k == inject_Z (2 ^ k))%Q.
Proof. intros Hk. now rewrite Zpower_Qpower. Qed.

Lemma dyadic_shift (M e c : Z) :
  c <= e -> (dyadic M e == dyadic (M * 2 ^ (e - c)) c)%Q.
Proof.
  intros Hc. unfold dyadic. rewrite inject_Z_mult, <- Qpower_2_nonneg by lia.
  rewrite <- Qmult_assoc, <- Qpower_plus by discriminate.
  replace (e - c + c) with e by lia. reflexivity.
Qed.

Lemma dyadic_le_same (M M' c : Z) : (dyadic M c <= dyadic M' c)%Q <-> M <= M'.
Proof.
  unfold dyadic. rewrite Zle_Qle. split; intros H.
  - apply Qmult_le_r in H; [exact H | apply Qpower_2_pos].
  - apply Qmult_le_r; [apply Qpower_2_pos | exact H].
Qed.

Lemma dyadic_le_iff (M e M' e' c : Z) :
  c <= e -> c <= e' ->
  (dyadic M e <= dyadic M' e')%Q <-> M * 2 ^ (e - c) <= M' * 2 ^ (e' - c).
Proof.
  intros H1 H2. rewrite (dyadic_shift M e c H1), (dyadic_shift M' e' c H2).
  apply dyadic_le_same.
Qed.

Lemma dyadic_add (M e M' e' c : Z) :
  c <= e -> c <= e' ->
  (dyadic (M * 2 ^ (e - c) + M' * 2 ^ (e' - c)) c == dyadic M e + dyadic M' e')%Q.
Proof.
  intros H1 H2. rewrite (dyadic_shift M e c H1), (dyadic_shift M' e' c H2).
  unfold dyadic. rewrite inject_Z_plus. ring.
Qed.

Lemma dyadic_mul (M e M' e' : Z) :
  (dyadic (M * M') (e + e') == dyadic M e * dyadic M' e')%Q.
Proof.
  unfold dyadic. rewrite inject_Z_mult, Qpower_plus by discriminate. ring.
Qed.

Lemma dyadic_opp (M e : Z) : (dyadic (- M) e == - dyadic M e)%Q.
Proof. unfold dyadic. rewrite inject_Z_opp. ring. Qed.

Lemma dyadic_sign (M e : Z) : (0 <= dyadic M e)%Q <-> 0 <= M.
Proof.
  unfold dyadic. rewrite Zle_Qle. split; intros H.
  - setoid_replace 0%Q with (0 * Qpower 2 e)%Q in H by ring.
    apply Qmult_le_r in H; [exact H | apply Qpower_2_pos].
  - apply Qmult_le_0_compat; [exact H | apply Qlt_le_weak, Qpower_2_pos].
Qed.

(** ** Comparison *)

Lemma SFleb_same_number (u u' v v' : spec_float) :
  same_number u u' -> same_number v v' -> SFleb u v = SFleb u' v'.
Proof.
  intros Hu Hv.
  destruct u, u'; cbn in Hu; try discriminate; try (injection Hu as -> || idtac);
    destruct v, v'; cbn in Hv; try discriminate; try (injection Hv as -> || idtac);
    subst; reflexivity.
Qed.

Lemma SFleb_antisym (u v : spec_float) :
  SFleb u v = true -> SFleb v u = true -> same_number u v.
Proof.
  destruct u as [s | s | | s m e], v as [s' | s' | | s' m' e']; cbn;
    try destruct s; try destruct s'; try discriminate; try reflexivity; try easy.
  all: unfold SFleb, SFcompare;
    destruct (Z.compare_spec e e'), (Z.compare_spec e' e); try lia; try discriminate.
  all: change (PosDef.Pos.compare_cont Eq m m') with (m ?= m')%positive;
       change (PosDef.Pos.compare_cont Eq m' m) with (m' ?= m)%positive;
       destruct (Pos.compare_spec m m'), (Pos.compare_spec m' m);
       cbn; try discriminate; try lia; intros; subst; reflexivity.
Qed.

Section Operations.
Variables prec emax : Z.
Hypothesis Hprec : 0 < prec.
Hypothesis Hemin : emin prec emax <= 0.

Lemma binary_round_sign (s : bool) (m : positive) (e : Z) :
  match binary_round prec emax s m e with
  | S754_zero s' | S754_infinity s' | S754_finite s' _ _ => s' = s
  | S754_nan => False
  end.
Proof.
  rewrite binary_round_finish by assumption.
  pose proof (round_shape prec emax Hprec m e) as (_ & HN & _).
  unfold finish. destruct (round_man prec emax m e); try lia; try reflexivity.
  destruct (_ =? _); destruct (_ <=? _); reflexivity.
Qed.

Lemma SFleb_neg_pos (u v : spec_float) :
  match u with
  | S754_zero s | S754_infinity s | S754_finite s _ _ => s = true
  | S754_nan => False
  end ->
  match v with
  | S754_zero s | S754_infinity s | S754_finite s _ _ => s = false
  | S754_nan => False
  end ->
  SFleb u v = true.
Proof. destruct u, v; try easy; intros -> ->; reflexivity. Qed.

Lemma SFleb_zero_pos (s : bool) (v : spec_float) :
  match v with
  | S754_zero s | S754_infinity s | S754_finite s _ _ => s = false
  | S754_nan => False
  end ->
  SFleb (S754_zero s) v = true.
Proof. destruct v; try easy; intros ->; reflexivity. Qed.

Lemma SFleb_neg_zero (s : bool) (u : spec_float) :
  match u with
  | S754_zero s | S754_infinity s | S754_finite s _ _ => s = true
  | S754_nan => False
  end ->
  SFleb u (S754_zero s) = true.
Proof. destruct u; try easy; intros ->; reflexivity. Qed.

(** Rounding is monotone, whatever the signs. *)
Theorem rnd_mono (M e M' e' : Z) :
  (dyadic M e <= dyadic M' e')%Q -> SFleb (rnd prec emax M e) (rnd prec emax M' e') = true.
Proof.
  intros H. apply (dyadic_le_iff M e M' e' (Z.min e e')) in H; try lia.
  assert (P : 0 < 2 ^ (e - Z.min e e')) by (apply Z.pow_pos_nonneg; lia).
  assert (P' : 0 < 2 ^ (e' - Z.min e e')) by (apply Z.pow_pos_nonneg; lia).
  unfold rnd, binary_normalize.
  destruct M as [| m | m], M' as [| m' | m']; try nia.
  - reflexivity.
  - apply SFleb_zero_pos, binary_round_sign.
  - now apply (binary_round_mono prec emax Hprec m m' e e' (Z.min e e')); try lia.
  - apply SFleb_neg_zero, binary_round_sign.
  - apply SFleb_neg_pos; apply binary_round_sign.
  - apply (binary_round_mono prec emax Hprec m' m e' e (Z.min e e')); try lia.
Qed.

(** The result of rounding is a number of the format. *)
Lemma finish_valid (s : bool) (N E : Z) :
  shape prec emax N E -> valid_binary prec emax (finish prec emax s N E) = true.
Proof.
  intros Sh. destruct (finish_normal prec emax Hprec s N E Sh) as (N' & E' & Sh' & _ & ->).
  rewrite finish_normal_shape by assumption. destruct Sh' as (HE & HN & Hn).
  destruct N' as [| n | n]; try reflexivity.
  destruct (Z.leb_spec E' (emax - prec)); [| reflexivity].
  cbn [valid_binary]. unfold bounded, canonical_mantissa.
  apply andb_true_intro. split; [| now apply Z.leb_le].
  apply Z.eqb_eq. unfold fexp.
  assert (Hd : Zpos (digits2_pos n) <= prec) by (apply digits2_le; lia).
  destruct (Z.eq_dec E' (emin prec emax)) as [-> | Hne]; [lia |].
  assert (prec - 1 < Zpos (digits2_pos n)) by (apply digits2_ge, Hn; lia).
  lia.
Qed.

Lemma rnd_valid (M e : Z) : valid_binary prec emax (rnd prec emax M e) = true.
Proof.
  unfold rnd, binary_normalize. destruct M; try reflexivity;
    rewrite binary_round_finish by assumption;
    apply finish_valid, round_shape; assumption.
Qed.

(** A number of the format is its own rounding. *)
Lemma rnd_finite (s : bool) (m : positive) (e : Z) :
  bounded prec emax m e = true ->
  rnd prec emax (cond_Zopp s (Zpos m)) e = S754_finite s m e.
Proof.
  intros Hb. unfold rnd. 
  assert (H : binary_round prec emax s m e = S754_finite s m e).
  { rewrite binary_round_finish by assumption.
    pose proof Hb as [Hc He]%andb_prop.
    apply Z.eqb_eq in Hc. apply Z.leb_le in He.
    unfold round_man, round_exp. rewrite Hc.
    replace (Z.min e e) with e by lia. rewrite Z.sub_diag, Z.pow_0_r, Z.mul_1_r, rne_0_r.
    unfold finish.
    assert (Zpos m < 2 ^ prec).
    { pose proof (digits2_bounds m) as [_ B]. unfold fexp in Hc.
      eapply Z.lt_le_trans; [exact B |]. apply Z.pow_le_mono_r; lia. }
    replace (Zpos m =? 2 ^ prec) with false by (symmetry; apply Z.eqb_neq; lia).
    replace (e <=? emax - prec) with true by (symmetry; now apply Z.leb_le).
    reflexivity. }
  destruct s; exact H.
Qed.

Lemma F2Q_dyadic (u : spec_float) : (F2Q u == dyadic (mantissa u) (exponent u))%Q.
Proof. destruct u; cbn; unfold dyadic; cbn; ring. Qed.

Lemma rnd_self (u : spec_float) :
  valid_binary prec emax u = true -> is_finite u = true ->
  same_number (rnd prec emax (mantissa u) (exponent u)) u.
Proof.
  destruct u as [s | s | | s m e]; try discriminate; intros Hv _.
  - exact I.
  - cbn [mantissa exponent]. rewrite rnd_finite by exact Hv. reflexivity.
Qed.

(** Two roundings of the same number. *)
Lemma rnd_same (M e M' e' : Z) :
  (dyadic M e == dyadic M' e')%Q -> same_number (rnd prec emax M e) (rnd prec emax M' e').
Proof.
  intros H. apply SFleb_antisym; apply rnd_mono; rewrite H; apply Qle_refl.
Qed.

(** Comparing two numbers of the format compares their values. *)
Lemma F2Q_leb (u v : spec_float) :
  valid_binary prec emax u = true -> is_finite u = true ->
  valid_binary prec emax v = true -> is_finite v = true ->
  (F2Q u <= F2Q v)%Q -> SFleb u v = true.
Proof.
  intros Hu Fu Hv Fv H. rewrite !F2Q_dyadic in H. apply rnd_mono in H.
  now rewrite (SFleb_same_number _ _ _ _ (rnd_self u Hu Fu) (rnd_self v Hv Fv)) in H.
Qed.

Lemma canonical_bounds (m : positive) (e : Z) :
  bounded prec emax m e = true ->
  (emin prec emax) <= e /\ Zpos m < 2 ^ prec /\ ((emin prec emax) < e -> 2 ^ (prec - 1) <= Zpos m).
Proof.
  intros [Hc _]%andb_prop. apply Z.eqb_eq in Hc. unfold fexp in Hc.
  pose proof (digits2_bounds m) as [B1 B2].
  split; [lia | split].
  - eapply Z.lt_le_trans; [exact B2 |]. apply Z.pow_le_mono_r; lia.
  - intros Hgt. eapply Z.le_trans; [| exact B1]. apply Z.pow_le_mono_r; lia.
Qed.

Lemma bounded_lt (m m' : positive) (e e' : Z) :
  bounded prec emax m e = true -> bounded prec emax m' e' = true ->
  e < e' -> Zpos m * 2 ^ (e - e) <= Zpos m' * 2 ^ (e' - e).
Proof.
  intros Hb Hb' Hlt.
  destruct (canonical_bounds m e Hb) as (A1 & A2 & A3).
  destruct (canonical_bounds m' e' Hb') as (B1 & B2 & B3).
  rewrite Z.sub_diag, Z.pow_0_r, Z.mul_1_r.
  assert (2 ^ 1 <= 2 ^ (e' - e)) by (apply Z.pow_le_mono_r; lia).
  assert (2 ^ prec = 2 * 2 ^ (prec - 1)) by (apply pow_prec_double; assumption).
  assert (2 ^ (prec - 1) <= Zpos m') by (apply B3; lia).
  change (2 ^ 1) with 2 in *. nia.
Qed.

Lemma dyadic_0 (e : Z) : (dyadic 0 e == 0)%Q.
Proof. unfold dyadic. ring. Qed.

Lemma dyadic_neg (m : positive) (e : Z) : (dyadic (Zneg m) e <= 0)%Q.
Proof.
  rewrite <- (dyadic_0 e). apply dyadic_le_same. lia.
Qed.

Lemma dyadic_pos (m : positive) (e : Z) : (0 <= dyadic (Zpos m) e)%Q.
Proof. apply dyadic_sign. lia. Qed.

Lemma leb_F2Q (u v : spec_float) :
  valid_binary prec emax u = true -> is_finite u = true ->
  valid_binary prec emax v = true -> is_finite v = true ->
  SFleb u v = true -> (F2Q u <= F2Q v)%Q.
Proof.
  intros Hu Fu Hv Fv H. rewrite !F2Q_dyadic.
  destruct u as [s | s | | s m e], v as [s' | s' | | s' m' e']; try discriminate;
    cbn [mantissa exponent valid_binary] in *.
  - rewrite (dyadic_0 0). destruct s'; [discriminate | apply dyadic_pos].
  - rewrite (dyadic_0 0). destruct s; [apply dyadic_neg | discriminate].
  - destruct s, s'; try discriminate; cbn [cond_Zopp Z.opp].
    + unfold SFleb, SFcompare in H.
      destruct (Z.compare_spec e e') as [-> | L | L]; try discriminate.
      * apply dyadic_le_same.
        change (PosDef.Pos.compare_cont Eq m m') with (m ?= m')%positive in H.
        destruct (Pos.compare_spec m m'); cbn in H; try discriminate; lia.
      * apply (dyadic_le_iff _ _ _ _ e'); try lia.
        pose proof (bounded_lt m' m e' e Hv Hu L). lia.
    + apply Qle_trans with 0%Q; [apply dyadic_neg | apply dyadic_pos].
    + unfold SFleb, SFcompare in H.
      destruct (Z.compare_spec e e') as [-> | L | L]; try discriminate.
      * apply dyadic_le_same.
        change (PosDef.Pos.compare_cont Eq m m') with (m ?= m')%positive in H.
        destruct (Pos.compare_spec m m'); cbn in H; try discriminate; lia.
      * apply (dyadic_le_iff _ _ _ _ e); try lia.
        now apply bounded_lt.
Qed.
End Operations.

Lemma same_number_refl (u : spec_float) : same_number u u.
Proof. now destruct u. Qed.

Lemma same_number_sym (u v : spec_float) : same_number u v -> same_number v u.
Proof. destruct u, v; cbn; try easy. Qed.

Lemma same_number_trans (u v w : spec_float) :
  same_number u v -> same_number v w -> same_number u w.
Proof. destruct u, v, w; cbn; try easy; congruence. Qed.

Lemma shl_align_pow (m : positive) (e c : Z) :
  c <= e -> Zpos (fst (shl_align m e c)) = Zpos m * 2 ^ (e - c).
Proof.
  intros Hc. unfold shl_align. destruct (c - e) as [| p | p] eqn:E; try lia.
  - replace (e - c) with 0 by lia. cbn [fst]. lia.
  - cbn [fst]. rewrite pos_iter_shl, shl_pow, positive_nat_Z. f_equal. f_equal. lia.
Qed.

Section Results.
Variables prec emax : Z.
Hypothesis Hprec : 0 < prec.
Hypothesis Hemin : emin prec emax <= 0.

Lemma rounds_to_le (u v : spec_float) (q q' : Q) :
  rounds_to prec emax u q -> rounds_to prec emax v q' -> (q <= q')%Q -> SFleb u v = true.
Proof.
  intros (M & e & Hu & Hq) (M' & e' & Hv & Hq') Hle.
  rewrite (SFleb_same_number _ _ _ _ Hu Hv).
  apply rnd_mono; try assumption. now rewrite Hq, Hq'.
Qed.

Lemma rounds_to_same (u v : spec_float) (q q' : Q) :
  rounds_to prec emax u q -> rounds_to prec emax v q' -> (q == q')%Q -> same_number u v.
Proof.
  intros Hu Hv Heq. apply SFleb_antisym.
  - apply (rounds_to_le u v q q' Hu Hv). rewrite Heq. apply Qle_refl.
  - apply (rounds_to_le v u q' q Hv Hu). rewrite Heq. apply Qle_refl.
Qed.

Lemma rounds_to_valid (u : spec_float) (q : Q) :
  rounds_to prec emax u q -> valid_binary prec emax u = true.
Proof.
  intros (M & e & Hu & _). pose proof (rnd_valid prec emax Hprec M e) as Hv.
  destruct u, (rnd prec emax M e); cbn in Hu; try easy; try congruence.
Qed.

Lemma rounds_to_self (u : spec_float) :
  valid_binary prec emax u = true -> is_finite u = true -> rounds_to prec emax u (F2Q u).
Proof.
  intros Hv Hf. exists (mantissa u), (exponent u). split.
  - apply same_number_sym, rnd_self; assumption.
  - symmetry. apply F2Q_dyadic.
Qed.

Lemma rounds_to_round (u : spec_float) :
  is_finite u = true -> rounds_to prec emax (round_to prec emax u) (F2Q u).
Proof.
  intros Hf. exists (mantissa u), (exponent u). split.
  - destruct u as [s | s | | [] m e]; try discriminate; try exact I;
      apply same_number_refl.
  - symmetry. apply F2Q_dyadic.
Qed.

Lemma rounds_to_add (u v : spec_float) :
  valid_binary prec emax u = true -> is_finite u = true ->
  valid_binary prec emax v = true -> is_finite v = true ->
  rounds_to prec emax (SFadd prec emax u v) (F2Q u + F2Q v).
Proof.
  intros Hu Fu Hv Fv.
  destruct u as [s | s | | s m e], v as [s' | s' | | s' m' e']; try discriminate.
  - exists 0, 0. split; [destruct s, s'; exact I | unfold dyadic; cbn; ring].
  - cbn [SFadd]. destruct (rounds_to_self _ Hv Fv) as (M & c & H1 & H2).
    exists M, c. split; [exact H1 | rewrite H2; cbn [F2Q]; ring].
  - cbn [SFadd]. destruct (rounds_to_self _ Hu Fu) as (M & c & H1 & H2).
    exists M, c. split; [exact H1 | rewrite H2; cbn [F2Q]; ring].
  - cbn [SFadd].
    exists (cond_Zopp s (Zpos m) * 2 ^ (e - Z.min e e')
            + cond_Zopp s' (Zpos m') * 2 ^ (e' - Z.min e e')), (Z.min e e').
    split.
    + unfold rnd. rewrite !shl_align_pow by lia.
      destruct s, s'; cbn [cond_Zopp]; rewrite ?Z.mul_opp_l; apply same_number_refl.
    + rewrite dyadic_add by lia. reflexivity.
Qed.

Lemma rounds_to_sub (u v : spec_float) :
  valid_binary prec emax u = true -> is_finite u = true ->
  valid_binary prec emax v = true -> is_finite v = true ->
  rounds_to prec emax (SFsub prec emax u v) (F2Q u - F2Q v).
Proof.
  intros Hu Fu Hv Fv.
  destruct u as [s | s | | s m e], v as [s' | s' | | s' m' e']; try discriminate.
  - exists 0, 0. split; [destruct s, s'; exact I | unfold dyadic; cbn; ring].
  - cbn [SFsub].
    assert (Hv' : valid_binary prec emax (S754_finite (negb s') m' e') = true) by exact Hv.
    destruct (rounds_to_self _ Hv' Fv) as (M & c & H1 & H2).
    exists M, c. split; [exact H1 |]. rewrite H2. cbn [F2Q].
    destruct s'; cbn [negb cond_Zopp Z.opp]; 
      rewrite ?(inject_Z_opp (Zpos m')); change (inject_Z (Zneg m')) with (- inject_Z (Zpos m'))%Q; ring.
  - cbn [SFsub]. destruct (rounds_to_self _ Hu Fu) as (M & c & H1 & H2).
    exists M, c. split; [exact H1 | rewrite H2; cbn [F2Q]; ring].
  - cbn [SFsub].
    exists (cond_Zopp s (Zpos m) * 2 ^ (e - Z.min e e')
            + (- cond_Zopp s' (Zpos m')) * 2 ^ (e' - Z.min e e')), (Z.min e e').
    split.
    + unfold rnd. rewrite !shl_align_pow by lia.
      rewrite Z.mul_opp_l, Z.add_opp_r.
      destruct s, s'; cbn [cond_Zopp]; rewrite ?Z.mul_opp_l; apply same_number_refl.
    + rewrite dyadic_add by lia. rewrite dyadic_opp. reflexivity.
Qed.

(** The product of two mantissas has enough bits to be rounded as it is. *)
Lemma mul_fine (m m' : positive) (e e' : Z) :
  bounded prec emax m e = true -> bounded prec emax m' e' = true ->
  e + e' <= round_exp prec emax (m * m') (e + e').
Proof.
  intros [Hc _]%andb_prop [Hc' _]%andb_prop.
  apply Z.eqb_eq in Hc, Hc'. unfold round_exp, fexp in *.
  pose proof (digits2_bounds m) as [B1 _]. pose proof (digits2_bounds m') as [B1' _].
  assert (Hd : Zpos (digits2_pos m) + Zpos (digits2_pos m') - 2
               < Zpos (digits2_pos (m * m'))).
  { apply digits2_ge. rewrite Pos2Z.inj_mul.
    replace (Zpos (digits2_pos m) + Zpos (digits2_pos m') - 2)
      with ((Zpos (digits2_pos m) - 1) + (Zpos (digits2_pos m') - 1)) by lia.
    rewrite Z.pow_add_r by lia.
    assert (0 < 2 ^ (Zpos (digits2_pos m) - 1)) by (apply Z.pow_pos_nonneg; lia).
    assert (0 < 2 ^ (Zpos (digits2_pos m') - 1)) by (apply Z.pow_pos_nonneg; lia).
    nia. }
  unfold emin in *. lia.
Qed.

Lemma rounds_to_mul (u v : spec_float) :
  valid_binary prec emax u = true -> is_finite u = true ->
  valid_binary prec emax v = true -> is_finite v = true ->
  rounds_to prec emax (SFmul prec emax u v) (F2Q u * F2Q v).
Proof.
  intros Hu Fu Hv Fv.
  destruct u as [s | s | | s m e], v as [s' | s' | | s' m' e']; try discriminate.
  1-3: exists 0, 0; split; [exact I | unfold dyadic; cbn [F2Q]; ring].
  exists (cond_Zopp s (Zpos m) * cond_Zopp s' (Zpos m')), (e + e'). split.
  - cbn [SFmul]. 
    assert (H : binary_round_aux prec emax (xorb s s') (Zpos (m * m')) (e + e') loc_Exact
                = binary_round prec emax (xorb s s') (m * m') (e + e')).
    { pose proof (mul_fine m m' e e' Hu Hv) as Hfine.
      unfold binary_round, shl_align. fold (round_exp prec emax (m * m') (e + e')).
      destruct (round_exp prec emax (m * m') (e + e') - (e + e')) eqn:E; try lia;
        reflexivity. }
    rewrite H. unfold rnd.
    destruct s, s'; cbn [cond_Zopp xorb Z.opp Z.mul binary_normalize];
      apply same_number_refl.
  - rewrite dyadic_mul. reflexivity.
Qed.

Lemma leb_finite (lo u hi : spec_float) :
  is_finite lo = true -> is_finite hi = true ->
  SFleb lo u = true -> SFleb u hi = true -> is_finite u = true.
Proof.
  destruct lo as [| | |[]], u as [| [] | |], hi as [| | | []]; try discriminate; reflexivity.
Qed.
(** A number between two finite numbers is finite. *)
Lemma rounds_to_between (u lo hi : spec_float) (q : Q) :
  rounds_to prec emax u q ->
  valid_binary prec emax lo = true -> is_finite lo = true ->
  valid_binary prec emax hi = true -> is_finite hi = true ->
  (F2Q lo <= q)%Q -> (q <= F2Q hi)%Q ->
  valid_binary prec emax u = true /\ is_finite u = true
  /\ SFleb lo u = true /\ SFleb u hi = true
  /\ (F2Q lo <= F2Q u)%Q /\ (F2Q u <= F2Q hi)%Q.
Proof.
  intros Hu Vlo Flo Vhi Fhi Hlo Hhi.
  pose proof (rounds_to_valid u q Hu) as Vu.
  pose proof (rounds_to_le lo u _ q (rounds_to_self lo Vlo Flo) Hu Hlo) as L1.
  pose proof (rounds_to_le u hi q _ Hu (rounds_to_self hi Vhi Fhi) Hhi) as L2.
  pose proof (leb_finite lo u hi Flo Fhi L1 L2) as Fu.
  repeat split; try assumption; apply (leb_F2Q prec emax); assumption.
Qed.

(** Converting to a format a number that it holds changes nothing. *)
Lemma round_to_valid (u : spec_float) :
  valid_binary prec emax u = true -> round_to prec emax u = u.
Proof.
  destruct u as [s | s | | s m e]; try reflexivity.
  cbn [valid_binary round_to]. intros Hb.
  pose proof (rnd_finite prec emax Hprec s m e Hb) as H.
  destruct s; exact H.
Qed.
End Results.

(** ** The two formats of the program *)

Lemma float_prec : 0 < Float.prec.
Proof. reflexivity. Qed.

Lemma float_emin : emin Float.prec Float.emax <= 0.
Proof. discriminate. Qed.

Lemma double_prec : 0 < Double.prec.
Proof. reflexivity. Qed.

Lemma double_emin : emin Double.prec Double.emax <= 0.
Proof. discriminate. Qed.

Section FloatResults.
Variables u v : float.
Hypothesis Vu : Float.valid u = true.
Hypothesis Fu : is_finite u = true.
Hypothesis Vv : Float.valid v = true.
Hypothesis Fv : is_finite v = true.

Lemma float_self : float_of u (F2Q u).
Proof. exact (rounds_to_self _ _ float_prec u Vu Fu). Qed.

Lemma float_add : float_of (Float.add u v) (F2Q u + F2Q v).
Proof. exact (rounds_to_add _ _ float_prec u v Vu Fu Vv Fv). Qed.

Lemma float_sub : float_of (Float.sub u v) (F2Q u - F2Q v).
Proof. exact (rounds_to_sub _ _ float_prec u v Vu Fu Vv Fv). Qed.

Lemma float_mul : float_of (Float.mul u v) (F2Q u * F2Q v).
Proof. exact (rounds_to_mul _ _ float_emin u v Vu Fu Vv Fv). Qed.

Lemma float_leb_F2Q : Float.leb u v = true -> (F2Q u <= F2Q v)%Q.
Proof. exact (leb_F2Q _ _ float_prec u v Vu Fu Vv Fv). Qed.

Lemma float_F2Q_leb : (F2Q u <= F2Q v)%Q -> Float.leb u v = true.
Proof. exact (F2Q_leb _ _ float_prec u v Vu Fu Vv Fv). Qed.
End FloatResults.

Lemma float_narrow (w : double) : is_finite w = true -> float_of (double_to_float w) (F2Q w).
Proof. exact (rounds_to_round _ _ w). Qed.

Lemma double_widen (w : float) : is_finite w = true -> double_of (float_to_double w) (F2Q w).
Proof. exact (rounds_to_round _ _ w). Qed.

Lemma double_add (u v : double) :
  Double.valid u = true -> is_finite u = true ->
  Double.valid v = true -> is_finite v = true ->
  double_of (Double.add u v) (F2Q u + F2Q v).
Proof. exact (rounds_to_add _ _ double_prec u v). Qed.

Lemma double_sub (u v : double) :
  Double.valid u = true -> is_finite u = true ->
  Double.valid v = true -> is_finite v = true ->
  double_of (Double.sub u v) (F2Q u - F2Q v).
Proof. exact (rounds_to_sub _ _ double_prec u v). Qed.

(** A result whose exact value lies between two numbers of the format
    lies between them, and is finite. *)
Lemma float_between (u lo hi : float) (q : Q) :
  float_of u q ->
  Float.valid lo = true -> is_finite lo = true ->
  Float.valid hi = true -> is_finite hi = true ->
  (F2Q lo <= q)%Q -> (q <= F2Q hi)%Q ->
  Float.valid u = true /\ is_finite u = true
  /\ Float.leb lo u = true /\ Float.leb u hi = true
  /\ (F2Q lo <= F2Q u)%Q /\ (F2Q u <= F2Q hi)%Q.
Proof. exact (rounds_to_between _ _ float_prec u lo hi q). Qed.

Lemma double_between (u lo hi : double) (q : Q) :
  double_of u q ->
  Double.valid lo = true -> is_finite lo = true ->
  Double.valid hi = true -> is_finite hi = true ->
  (F2Q lo <= q)%Q -> (q <= F2Q hi)%Q ->
  Double.valid u = true /\ is_finite u = true
  /\ SFleb lo u = true /\ SFleb u hi = true
  /\ (F2Q lo <= F2Q u)%Q /\ (F2Q u <= F2Q hi)%Q.
Proof. exact (rounds_to_between _ _ double_prec u lo hi q). Qed.

(** A [float] made from an integer is a valid one. *)
Lemma of_Z_valid (n : Z) : Float.valid (Float.of_Z n) = true.
Proof. apply (rnd_valid _ _ float_prec). Qed.

(** Widening is exact: every [float] is a [double]. *)
Lemma bounded_float_double (m : positive) (e : Z) :
  bounded Float.prec Float.emax m e = true ->
  exists n : nat,
    bounded Double.prec Double.emax (shl m n) (e - Z.of_nat n) = true.
Proof.
  intros Hb. destruct (canonical_bounds _ _ m e Hb) as (A1 & A2 & A3).
  pose proof Hb as [_ He]%andb_prop. apply Z.leb_le in He.
  assert (Hd : Zpos (digits2_pos m) <= 24) by (apply digits2_le; exact A2).
  exists (Z.to_nat (53 - Zpos (digits2_pos m))).
  unfold bounded, canonical_mantissa. rewrite digits2_shl, Z2Nat.id by lia.
  apply andb_true_intro. split.
  - apply Z.eqb_eq.
    unfold fexp, emin, Float.prec, Float.emax, Double.prec, Double.emax in *. lia.
  - apply Z.leb_le. unfold Float.prec, Float.emax, Double.prec, Double.emax in *. lia.
Qed.

Lemma float_to_double_exact (w : float) :
  Float.valid w = true -> is_finite w = true ->
  (F2Q (float_to_double w) == F2Q w)%Q.
Proof.
  intros Vw Fw. destruct w as [s | s | | s m e]; try discriminate; [reflexivity |].
  destruct (bounded_float_double m e Vw) as (n & Hn).
  set (z0 := S754_finite s (shl m n) (e - Z.of_nat n)).
  assert (Ez : (F2Q z0 == F2Q (S754_finite s m e))%Q).
  { rewrite !F2Q_dyadic. cbn [mantissa exponent z0]. symmetry.
    rewrite (dyadic_shift _ e (e - Z.of_nat n)) by lia.
    replace (e - (e - Z.of_nat n)) with (Z.of_nat n) by lia.
    destruct s; cbn [cond_Zopp]; rewrite shl_pow, ?Z.mul_opp_l; reflexivity. }
  assert (S : same_number (float_to_double (S754_finite s m e)) z0).
  { apply (rounds_to_same _ _ double_prec _ _ _ _
             (double_widen (S754_finite s m e) eq_refl)
             (rounds_to_self _ _ double_prec z0 Hn eq_refl)).
    now rewrite Ez. }
  destruct (float_to_double (S754_finite s m e)); cbn in S; try discriminate.
  rewrite S. exact Ez.
Qed.

(** ** The vertical direction of a new particle *)

(** Every draw between -1 and 1 is sent between 0 and 4. *)
Lemma upward_range (u : float) :
  Float.valid u = true ->
  Float.leb (Float.of_Z (-1)) u = true -> Float.leb u (Float.of_Z 1) = true ->
  Float.leb (Float.of_Z 0) (Application.upward u) = true
  /\ Float.leb (Application.upward u) (Float.of_Z 4) = true
  /\ exists (w : float) (v : double),
       float_of w (F2Q u * 2) /\ double_of v (F2Q w + 2)
       /\ float_of (Application.upward u) (F2Q v).
Proof.
  intros Vu L1 L2.
  assert (Fu : is_finite u = true)
    by (apply (leb_finite (Float.of_Z (-1)) u (Float.of_Z 1)); auto).
  pose proof (float_leb_F2Q (Float.of_Z (-1)) u eq_refl eq_refl Vu Fu L1) as Q1.
  pose proof (float_leb_F2Q u (Float.of_Z 1) Vu Fu eq_refl eq_refl L2) as Q2.
  assert (E1 : (F2Q (Float.of_Z (-1)) == -1)%Q) by reflexivity.
  assert (E2 : (F2Q (Float.of_Z 1) == 1)%Q) by reflexivity.
  assert (E3 : (F2Q (Float.of_Z (-2)) == -2)%Q) by reflexivity.
  assert (E4 : (F2Q (Float.of_Z 2) == 2)%Q) by reflexivity.
  assert (E5 : (F2Q (Float.of_Z 4) == 4)%Q) by reflexivity.
  assert (E6 : (F2Q (Float.of_Z 0) == 0)%Q) by reflexivity.
  assert (D3 : (F2Q (Double.of_Z (-2)) == -2)%Q) by reflexivity.
  assert (D4 : (F2Q (Double.of_Z 2) == 2)%Q) by reflexivity.
  assert (D5 : (F2Q (Double.of_Z 4) == 4)%Q) by reflexivity.
  assert (D6 : (F2Q (Double.of_Z 0) == 0)%Q) by reflexivity.
  unfold Application.upward.
  destruct (float_between (Float.mul u (Float.of_Z 2)) (Float.of_Z (-2)) (Float.of_Z 2) _
              (float_mul u (Float.of_Z 2) Vu Fu eq_refl eq_refl))
    as (V1 & F1 & _ & _ & A1 & B1); try reflexivity; try (rewrite ?E4, ?D4; lra).
  set (w := Float.mul u (Float.of_Z 2)) in *.
  destruct (double_between (float_to_double w) (Double.of_Z (-2)) (Double.of_Z 2) _
              (double_widen w F1))
    as (V2 & F2 & _ & _ & A2 & B2); try reflexivity; try (rewrite ?E4, ?D4; lra).
  set (w' := float_to_double w) in *.
  destruct (double_between (Double.add w' (Double.of_Z 2)) (Double.of_Z 0) (Double.of_Z 4) _
              (double_add w' (Double.of_Z 2) V2 F2 eq_refl eq_refl))
    as (V3 & F3 & _ & _ & A3 & B3); try reflexivity; try (rewrite ?E4, ?D4; lra).
  set (v := Double.add w' (Double.of_Z 2)) in *.
  destruct (float_between (double_to_float v) (Float.of_Z 0) (Float.of_Z 4) _
              (float_narrow v F3))
    as (_ & _ & L & U & _ & _); try reflexivity; try (rewrite ?E4, ?D4; lra).
  split; [exact L | split; [exact U |]].
  exists w, v. split; [| split].
  - pose proof (float_mul u (Float.of_Z 2) Vu Fu eq_refl eq_refl) as M.
    destruct M as (M & e & H1 & H2). exists M, e. split; [exact H1 |].
    rewrite H2, E4. reflexivity.
  - pose proof (double_add w' (Double.of_Z 2) V2 F2 eq_refl eq_refl) as A.
    destruct A as (M & e & H1 & H2). exists M, e. split; [exact H1 |].
    rewrite H2, D4. unfold w'. rewrite (float_to_double_exact w V1 F1). reflexivity.
  - exact (float_narrow v F3).
Qed.

(** ** The colour gradient *)

Lemma SFltb_negb_leb (u v : spec_float) :
  is_finite u = true -> is_finite v = true -> SFltb u v = negb (SFleb v u).
Proof.
  destruct u as [s | s | | s m e], v as [s' | s' | | s' m' e']; try discriminate;
    intros _ _; try destruct s; try destruct s'; try reflexivity;
    unfold SFltb, SFleb, SFcompare;
    rewrite (Z.compare_antisym e e');
    destruct (e ?= e'); cbn [CompOpp]; try reflexivity;
    change (PosDef.Pos.compare_cont Eq m' m) with (m' ?= m)%positive;
    change (PosDef.Pos.compare_cont Eq m m') with (m ?= m')%positive;
    rewrite (Pos.compare_antisym m m'); destruct (m ?= m')%positive; reflexivity.
Qed.

Lemma float_ltb_F2Q (u v : float) :
  Float.valid u = true -> is_finite u = true ->
  Float.valid v = true -> is_finite v = true ->
  Float.ltb u v = true <-> (F2Q u < F2Q v)%Q.
Proof.
  intros Vu Fu Vv Fv. unfold Float.ltb. rewrite SFltb_negb_leb by assumption.
  rewrite negb_true_iff. split.
  - intros H. apply Qnot_le_lt. intros L.
    apply (float_F2Q_leb v u Vv Fv Vu Fu) in L. unfold Float.leb in L. congruence.
  - intros H. destruct (SFleb v u) eqn:E; [| reflexivity].
    apply (float_leb_F2Q v u Vv Fv Vu Fu) in E. lra.
Qed.

(** The clamped factor is a number between 0 and 1, the factor itself
    when that lies there. *)
Lemma clamp01_finite (t : float) :
  Float.valid t = true -> is_finite t = true ->
  Float.valid (clamp01 t) = true /\ is_finite (clamp01 t) = true
  /\ ((F2Q t < 0 /\ F2Q (clamp01 t) == 0)
      \/ (1 < F2Q t /\ F2Q (clamp01 t) == 1)
      \/ (0 <= F2Q t <= 1 /\ clamp01 t = t))%Q.
Proof.
  intros Vt Ft. unfold clamp01.
  pose proof (float_ltb_F2Q t (Float.of_Z 0) Vt Ft eq_refl eq_refl) as H0.
  pose proof (float_ltb_F2Q (Float.of_Z 1) t eq_refl eq_refl Vt Ft) as H1.
  assert (E0 : (F2Q (Float.of_Z 0) == 0)%Q) by reflexivity.
  assert (E1 : (F2Q (Float.of_Z 1) == 1)%Q) by reflexivity.
  destruct (Float.ltb t (Float.of_Z 0)) eqn:L0.
  - repeat split; try reflexivity. left. split; [| reflexivity].
    rewrite <- E0. now apply H0.
  - destruct (Float.ltb (Float.of_Z 1) t) eqn:L1.
    + repeat split; try reflexivity. right; left. split; [| reflexivity].
      rewrite <- E1. now apply H1.
    + repeat split; try assumption. right; right. repeat split.
      * apply Qnot_lt_le. intros C. rewrite <- E0 in C. apply H0 in C. congruence.
      * apply Qnot_lt_le. intros C. rewrite <- E1 in C. apply H1 in C. congruence.
Qed.

Lemma clamp01_spec (t : float) :
  Float.valid t = true -> is_nan t = false ->
  Float.valid (clamp01 t) = true /\ is_finite (clamp01 t) = true
  /\ (0 <= F2Q (clamp01 t) <= 1)%Q.
Proof.
  intros Vt Nt. destruct (is_finite t) eqn:Ft.
  - destruct (clamp01_finite t Vt Ft) as (V & F & [[A B] | [[A B] | [A B]]]);
      repeat split; try assumption; try rewrite B; lra.
  - destruct t as [| [] | |]; try discriminate;
      repeat split; try reflexivity; apply Qle_bool_iff; reflexivity.
Qed.

Lemma clamp01_mono (t1 t2 : float) :
  Float.valid t1 = true -> is_nan t1 = false ->
  Float.valid t2 = true -> is_nan t2 = false ->
  Float.leb t1 t2 = true -> (F2Q (clamp01 t1) <= F2Q (clamp01 t2))%Q.
Proof.
  intros V1 N1 V2 N2 L.
  destruct (clamp01_spec t1 V1 N1) as (_ & _ & A1 & B1).
  destruct (clamp01_spec t2 V2 N2) as (_ & _ & A2 & B2).
  destruct (is_finite t1) eqn:F1, (is_finite t2) eqn:F2.
  - pose proof (float_leb_F2Q t1 t2 V1 F1 V2 F2 L) as Lq.
    destruct (clamp01_finite t1 V1 F1) as (_ & _ & [[C1 D1] | [[C1 D1] | [C1 D1]]]);
      destruct (clamp01_finite t2 V2 F2) as (_ & _ & [[C2 D2] | [[C2 D2] | [C2 D2]]]);
      try rewrite D1; try rewrite D2; lra.
  - destruct t2 as [| [] | |]; try discriminate.
    + destruct t1 as [| | | []]; discriminate.
    + change (F2Q (clamp01 (S754_infinity false))) with (F2Q (Float.of_Z 1)).
      assert (E1 : (F2Q (Float.of_Z 1) == 1)%Q) by reflexivity. lra.
  - destruct t1 as [| [] | |]; try discriminate.
    + change (F2Q (clamp01 (S754_infinity true))) with 0%Q. lra.
    + destruct t2 as [| | | []]; discriminate.
  - destruct t1 as [| [] | |], t2 as [| [] | |]; try discriminate; cbn; lra.
Qed.

Section Lerp.
Variables from to : float.
Hypothesis Vfrom : Float.valid from = true.
Hypothesis Ffrom : is_finite from = true.
Hypothesis Vto : Float.valid to = true.
Hypothesis Fto : is_finite to = true.
Hypothesis Fdiff : is_finite (Float.sub to from) = true.

Lemma lerp_diff_valid : Float.valid (Float.sub to from) = true.
Proof.
  exact (rounds_to_valid _ _ float_prec _ _ (float_sub to from Vto Fto Vfrom Ffrom)).
Qed.

(** The interpolation goes up with the factor when [to] is above
    [from], and down when it is below. *)
Lemma lerp_mono (c1 c2 : float) :
  Float.valid c1 = true -> is_finite c1 = true ->
  Float.valid c2 = true -> is_finite c2 = true ->
  (0 <= F2Q c1)%Q -> (F2Q c1 <= F2Q c2)%Q -> (F2Q c2 <= 1)%Q ->
  ((0 <= F2Q (Float.sub to from))%Q ->
   Float.leb (lerp from to c1) (lerp from to c2) = true)
  /\ ((F2Q (Float.sub to from) <= 0)%Q ->
      Float.leb (lerp from to c2) (lerp from to c1) = true).
Proof.
  intros V1 F1 V2 F2 L0 L12 L1. unfold lerp.
  set (d := Float.sub to from) in *.
  pose proof lerp_diff_valid as Vd. fold d in Vd.
  pose proof (float_mul d c1 Vd Fdiff V1 F1) as M1.
  pose proof (float_mul d c2 Vd Fdiff V2 F2) as M2.
  assert (Z0 : (F2Q (S754_zero false) == 0)%Q) by reflexivity.
  split; intros Hd.
  - destruct (float_between _ (S754_zero false) d _ M1) as (W1 & G1 & _ & _ & _ & _);
      try assumption; try reflexivity; try (rewrite ?Z0; nra).
    destruct (float_between _ (S754_zero false) d _ M2) as (W2 & G2 & _ & _ & _ & _);
      try assumption; try reflexivity; try (rewrite ?Z0; nra).
    assert (P : Float.leb (Float.mul d c1) (Float.mul d c2) = true)
      by (apply (rounds_to_le _ _ float_prec _ _ _ _ M1 M2); nra).
    apply (float_leb_F2Q _ _ W1 G1 W2 G2) in P.
    apply (rounds_to_le _ _ float_prec _ _ _ _
             (float_add from _ Vfrom Ffrom W1 G1) (float_add from _ Vfrom Ffrom W2 G2)).
    lra.
  - destruct (float_between _ d (S754_zero false) _ M1) as (W1 & G1 & _ & _ & _ & _);
      try assumption; try reflexivity; try (rewrite ?Z0; nra).
    destruct (float_between _ d (S754_zero false) _ M2) as (W2 & G2 & _ & _ & _ & _);
      try assumption; try reflexivity; try (rewrite ?Z0; nra).
    assert (P : Float.leb (Float.mul d c2) (Float.mul d c1) = true)
      by (apply (rounds_to_le _ _ float_prec _ _ _ _ M2 M1); nra).
    apply (float_leb_F2Q _ _ W2 G2 W1 G1) in P.
    apply (rounds_to_le _ _ float_prec _ _ _ _
             (float_add from _ Vfrom Ffrom W2 G2) (float_add from _ Vfrom Ffrom W1 G1)).
    lra.
Qed.
End Lerp.

(** ** Zero and one *)

Lemma add_zero_r (u : float) (s : bool) : same_number (Float.add u (S754_zero s)) u.
Proof. destruct u as [[] | [] | |]; destruct s; cbn; auto. Qed.

Lemma sub_zero_r (u : float) (s : bool) : same_number (Float.sub u (S754_zero s)) u.
Proof. destruct u as [[] | [] | |]; destruct s; cbn; auto. Qed.

Lemma mul_zero_finite (s : bool) (u : float) :
  is_finite u = true -> exists s', Float.mul (S754_zero s) u = S754_zero s'.
Proof. destruct u; try discriminate; intros _; cbn; eauto. Qed.

Lemma scale_zero_add (s : bool) (u v : float) :
  is_finite v = true -> same_number (Float.add u (Float.mul (S754_zero s) v)) u.
Proof.
  intros Hv. destruct (mul_zero_finite s v Hv) as [s' ->]. apply add_zero_r.
Qed.

(** Multiplying by 1.0f changes no [float]. *)
Lemma mul_one_l (u : float) :
  Float.valid u = true -> is_finite u = true ->
  same_number (Float.mul (Float.of_Z 1) u) u.
Proof.
  intros Vu Fu.
  apply (rounds_to_same _ _ float_prec _ _ _ _
           (float_mul (Float.of_Z 1) u eq_refl eq_refl Vu Fu) (float_self u Vu Fu)).
  assert (E : (F2Q (Float.of_Z 1) == 1)%Q) by reflexivity.
  rewrite E. ring.
Qed.

Lemma same_number_add_l (u u' : float) (s : bool) :
  same_number u u' -> same_number (Float.add u (S754_zero s)) u'.
Proof.
  intros H. apply (same_number_trans _ u); [apply add_zero_r | exact H].
Qed.

Lemma update_zero_direction (s : bool) (u grav : float) :
  is_finite u = true -> Float.valid u = true -> is_finite grav = true ->
  same_number
    (Float.add
       (Float.mul (Float.sub (Float.of_Z 1)
                             (Float.mul (S754_zero s) Particle.slowdown_per_second)) u)
       (Float.mul (S754_zero s) grav))
    u.
Proof.
  intros Hf Hv Hg.
  change (Float.mul (S754_zero s) Particle.slowdown_per_second)
    with (S754_zero (xorb s false)).
  change (Float.sub (Float.of_Z 1) (S754_zero (xorb s false))) with (Float.of_Z 1).
  destruct (mul_zero_finite s grav Hg) as [s' ->].
  apply same_number_add_l. now apply mul_one_l.
Qed.

(** ** Particle *)

(** C7.  For every position and direction, [Particle(position, direction)]
    sets life to exactly 10 (the float [10485760 * 2^-20]) and stores the
    position and the direction it was given, unchanged. *)
Theorem Particle_new_spec (position direction : point3) :
  Particle.life (Particle.new position direction) = S754_finite false 10485760 (-20)
  /\ (F2Q (Particle.life (Particle.new position direction)) == 10)%Q
  /\ Particle.position (Particle.new position direction) = position
  /\ Particle.direction (Particle.new position direction) = direction.
Proof. repeat split. Qed.

(** The life of a particle after [update]: the rounding of the exact
    difference. *)
Lemma update_life_rounds (dt : float) (p : Particle.t) :
  Float.valid (Particle.life p) = true -> is_finite (Particle.life p) = true ->
  Float.valid dt = true -> is_finite dt = true ->
  float_of (Particle.life (Particle.update dt p)) (F2Q (Particle.life p) - F2Q dt).
Proof. intros V F Vd Fd. now apply float_sub. Qed.

(** C1, as amended.  For every particle and every [dt], [update(dt)]
    sets position to [position + dt*direction] and direction to
    [(1 - dt*0.2f)*direction + dt*gravity] with gravity = (0,-1,0), each
    operation being the binary32 one (rounded to nearest, ties to even),
    and sets life to the binary32 difference [life - dt].  For finite life
    and [dt] that difference is the rounding of the exact one: life
    decreases by exactly [dt] whenever [life - dt] is a binary32 number,
    and never increases when [dt >= 0].  For [dt = 0] and a particle whose
    direction is finite, position, direction and life are left numerically
    unchanged. *)
Theorem Particle_update_spec (dt : float) (p : Particle.t) :
  Particle.position (Particle.update dt p)
  = point3_add (Particle.position p) (point3_scale dt (Particle.direction p))
  /\ Particle.direction (Particle.update dt p)
     = point3_add
         (point3_scale
            (Float.sub (Float.of_Z 1) (Float.mul dt (S754_finite false 13421773 (-26))))
            (Particle.direction p))
         (point3_scale dt
            (mk_point3 (S754_zero false) (S754_finite true 8388608 (-23))
                       (S754_zero false)))
  /\ Particle.life (Particle.update dt p) = Float.sub (Particle.life p) dt
  /\ (Float.valid (Particle.life p) = true -> is_finite (Particle.life p) = true ->
      Float.valid dt = true -> is_finite dt = true ->
      float_of (Particle.life (Particle.update dt p)) (F2Q (Particle.life p) - F2Q dt)
      /\ (forall life' : float,
            Float.valid life' = true -> is_finite life' = true ->
            (F2Q life' == F2Q (Particle.life p) - F2Q dt)%Q ->
            same_number (Particle.life (Particle.update dt p)) life')
      /\ ((0 <= F2Q dt)%Q ->
          Float.leb (Particle.life (Particle.update dt p)) (Particle.life p) = true))
  /\ (forall s, dt = S754_zero s ->
      finite_point (Particle.direction p) = true ->
      valid_point (Particle.direction p) = true ->
      same_point (Particle.position (Particle.update dt p)) (Particle.position p)
      /\ same_point (Particle.direction (Particle.update dt p)) (Particle.direction p)
      /\ same_number (Particle.life (Particle.update dt p)) (Particle.life p)).
Proof.
  split; [reflexivity | split; [reflexivity | split; [reflexivity | split]]].
  - intros V F Vd Fd. pose proof (update_life_rounds dt p V F Vd Fd) as R.
    split; [exact R | split].
    + intros life' V' F' E.
      apply (rounds_to_same _ _ float_prec _ _ _ _ R (float_self life' V' F')).
      now rewrite E.
    + intros Hd.
      apply (rounds_to_le _ _ float_prec _ _ _ _ R (float_self _ V F)). lra.
  - intros s -> Hf Hv. unfold finite_point, valid_point in *.
    repeat match goal with
           | H : _ && _ = true |- _ => apply andb_prop in H; destruct H
           end.
    cbn [Particle.update Particle.position Particle.direction Particle.life].
    split; [| split].
    + repeat split; cbn [point3_add point3_scale x y z];
        apply scale_zero_add; assumption.
    + repeat split; cbn [point3_add point3_scale x y z];
        apply update_zero_direction; solve [assumption | reflexivity].
    + apply sub_zero_r.
Qed.

(** C1, as stated, fails: a fresh particle updated by [dt = 2^-60 > 0]
    keeps its life of 10; life has not decreased by [dt], nor at all. *)
Lemma Particle_update_life_not_decreased :
  Float.ltb (Float.of_Z 0) tiny_delta = true
  /\ Particle.life (Particle.update tiny_delta resting_particle)
     = Particle.life resting_particle
  /\ ~ (F2Q (Particle.life (Particle.update tiny_delta resting_particle))
        == F2Q (Particle.life resting_particle) - F2Q tiny_delta)%Q.
Proof.
  split; [reflexivity | split; [reflexivity |]].
  vm_compute. discriminate.
Qed.

(** The scenario of the specification: from life 10, an update by 5
    leaves exactly 5; and an update by 0 leaves a particle in flight as
    it is. *)
Lemma Particle_update_spec_witness :
  same_number (Particle.life (Particle.update (Float.of_Z 5) falling_particle))
              (Float.of_Z 5)
  /\ same_point (Particle.position (Particle.update (S754_zero false) falling_particle))
                (Particle.position falling_particle)
  /\ same_point (Particle.direction (Particle.update (S754_zero false) falling_particle))
                (Particle.direction falling_particle)
  /\ same_number (Particle.life (Particle.update (S754_zero false) falling_particle))
                 (Particle.life falling_particle).
Proof.
  split.
  - destruct (Particle_update_spec (Float.of_Z 5) falling_particle)
      as (_ & _ & _ & H & _).
    destruct (H eq_refl eq_refl eq_refl eq_refl) as (_ & E & _).
    apply E; reflexivity.
  - destruct (Particle_update_spec (S754_zero false) falling_particle)
      as (_ & _ & _ & _ & H).
    apply (H false); reflexivity.
Defined.

(** ** The cast to [size_t] *)


Lemma Qfloor_shift (m : positive) (e : Z) :
  Qfloor (inject_Z (Zpos m) * Qpower 2 e) =
  match e with
  | Zneg p => Z.shiftr (Zpos m) (Zpos p)
  | _ => Z.shiftl (Zpos m) e
  end.
Proof.
  destruct e as [| p | p].
  - cbn [Qpower]. rewrite Z.shiftl_0_r.
    rewrite (Qfloor_comp _ (inject_Z (Zpos m))) by ring. apply Qfloor_Z.
  - rewrite Z.shiftl_mul_pow2 by lia.
    rewrite (Qfloor_comp _ (inject_Z (Zpos m * 2 ^ Zpos p))).
    + apply Qfloor_Z.
    + rewrite inject_Z_mult, Zpower_Qpower by lia. reflexivity.
  - rewrite Z.shiftr_div_pow2 by lia.
    change (Zneg p) with (- Zpos p).
    rewrite (Qfloor_comp _ (Zpos m # Z.to_pos (2 ^ Zpos p))).
    + unfold Qfloor. rewrite Z2Pos.id by (apply Z.pow_pos_nonneg; lia). reflexivity.
    + rewrite Qpower_opp, (Qmake_Qdiv (Zpos m)).
      rewrite Z2Pos.id by (apply Z.pow_pos_nonneg; lia).
      rewrite Zpower_Qpower by lia. reflexivity.
Qed.



Lemma mul_finite_r (k u : float) :
  is_finite (Float.mul k u) = true -> is_finite u = true.
Proof. destruct k, u; try reflexivity; discriminate. Qed.

Lemma double_to_float_valid (w : double) :
  is_finite (double_to_float w) = true ->
  Float.valid (double_to_float w) = true /\ is_finite w = true.
Proof.
  intros H. assert (F : is_finite w = true) by (destruct w; try discriminate; reflexivity).
  split; [| exact F].
  exact (rounds_to_valid _ _ float_prec _ _ (float_narrow w F)).
Qed.

(** ** Application *)

Section ApplicationFacts.
Context {G : Type} {gen : Generator G}.
Import Application.

Lemma spawn_fields (n : nat) (app : t G) :
  distribution_position_ (spawn n app) = distribution_position_ app
  /\ distribution_direction_ (spawn n app) = distribution_direction_ app
  /\ last_time_ (spawn n app) = last_time_ app
  /\ state_ (spawn n app) = state_ app.
Proof.
  revert app; induction n as [| n IH]; intros app; cbn [spawn]; [easy |].
  destruct (create_particle _ _ _) as [p g'].
  destruct (IH (mk (distribution_position_ app) (distribution_direction_ app)
                   (last_time_ app) (state_ app) (particles_ app ++ [p]) g'))
    as (H1 & H2 & H3 & H4).
  now rewrite H1, H2, H3, H4.
Qed.

(** The loop appends: the old particles stay in front, and each new one
    comes from [create_particle] with the distributions of the
    application. *)
Lemma spawn_particles (n : nat) (app : t G) :
  exists created,
    particles_ (spawn n app) = particles_ app ++ created
    /\ length created = n
    /\ Forall (fun p => exists g0,
                 p = fst (create_particle (distribution_position_ app)
                                          (distribution_direction_ app) g0))
              created.
Proof.
  revert app; induction n as [| n IH]; intros app; cbn [spawn].
  - exists []. rewrite app_nil_r. repeat split. constructor.
  - destruct (create_particle _ _ _) as [p g'] eqn:E.
    destruct (IH (mk (distribution_position_ app) (distribution_direction_ app)
                     (last_time_ app) (state_ app) (particles_ app ++ [p]) g'))
      as (created & Hc & Hl & Hf).
    exists (p :: created). cbn [particles_] in Hc.
    rewrite Hc, <- app_assoc. split; [reflexivity | split].
    + cbn. now rewrite Hl.
    + constructor; [| exact Hf]. exists (generator_ app). now rewrite E.
Qed.

(** C5.  For every n and every pool, the loop that spawns n particles
    appends exactly n particles to the pool (before any particle is
    advanced or pruned): the pool grows by exactly n and the particles
    that were there stay in front. *)
Theorem spawn_length (n : nat) (app : t G) :
  length (particles_ (spawn n app)) = (length (particles_ app) + n)%nat
  /\ firstn (length (particles_ app)) (particles_ (spawn n app)) = particles_ app.
Proof.
  destruct (spawn_particles n app) as (created & -> & <- & _). split.
  - apply length_app.
  - rewrite firstn_app, Nat.sub_diag, firstn_all, firstn_O. apply app_nil_r.
Qed.

Lemma advance_alive (dt : float) (ps : list Particle.t) :
  Forall (fun p => Particle.dead p = false) (advance dt ps).
Proof.
  unfold advance. apply Forall_forall. intros p [_ H]%filter_In.
  now apply negb_true_iff in H.
Qed.

(** The pool after [update]: cleared on reset, grown by the spawn loop,
    every particle updated, the dead ones erased. *)
Lemma update_particles (app : t G) :
  particles_ (update app) =
  advance (time_delta (state_ app))
    (particles_ (spawn (N.to_nat (particles_to_create (state_ app)))
                       (if reset_scene (state_ app)
                        then with_particles app [] else app))).
Proof.
  unfold update.
  set (app1 := if reset_scene (state_ app) then with_particles app [] else app).
  assert (H1 : state_ app1 = state_ app) by (subst app1; now destruct (reset_scene _)).
  rewrite H1.
  destruct (spawn_fields (N.to_nat (particles_to_create (state_ app))) app1)
    as (_ & _ & _ & H).
  rewrite H, H1. reflexivity.
Qed.

(** C3.  For every application state (every pool, every time_delta),
    after [update] no particle with life <= 0 is left in the pool: each
    particle of the pool is the update of a particle that was there or
    was spawned, and it is not dead. *)
Theorem update_prunes_dead (app : t G) :
  Forall (fun p => Float.leb (Particle.life p) (Float.of_Z 0) = false)
         (particles_ (update app))
  /\ forall p, In p (particles_ (update app)) ->
               exists q, p = Particle.update (time_delta (state_ app)) q
                         /\ Particle.dead p = false.
Proof.
  rewrite update_particles. split.
  - apply advance_alive.
  - intros p [Hin Hd]%filter_In. apply in_map_iff in Hin as (q & <- & _).
    exists q. split; [reflexivity | now apply negb_true_iff in Hd].
Qed.

(** C4.  For every pool, of any size, an [update] with the reset flag set
    gives the pool that the empty pool would have given: nothing of the
    prior particles is left, only (at most) the [particles_to_create]
    particles spawned in this frame, and none at all when that number
    is 0. *)
Theorem update_reset_clears (app : t G) (ps : list Particle.t) :
  reset_scene (state_ app) = true ->
  particles_ (update (with_particles app ps)) = particles_ (update (with_particles app []))
  /\ (length (particles_ (update (with_particles app ps)))
      <= N.to_nat (particles_to_create (state_ app)))%nat
  /\ (particles_to_create (state_ app) = 0%N ->
      particles_ (update (with_particles app ps)) = []).
Proof.
  intros Hr. rewrite !update_particles. cbn [with_particles state_]. rewrite Hr.
  cbn [with_particles distribution_position_ distribution_direction_
       last_time_ state_ generator_].
  split; [reflexivity | split].
  - unfold advance.
    etransitivity; [apply filter_length_le |].
    rewrite length_map.
    match goal with
    | |- (length (particles_ (spawn ?n ?a)) <= _)%nat =>
        destruct (spawn_particles n a) as (created & Hc & Hl & _)
    end.
    rewrite Hc, length_app. cbn in Hl |- *. lia.
  - intros ->. reflexivity.
Qed.

(** C10.  [reset(true)] raises the reset flag and also puts the viewer
    back at (0, 0, -5) with a yaw of 0; [reset(false)] lowers the flag and
    leaves position and yaw as they are; [update] ends with
    [reset(false)], so the flag is down after every frame. *)
Theorem reset_spec (app : t G) :
  (reset_scene (state_ (reset true app)) = true
   /\ position (state_ (reset true app))
      = mk_point3 (S754_zero false) (S754_zero false) (S754_finite true 10485760 (-21))
   /\ (F2Q (z (position (state_ (reset true app)))) == -5)%Q
   /\ rotation_y (state_ (reset true app)) = S754_zero false)
  /\ (reset_scene (state_ (reset false app)) = false
      /\ position (state_ (reset false app)) = position (state_ app)
      /\ rotation_y (state_ (reset false app)) = rotation_y (state_ app))
  /\ reset_scene (state_ (update app)) = false
  /\ position (state_ (update app)) = position (state_ app)
  /\ rotation_y (state_ (update app)) = rotation_y (state_ app).
Proof.
  repeat split.
  - unfold update. cbn.
    set (app1 := if reset_scene (state_ app) then with_particles app [] else app).
    destruct (spawn_fields (N.to_nat (particles_to_create (state_ app1))) app1)
      as (_ & _ & _ & ->).
    subst app1. now destruct (reset_scene (state_ app)).
  - unfold update. cbn.
    set (app1 := if reset_scene (state_ app) then with_particles app [] else app).
    destruct (spawn_fields (N.to_nat (particles_to_create (state_ app1))) app1)
      as (_ & _ & _ & ->).
    subst app1. now destruct (reset_scene (state_ app)).
Qed.


(** C8.  On the very first tick [last_time_] is the 0.0 of the
    constructor, so [update_time(current_time)] computes
    [current_time - 0], which is [current_time] itself (no rounding in
    [double]), and stores it as [time_delta] and as the new
    [last_time_].  The [float] member holds it rounded to binary32:
    [time_delta] is the rounding of the reading, so it lies between any
    two binary32 numbers that the reading lies between, and is the
    reading itself when that is a binary32 number.  The first delta is
    the whole clock reading, the number of particles is computed from
    it, and nothing corrects it.  The tick is one on which the cast of
    the particle count is defined. *)
Theorem first_update_time (state0 : state_t) (generator0 : G)
        (current_time : double) (n : size_t) :
  float_to_size_t (Float.mul (size_t_to_float particles_per_second)
                             (double_to_float current_time)) = Some n ->
  last_time_ (new state0 generator0) = S754_zero false
  /\ Double.sub current_time (last_time_ (new state0 generator0)) = current_time
  /\ exists app',
       update_time current_time (new state0 generator0) = Some app'
       /\ time_delta (state_ app') = double_to_float current_time
       /\ float_of (time_delta (state_ app')) (F2Q current_time)
       /\ (forall lo hi : float,
             Float.valid lo = true -> is_finite lo = true ->
             Float.valid hi = true -> is_finite hi = true ->
             (F2Q lo <= F2Q current_time)%Q -> (F2Q current_time <= F2Q hi)%Q ->
             (F2Q lo <= F2Q (time_delta (state_ app')))%Q
             /\ (F2Q (time_delta (state_ app')) <= F2Q hi)%Q)
       /\ (forall f : float,
             Float.valid f = true -> is_finite f = true ->
             (F2Q current_time == F2Q f)%Q ->
             (F2Q (time_delta (state_ app')) == F2Q current_time)%Q)
       /\ particles_to_create (state_ app') = n
       /\ last_time_ app' = current_time.
Proof.
  intros Hn.
  assert (Hs : Double.sub current_time (S754_zero false) = current_time).
  { destruct current_time as [[] | | |]; reflexivity. }
  assert (Fp : is_finite (Float.mul (size_t_to_float particles_per_second)
                                    (double_to_float current_time)) = true).
  { destruct (Float.mul _ _); try reflexivity; discriminate Hn. }
  destruct (double_to_float_valid _ (mul_finite_r _ _ Fp)) as [_ Fc].
  pose proof (float_narrow current_time Fc) as R.
  split; [reflexivity | split; [exact Hs |]].
  unfold update_time. cbn [new last_time_].
  change (Double.of_Z 0) with (S754_zero false). rewrite Hs, Hn.
  eexists. split; [reflexivity |].
  cbn [state_ time_delta last_time_ particles_to_create].
  split; [reflexivity | split; [exact R | split; [| split; [| split; reflexivity]]]].
  - intros lo hi Vl Fl Vh Fh L H.
    destruct (float_between _ lo hi _ R Vl Fl Vh Fh L H) as (_ & _ & _ & _ & A & B).
    split; [exact A | exact B].
  - intros f Vf Ff E.
    destruct (float_between _ f f _ R Vf Ff Vf Ff) as (_ & _ & _ & _ & A & B).
    + rewrite E. apply Qle_refl.
    + rewrite E. apply Qle_refl.
    + rewrite E. now apply Qle_antisym.
Qed.

(** C6.  The application draws positions from the uniform distribution
    on [0, 1] and directions from the uniform distribution on [-1, 1].
    A new particle takes its three position coordinates from three
    successive draws of the first, its direction x and z from draws of
    the second, and its direction y from a draw [u] of the second sent
    to [u*2+2]: for every [u] in [-1, 1] this lies in [0, 4], with -1
    sent to 0 and 1 to 4, and is [2u + 2] up to the roundings of the
    [double] sum and of its conversion to [float].  Every particle that
    the spawn loop appends is made this way. *)
Theorem create_particle_spec (state0 : state_t) (generator0 g0 : G) :
  let app := new state0 generator0 in
  let dp := distribution_position_ app in
  let dd := distribution_direction_ app in
  let g1 := snd (draw dp g0) in
  let g2 := snd (draw dp g1) in
  let g3 := snd (draw dp g2) in
  let g4 := snd (draw dd g3) in
  let g5 := snd (draw dd g4) in
  dp = mk_uniform (S754_zero false) (S754_finite false 8388608 (-23))
  /\ dd = mk_uniform (S754_finite true 8388608 (-23)) (S754_finite false 8388608 (-23))
  /\ create_particle dp dd g0
     = (Particle.mk (S754_finite false 10485760 (-20))
          (mk_point3 (fst (draw dp g0)) (fst (draw dp g1)) (fst (draw dp g2)))
          (mk_point3 (fst (draw dd g3)) (upward (fst (draw dd g4))) (fst (draw dd g5))),
        snd (draw dd g5))
  /\ (forall u : float,
        in_range dd u = true ->
        Float.leb (Float.of_Z 0) (upward u) = true
        /\ Float.leb (upward u) (Float.of_Z 4) = true
        /\ exists (w : float) (v : double),
             float_of w (F2Q u * 2) /\ double_of v (F2Q w + 2)
             /\ float_of (upward u) (F2Q v))
  /\ upward (Float.of_Z (-1)) = Float.of_Z 0
  /\ upward (Float.of_Z 1) = Float.of_Z 4
  /\ (forall k ps g,
        exists created,
          particles_ (spawn k (mk dp dd (last_time_ app) state0 ps g)) = ps ++ created
          /\ length created = k
          /\ Forall (fun p => exists g', p = fst (create_particle dp dd g')) created).
Proof.
  intros app dp dd g1 g2 g3 g4 g5.
  split; [reflexivity | split; [reflexivity | split; [| split; [| split; [| split]]]]].
  - unfold create_particle. subst g1 g2 g3 g4 g5.
    destruct (draw dp g0) as [px h1]; cbn [fst snd].
    destruct (draw dp h1) as [py h2]; cbn [fst snd].
    destruct (draw dp h2) as [pz h3]; cbn [fst snd].
    destruct (draw dd h3) as [dx h4]; cbn [fst snd].
    destruct (draw dd h4) as [u h5]; cbn [fst snd].
    destruct (draw dd h5) as [dz h6]; cbn [fst snd]. reflexivity.
  - intros u Hu. unfold in_range in Hu.
    apply andb_prop in Hu as [Hu U2]. apply andb_prop in Hu as [V U1].
    now apply upward_range.
  - reflexivity.
  - reflexivity.
  - intros k ps g.
    exact (spawn_particles k (mk dp dd (last_time_ app) state0 ps g)).
Qed.

End ApplicationFacts.

(** ** The colour of a particle *)

Lemma color_factor_valid (p : Particle.t) : Float.valid (Particle.color_factor p) = true.
Proof.
  unfold Particle.color_factor.
  change (Float.of_Z 1) with (S754_finite false 8388608 (-23)).
  destruct (Float.div _ _) as [s | s | | s m e]; try reflexivity.
  unfold Float.add, SFadd. apply (rnd_valid _ _ float_prec).
Qed.

Lemma clamp01_low (t : float) :
  Float.leb t (Float.of_Z 0) = true ->
  clamp01 t = Float.of_Z 0 \/ exists s, clamp01 t = S754_zero s.
Proof.
  destruct t as [s | [] | | [] m e]; try discriminate; intros _.
  - right. exists s. reflexivity.
  - left. reflexivity.
  - left. reflexivity.
Qed.

Lemma clamp01_high (t : float) :
  Float.leb (Float.of_Z 1) t = true -> clamp01 t = Float.of_Z 1.
Proof.
  destruct t as [s | [] | | [] m e]; try discriminate; try reflexivity.
  unfold clamp01. change (Float.ltb (S754_finite false m e) (Float.of_Z 0)) with false.
  change (Float.of_Z 1) with (S754_finite false 8388608 (-23)).
  unfold Float.leb, Float.ltb, SFleb, SFltb, SFcompare.
  destruct (Z.compare_spec (-23) e) as [<- | L | L]; try discriminate; try reflexivity.
  change (PosDef.Pos.compare_cont Eq 8388608 m) with (8388608 ?= m)%positive.
  destruct (Pos.compare_spec 8388608 m) as [<- | L | L];
    try discriminate; reflexivity.
Qed.

(** The four channels between cold and hot, for a factor in [0, 1]. *)
Lemma channels_mono (c1 c2 : float) :
  Float.valid c1 = true -> is_finite c1 = true ->
  Float.valid c2 = true -> is_finite c2 = true ->
  (0 <= F2Q c1)%Q -> (F2Q c1 <= F2Q c2)%Q -> (F2Q c2 <= 1)%Q ->
  Float.leb (lerp (r Particle.cold) (r Particle.hot) c1)
            (lerp (r Particle.cold) (r Particle.hot) c2) = true
  /\ Float.leb (lerp (g Particle.cold) (g Particle.hot) c2)
               (lerp (g Particle.cold) (g Particle.hot) c1) = true
  /\ Float.leb (lerp (b Particle.cold) (b Particle.hot) c2)
               (lerp (b Particle.cold) (b Particle.hot) c1) = true
  /\ lerp (a Particle.cold) (a Particle.hot) c1 = Float.of_Z 1.
Proof.
  intros V1 F1 V2 F2 L0 L12 L1. repeat split.
  - apply (lerp_mono (r Particle.cold) (r Particle.hot)
             eq_refl eq_refl eq_refl eq_refl eq_refl c1 c2); auto.
    apply Qle_bool_iff; reflexivity.
  - apply (lerp_mono (g Particle.cold) (g Particle.hot)
             eq_refl eq_refl eq_refl eq_refl eq_refl c1 c2); auto.
    apply Qle_bool_iff; reflexivity.
  - apply (lerp_mono (b Particle.cold) (b Particle.hot)
             eq_refl eq_refl eq_refl eq_refl eq_refl c1 c2); auto.
    apply Qle_bool_iff; reflexivity.
  - destruct c1 as [s | s | | s m e]; try discriminate; reflexivity.
Qed.

(** C9.  [get_color] depends on nothing but the vertical component of the
    direction; it is [color_grad] between the cold colour (0, 0.73, 1, 1)
    and the hot colour (0.8, 0, 0, 1) at the factor [direction.y/2 + 1].
    With [color_grad] the clamped linear interpolation of the
    specification, a factor at or below 0 gives the cold colour and a
    factor at or above 1 gives the hot colour; as the factor goes up, red
    goes up and green and blue go down while alpha stays 1, and every
    channel lies between its cold and its hot value. *)
Theorem get_color_spec :
  (forall p q : Particle.t,
      y (Particle.direction p) = y (Particle.direction q) ->
      Particle.get_color p = Particle.get_color q)
  /\ (forall p : Particle.t,
        Particle.get_color p
        = color_grad
            (mk_color4 (S754_zero false) (S754_finite false 12247368 (-24))
                       (S754_finite false 8388608 (-23)) (S754_finite false 8388608 (-23)))
            (mk_color4 (S754_finite false 13421773 (-24)) (S754_zero false)
                       (S754_zero false) (S754_finite false 8388608 (-23)))
            (Float.add (Float.div (y (Particle.direction p)) (Float.of_Z 2))
                       (Float.of_Z 1)))
  /\ (forall p : Particle.t,
        (Float.leb (Particle.color_factor p) (Float.of_Z 0) = true ->
         Particle.get_color p = Particle.cold)
        /\ (Float.leb (Float.of_Z 1) (Particle.color_factor p) = true ->
            Particle.get_color p = Particle.hot))
  /\ (forall p q : Particle.t,
        is_nan (Particle.color_factor p) = false ->
        is_nan (Particle.color_factor q) = false ->
        Float.leb (Particle.color_factor p) (Particle.color_factor q) = true ->
        Float.leb (r (Particle.get_color p)) (r (Particle.get_color q)) = true
        /\ Float.leb (g (Particle.get_color q)) (g (Particle.get_color p)) = true
        /\ Float.leb (b (Particle.get_color q)) (b (Particle.get_color p)) = true
        /\ a (Particle.get_color p) = Float.of_Z 1
        /\ a (Particle.get_color q) = Float.of_Z 1)
  /\ (forall p : Particle.t,
        is_nan (Particle.color_factor p) = false ->
        (Float.leb (r Particle.cold) (r (Particle.get_color p)) = true
         /\ Float.leb (r (Particle.get_color p)) (r Particle.hot) = true)
        /\ (Float.leb (g Particle.hot) (g (Particle.get_color p)) = true
            /\ Float.leb (g (Particle.get_color p)) (g Particle.cold) = true)
        /\ (Float.leb (b Particle.hot) (b (Particle.get_color p)) = true
            /\ Float.leb (b (Particle.get_color p)) (b Particle.cold) = true)).
Proof.
  split; [| split; [| split; [| split]]].
  - intros p q H. unfold Particle.get_color, Particle.color_factor. now rewrite H.
  - reflexivity.
  - intros p. unfold Particle.get_color, color_grad. split; intros H.
    + destruct (clamp01_low _ H) as [-> | [[] ->]]; reflexivity.
    + rewrite (clamp01_high _ H). reflexivity.
  - intros p q Np Nq L.
    pose proof (color_factor_valid p) as Vp. pose proof (color_factor_valid q) as Vq.
    destruct (clamp01_spec _ Vp Np) as (V1 & F1 & A1 & B1).
    destruct (clamp01_spec _ Vq Nq) as (V2 & F2 & A2 & B2).
    pose proof (clamp01_mono _ _ Vp Np Vq Nq L) as M.
    destruct (channels_mono _ _ V1 F1 V2 F2 A1 M B2) as (R & Gr & Bl & Al).
    destruct (channels_mono _ _ V2 F2 V2 F2 A2 (Qle_refl _) B2) as (_ & _ & _ & Al').
    unfold Particle.get_color, color_grad. cbn [r g b a]. repeat split; assumption.
  - intros p Np.
    pose proof (color_factor_valid p) as Vp.
    destruct (clamp01_spec _ Vp Np) as (V1 & F1 & A1 & B1).
    assert (Z0 : (F2Q (Float.of_Z 0) == 0)%Q) by reflexivity.
    assert (Z1 : (F2Q (Float.of_Z 1) == 1)%Q) by reflexivity.
    destruct (channels_mono (Float.of_Z 0) _ eq_refl eq_refl V1 F1)
      as (R0 & G0 & B0 & _); try lra.
    destruct (channels_mono _ (Float.of_Z 1) V1 F1 eq_refl eq_refl)
      as (R1 & G1 & B1' & _); try lra.
    unfold Particle.get_color, color_grad. cbn [r g b a].
    repeat split; assumption.
Qed.

(** ** Concrete frames *)



(** A first tick at 1.5 s: the delta is 1.5, a [float] value, and 600
    particles are to be created. *)
Lemma first_update_time_witness :
  exists app',
    Application.update_time (Double.lit 3 2) (Application.new blank_state ([] : replay))
    = Some app'
    /\ Application.time_delta (Application.state_ app') = Float.lit 3 2
    /\ (F2Q (Application.time_delta (Application.state_ app')) == F2Q (Double.lit 3 2))%Q
    /\ (1 <= F2Q (Application.time_delta (Application.state_ app')))%Q
    /\ Application.particles_to_create (Application.state_ app') = 600%N
    /\ Application.last_time_ app' = Double.lit 3 2.
Proof.
  destruct (first_update_time blank_state ([] : replay) (Double.lit 3 2) 600%N eq_refl)
    as (_ & _ & app' & H1 & H2 & _ & B & E & C & H3).
  exists app'. split; [exact H1 | split; [exact H2 | split; [| split; [| split]]]].
  - apply (E (Float.lit 3 2)); reflexivity.
  - destruct (B (Float.of_Z 1) (Float.of_Z 2)) as [L _];
      try reflexivity; try (vm_compute; discriminate).
    assert (E1 : (F2Q (Float.of_Z 1) == 1)%Q) by reflexivity.
    rewrite <- E1. exact L.
  - exact C.
  - exact H3.
Defined.

(** The scenario of the specification: a reset with 50 live particles
    leaves an empty pool. *)
Lemma update_reset_clears_witness :
  length (repeat resting_particle 50) = 50%nat
  /\ Application.particles_ 
       (Application.update
          (Application.with_particles reset_app (repeat resting_particle 50))) = [].
Proof.
  split; [reflexivity |].
  destruct (update_reset_clears reset_app (repeat resting_particle 50) eq_refl)
    as (_ & _ & H).
  apply H. reflexivity.
Defined.

(** The scenario of the specification: after 5 s a particle has life 5;
    6 s later its life is -1 and it is removed, while the fresh one
    stays with life 4. *)
Lemma update_prunes_dead_witness :
  Application.particles_ (Application.update two_particles)
  = [Particle.update (Float.of_Z 6) resting_particle]
  /\ exists q,
       Particle.update (Float.of_Z 6) resting_particle = Particle.update (Float.of_Z 6) q
       /\ Particle.dead (Particle.update (Float.of_Z 6) resting_particle) = false.
Proof.
  split; [reflexivity |].
  destruct (update_prunes_dead two_particles) as [_ H].
  apply (H (Particle.update (Float.of_Z 6) resting_particle)).
  left. reflexivity.
Defined.

(** A draw of 0.5 for the vertical direction gives 3. *)
Lemma create_particle_spec_witness :
  Application.upward (Float.lit 1 2) = Float.of_Z 3
  /\ Float.leb (Float.of_Z 0) (Application.upward (Float.lit 1 2)) = true
  /\ Float.leb (Application.upward (Float.lit 1 2)) (Float.of_Z 4) = true.
Proof.
  split; [reflexivity |].
  destruct (create_particle_spec blank_state ([] : replay) ([] : replay))
    as (_ & _ & _ & H & _).
  destruct (H (Float.lit 1 2) eq_refl) as (L & U & _).
  split; [exact L | exact U].
Defined.

(** A particle at rest is hot; a particle falling at 3 units per second
    is cold; red goes up and green and blue go down from the second to the
    first. *)
Lemma get_color_spec_witness :
  Particle.get_color resting_particle = Particle.hot
  /\ Particle.get_color falling_particle = Particle.cold
  /\ Float.leb (r (Particle.get_color falling_particle))
               (r (Particle.get_color resting_particle)) = true
  /\ Float.leb (g (Particle.get_color resting_particle))
               (g (Particle.get_color falling_particle)) = true
  /\ Float.leb (b (Particle.get_color resting_particle))
               (b (Particle.get_color falling_particle)) = true.
Proof.
  destruct get_color_spec as (_ & _ & H3 & H4 & _).
  split; [| split].
  - apply (proj2 (H3 resting_particle)). reflexivity.
  - apply (proj1 (H3 falling_particle)). reflexivity.
  - destruct (H4 falling_particle resting_particle eq_refl eq_refl eq_refl)
      as (R & Gr & Bl & _).
    split; [exact R | split; [exact Gr | exact Bl]].
Defined.

(** * Further properties *)

(** ** The constants of the viewer *)

(** [3.14159265f] is the [float] 13176795 * 2^-22: the decimal lies less
    than half a unit in the last place (2^-23) away from it. *)
Example lit_pi :
  pi_constant = S754_finite false 13176795 (-22)
  /\ ((314159265 # 100000000) - (1 # 8388608) < F2Q pi_constant)%Q
  /\ (F2Q pi_constant < (314159265 # 100000000) + (1 # 8388608))%Q.
Proof. repeat split. Qed.

Example lit_rotation : rotation_per_second = S754_finite false 13176795 (-23).
Proof. reflexivity. Qed.

(** ** Division *)

Lemma quarters (q c : Z) :
  0 <= c < 4 -> (4 * q + c) / 2 ^ 2 = q /\ (4 * q + c) mod 2 ^ 2 = c.
Proof.
  intros Hc. change (2 ^ 2) with 4.
  rewrite Z.add_comm, Z.mul_comm. rewrite Z.div_add, Z.mod_add by lia.
  rewrite Z.div_small, Z.mod_small by lia. lia.
Qed.

Lemma loc_code_range (l : location) : 0 <= loc_code l < 4.
Proof. destruct l as [| []]; cbn; lia. Qed.

Lemma shr_record_of_loc_spec (q : Z) (l : location) :
  shr_record_of_loc q l
  = Build_shr_record ((4 * q + loc_code l) / 2 ^ 2)
                     (round_bit (4 * q + loc_code l) 2)
                     (sticky_bit (4 * q + loc_code l) 2).
Proof.
  unfold round_bit, sticky_bit.
  destruct (quarters q (loc_code l) (loc_code_range l)) as [-> ->].
  destruct l as [| []]; reflexivity.
Qed.

Lemma shr_loc_spec (n : nat) (q : Z) (l : location) :
  0 <= q ->
  Nat.iter n shr_1 (shr_record_of_loc q l)
  = Build_shr_record ((4 * q + loc_code l) / 2 ^ Z.of_nat (n + 2))
                     (round_bit (4 * q + loc_code l) (Z.of_nat (n + 2)))
                     (sticky_bit (4 * q + loc_code l) (Z.of_nat (n + 2))).
Proof.
  intros Hq. pose proof (loc_code_range l) as Hc.
  rewrite shr_record_of_loc_spec.
  pose proof (shr_nat_spec 2 (4 * q + loc_code l)) as H2.
  change (Z.of_nat 2) with 2 in H2. rewrite <- H2 by lia.
  rewrite <- Nat.iter_add. apply shr_nat_spec. lia.
Qed.

Lemma Zdigits2_bound (q : Z) : 0 <= q -> q < 2 ^ Zdigits2 q.
Proof.
  destruct q as [| p | p]; intros H; try lia.
  - reflexivity.
  - apply digits2_bounds.
Qed.

Lemma Zdigits2_nonneg (q : Z) : 0 <= Zdigits2 q.
Proof. destruct q; cbn; lia. Qed.

Section Division.
Variables prec emax : Z.
Hypothesis Hprec : 0 < prec.

(** Rounding a mantissa that comes with the place of what was cut off. *)
Lemma binary_round_aux_loc (s : bool) (q e : Z) (l : location) :
  0 <= q ->
  e <= fexp prec emax (Zdigits2 q + e) ->
  binary_round_aux prec emax s q e l
  = finish prec emax s
      (rne (4 * q + loc_code l) (fexp prec emax (Zdigits2 q + e) - e + 2))
      (fexp prec emax (Zdigits2 q + e)).
Proof.
  intros Hq Hn. pose proof (loc_code_range l) as Hc.
  set (E := fexp prec emax (Zdigits2 q + e)) in *.
  set (Q := 4 * q + loc_code l).
  assert (H1 : shr_fexp prec emax q e l
               = (Build_shr_record (Q / 2 ^ (E - e + 2)) (round_bit Q (E - e + 2))
                                   (sticky_bit Q (E - e + 2)), E)).
  { unfold shr_fexp. fold E.
    destruct (E - e) as [| p | p] eqn:En; try lia.
    - cbn [shr]. rewrite shr_record_of_loc_spec. fold Q. f_equal. lia.
    - cbn [shr]. rewrite iter_pos_nat, shr_loc_spec by lia. fold Q.
      rewrite Nat2Z.inj_add, positive_nat_Z. f_equal. lia. }
  unfold binary_round_aux. rewrite H1. cbn [shr_m].
  rewrite round_nearest_even_rne.
  apply second_stage; [assumption | | apply fexp_ge_emin].
  assert (Hp : 0 < 2 ^ (E - e + 2)) by (apply Z.pow_pos_nonneg; lia).
  pose proof (rne_bounds Q (E - e + 2)) as [B1 B2].
  assert (0 <= Q / 2 ^ (E - e + 2)) by (apply Z.div_pos; lia).
  assert (Q / 2 ^ (E - e + 2) < 2 ^ prec); [| lia].
  apply Z.div_lt_upper_bound; [lia |].
  pose proof (Zdigits2_bound q Hq) as Bq. pose proof (Zdigits2_nonneg q) as Dq.
  assert (2 ^ Zdigits2 q <= 2 ^ (E - e + prec)).
  { apply Z.pow_le_mono_r; [lia |]. unfold E. rewrite fexp_spec. lia. }
  replace (E - e + 2) with (2 + (E - e)) by lia.
  rewrite Z.pow_add_r by lia. change (2 ^ 2) with 4.
  replace (4 * 2 ^ (E - e) * 2 ^ prec) with (4 * 2 ^ (E - e + prec))
    by (rewrite (Z.pow_add_r 2 (E - e)) by lia; ring).
  lia.
Qed.

(** The same, as the rounding of the mantissa in quarters. *)
Lemma binary_round_aux_rnd (s : bool) (q e : Z) (l : location) :
  0 <= q -> 0 < 4 * q + loc_code l ->
  e <= fexp prec emax (Zdigits2 q + e) ->
  fexp prec emax (Zdigits2 (4 * q + loc_code l) + (e - 2))
  = fexp prec emax (Zdigits2 q + e) ->
  binary_round_aux prec emax s q e l
  = rnd prec emax (cond_Zopp s (4 * q + loc_code l)) (e - 2).
Proof.
  intros Hq HQ Hn HE. rewrite binary_round_aux_loc by assumption.
  set (E := fexp prec emax (Zdigits2 q + e)) in *.
  destruct (4 * q + loc_code l) as [| Qp | Qp] eqn:EQ; try lia.
  assert (R : binary_round prec emax s Qp (e - 2)
              = finish prec emax s (rne (Zpos Qp) (E - e + 2)) E).
  { rewrite binary_round_finish by assumption.
    unfold round_man, round_exp. cbn [Zdigits2] in HE. rewrite HE.
    replace (Z.min (e - 2) E) with (e - 2) by lia.
    rewrite Z.sub_diag, Z.pow_0_r, Z.mul_1_r. f_equal. f_equal. lia. }
  unfold rnd. destruct s; cbn [cond_Zopp Z.opp binary_normalize]; now rewrite R.
Qed.

Lemma Zdigits2_quarters (q c : Z) :
  0 < q -> 0 <= c < 4 -> Zdigits2 (4 * q + c) = Zdigits2 q + 2.
Proof.
  intros Hq Hc. destruct q as [| p | p]; try lia.
  destruct (4 * Zpos p + c) as [| p' | p'] eqn:E; try lia.
  cbn [Zdigits2]. pose proof (digits2_bounds p) as [B1 B2].
  assert (Hd : 0 < Zpos (digits2_pos p)) by lia.
  apply Z.le_antisymm.
  - apply digits2_le. rewrite <- E.
    replace (Zpos (digits2_pos p) + 2) with (2 + Zpos (digits2_pos p)) by lia.
    rewrite Z.pow_add_r by lia. change (2 ^ 2) with 4. lia.
  - assert (Zpos (digits2_pos p) + 1 < Zpos (digits2_pos p')); [| lia].
    apply digits2_ge. rewrite <- E.
    replace (Zpos (digits2_pos p) + 1) with (2 + (Zpos (digits2_pos p) - 1)) by lia.
    rewrite Z.pow_add_r by lia. change (2 ^ 2) with 4. lia.
Qed.

Lemma new_location_code (m r : Z) :
  0 < m -> 0 <= r < m ->
  loc_code (new_location m r)
  = if r =? 0 then 0 else if 2 * r <? m then 1 else if 2 * r =? m then 2 else 3.
Proof.
  intros Hm Hr. unfold new_location.
  destruct (Z.even m) eqn:Ev; unfold new_location_even, new_location_odd.
  - destruct (Z.eqb_spec r 0) as [-> | Hr0]; [reflexivity |].
    destruct (Z.compare_spec (2 * r) m) as [C | C | C];
      destruct (Z.ltb_spec (2 * r) m); destruct (Z.eqb_spec (2 * r) m);
      try lia; reflexivity.
  - destruct (Z.eqb_spec r 0) as [-> | Hr0]; [reflexivity |].
    assert (Hodd : 2 * r <> m).
    { intros <-. rewrite Z.even_mul in Ev. discriminate. }
    destruct (Z.compare_spec (2 * r + 1) m) as [C | C | C];
      destruct (Z.ltb_spec (2 * r) m); destruct (Z.eqb_spec (2 * r) m);
      try lia; reflexivity.
Qed.

(** The quotient and the remainder that [SFdiv] rounds. *)
Lemma div_core_spec (mx my : positive) (ex ey : Z) :
  exists q r e',
    SFdiv_core_binary prec emax (Zpos mx) ex (Zpos my) ey
    = (q, e', new_location (Zpos my) r)
    /\ e' <= ex - ey
    /\ Zpos mx * 2 ^ (ex - ey - e') = Zpos my * q + r
    /\ 0 <= r < Zpos my /\ 0 <= q
    /\ e' <= fexp prec emax (Zdigits2 q + e')
    /\ (q = 0 -> e' <= emin prec emax).
Proof.
  unfold SFdiv_core_binary.
  pose proof (digits2_bounds mx) as [X1 X2]. pose proof (digits2_bounds my) as [Y1 Y2].
  change (Zdigits2 (Zpos mx)) with (Zpos (digits2_pos mx)).
  change (Zdigits2 (Zpos my)) with (Zpos (digits2_pos my)).
  remember (Zpos (digits2_pos mx)) as d1 eqn:Ed1.
  remember (Zpos (digits2_pos my)) as d2 eqn:Ed2.
  assert (Hd1 : 0 < d1) by lia. assert (Hd2 : 0 < d2) by lia.
  clear Ed1 Ed2.
  remember (Z.min (fexp prec emax (d1 + ex - (d2 + ey))) (ex - ey)) as e' eqn:Ee.
  remember (ex - ey - e') as s eqn:Es.
  rewrite fexp_spec in Ee.
  assert (Hs : 0 <= s) by lia.
  remember (match s with Zpos _ => Z.shiftl (Zpos mx) s | 0 => Zpos mx | Zneg _ => 0 end)
    as m' eqn:Em.
  assert (Hm : m' = Zpos mx * 2 ^ s).
  { rewrite Em. clear - Hs. destruct s as [| p | p]; try lia.
    apply Z.shiftl_mul_pow2. lia. }
  clear Em.
  pose proof (Z_div_mod m' (Zpos my) eq_refl) as D.
  destruct (Z.div_eucl m' (Zpos my)) as [q r]. destruct D as [D Hr].
  exists q, r, e'.
  assert (Hq : 0 <= q) by nia.
  assert (Hp : 0 < 2 ^ s) by (apply Z.pow_pos_nonneg; lia).
  (* the quotient has at least [d1 + s - d2] bits *)
  assert (Hdig : 0 < d1 + s - d2 -> 2 ^ (d1 + s - d2 - 1) <= q).
  { intros HD. remember (d1 + s - d2 - 1) as D' eqn:ED.
    assert (P1 : 0 < 2 ^ D') by (apply Z.pow_pos_nonneg; lia).
    assert (P2 : 2 ^ (d1 - 1) * 2 ^ s = 2 ^ D' * 2 ^ d2).
    { rewrite <- !Z.pow_add_r by lia. f_equal. lia. }
    apply Z.le_ngt. intros C. nia. }
  assert (Hpos : 0 < d1 + s - d2 -> 0 < q).
  { intros HD. specialize (Hdig HD).
    assert (0 < 2 ^ (d1 + s - d2 - 1)) by (apply Z.pow_pos_nonneg; lia). lia. }
  assert (Hdq : d1 + s - d2 <= Zdigits2 q).
  { pose proof (Zdigits2_nonneg q).
    destruct (Z.le_gt_cases (d1 + s - d2) 0) as [L | L]; [lia |].
    specialize (Hdig L). specialize (Hpos L). destruct q as [| p | p]; try lia.
    cbn [Zdigits2]. apply digits2_ge in Hdig. lia. }
  split; [reflexivity |]. split; [lia |].
  split; [rewrite <- Es; lia |]. split; [exact Hr |]. split; [exact Hq |].
  split.
  - rewrite fexp_spec. lia.
  - intros ->. destruct (Z.le_gt_cases (d1 + s - d2) 0) as [L | L]; [lia |].
    specialize (Hpos L). lia.
Qed.

(** The division of two finite numbers is the rounding of a mantissa in
    quarters that lies where the exact quotient lies. *)
Lemma div_finite (sx sy : bool) (mx my : positive) (ex ey : Z) :
  exists q r e',
    SFdiv prec emax (S754_finite sx mx ex) (S754_finite sy my ey)
    = rnd prec emax
          (cond_Zopp (xorb sx sy) (4 * q + loc_code (new_location (Zpos my) r)))
          (e' - 2)
    /\ e' <= ex - ey
    /\ Zpos mx * 2 ^ (ex - ey - e') = Zpos my * q + r
    /\ 0 <= r < Zpos my /\ 0 <= q
    /\ e' <= fexp prec emax (Zdigits2 q + e').
Proof.
  destruct (div_core_spec mx my ex ey) as (q & r & e' & Hc & He & Hm & Hr & Hq & Hn & H0).
  exists q, r, e'. split; [| now repeat split].
  cbn [SFdiv]. rewrite Hc.
  pose proof (new_location_code (Zpos my) r eq_refl Hr) as Hl.
  pose proof (loc_code_range (new_location (Zpos my) r)) as Hcr.
  assert (HQ : 0 < 4 * q + loc_code (new_location (Zpos my) r)).
  { destruct (Z.eq_dec q 0) as [-> | Hq0]; [| lia].
    rewrite Hl. assert (r <> 0).
    { intros ->. assert (0 < 2 ^ (ex - ey - e')) by (apply Z.pow_pos_nonneg; lia). nia. }
    destruct (Z.eqb_spec r 0); [lia |].
    destruct (2 * r <? Zpos my); [lia |]. destruct (2 * r =? Zpos my); lia. }
  apply binary_round_aux_rnd; try assumption.
  destruct (Z.eq_dec q 0) as [-> | Hq0].
  - specialize (H0 eq_refl).
    set (c := loc_code (new_location (Zpos my) r)) in *.
    assert (Hdc : 0 <= Zdigits2 (4 * 0 + c) <= 2).
    { split; [apply Zdigits2_nonneg |].
      destruct (4 * 0 + c) as [| p | p] eqn:E; try lia. cbn [Zdigits2].
      apply digits2_le. lia. }
    cbn [Zdigits2] in *. rewrite !fexp_spec. lia.
  - rewrite Zdigits2_quarters by lia. f_equal. lia.
Qed.

End Division.

Lemma dyadic_lt_same (M M' c : Z) : (dyadic M c < dyadic M' c)%Q <-> M < M'.
Proof.
  split; intros H.
  - apply Z.lt_nge. intros C. apply (dyadic_le_same M' M c) in C.
    exact (Qlt_not_le _ _ H C).
  - apply Qnot_le_lt. intros C. apply dyadic_le_same in C. lia.
Qed.

Lemma dyadic_positive (m : positive) (e : Z) : (0 < dyadic (Zpos m) e)%Q.
Proof.
  rewrite <- (dyadic_0 e). apply dyadic_lt_same. lia.
Qed.

Lemma F2Q_signed (s : bool) (m : positive) (e : Z) :
  (F2Q (S754_finite s m e) == if s then - dyadic (Zpos m) e else dyadic (Zpos m) e)%Q.
Proof.
  rewrite F2Q_dyadic. cbn [mantissa exponent]. destruct s; cbn [cond_Zopp].
  - change (Zneg m) with (- Zpos m). apply dyadic_opp.
  - reflexivity.
Qed.

Section Quotient.
Variables prec emax : Z.
Hypothesis Hprec : 0 < prec.

(** No number of the format lies strictly between two consecutive
    mantissas of a quotient. *)
Lemma cell (q e' : Z) (L : positive) (l : Z) :
  0 <= q -> e' <= fexp prec emax (Zdigits2 q + e') ->
  bounded prec emax L l = true ->
  (dyadic (Zpos L) l <= dyadic q e')%Q \/ (dyadic (q + 1) e' <= dyadic (Zpos L) l)%Q.
Proof.
  intros Hq Hn Hb. destruct (canonical_bounds _ _ L l Hb) as (B1 & B2 & _).
  destruct (Z.le_gt_cases e' l) as [C | C].
  - assert (P : 0 < 2 ^ (l - e')) by (apply Z.pow_pos_nonneg; lia).
    destruct (Z.le_gt_cases (Zpos L * 2 ^ (l - e')) q) as [D | D].
    + left. apply (dyadic_le_iff _ _ _ _ e'); try lia.
      rewrite Z.sub_diag, Z.pow_0_r. lia.
    + right. apply (dyadic_le_iff _ _ _ _ e'); try lia.
      rewrite Z.sub_diag, Z.pow_0_r. lia.
  - left. apply (dyadic_le_iff _ _ _ _ l); try lia.
    rewrite Z.sub_diag, Z.pow_0_r, Z.mul_1_r.
    rewrite fexp_spec in Hn.
    assert (Hd : prec <= Zdigits2 q) by lia.
    destruct q as [| p | p]; cbn [Zdigits2] in Hd; try lia.
    pose proof (digits2_bounds p) as [D1 _].
    assert (2 ^ (prec - 1) <= 2 ^ (Zpos (digits2_pos p) - 1))
      by (apply Z.pow_le_mono_r; lia).
    assert (2 ^ 1 <= 2 ^ (e' - l)) by (apply Z.pow_le_mono_r; lia).
    assert (2 ^ prec = 2 * 2 ^ (prec - 1)) by (apply pow_prec_double; assumption).
    change (2 ^ 1) with 2 in *. nia.
Qed.

(** The exact quotient of two mantissas and the mantissa in quarters
    that [SFdiv] rounds lie between the same consecutive mantissas, and
    are the lower one together. *)
Lemma quotient_place (mx my : positive) (ex ey q r e' : Z) :
  e' <= ex - ey ->
  Zpos mx * 2 ^ (ex - ey - e') = Zpos my * q + r ->
  0 <= r < Zpos my ->
  let a := (dyadic (Zpos mx) ex / dyadic (Zpos my) ey)%Q in
  let sigma := dyadic (4 * q + loc_code (new_location (Zpos my) r)) (e' - 2) in
  (dyadic q e' <= a)%Q /\ (a < dyadic (q + 1) e')%Q
  /\ (dyadic q e' <= sigma)%Q /\ (sigma < dyadic (q + 1) e')%Q
  /\ ((a <= dyadic q e')%Q -> (sigma <= dyadic q e')%Q)
  /\ ((sigma <= dyadic q e')%Q -> (a <= dyadic q e')%Q).
Proof.
  intros He Hm Hr a sigma.
  pose proof (dyadic_positive my ey) as Ypos.
  assert (EX : (dyadic (Zpos mx) ex == dyadic (Zpos my * q + r) (e' + ey))%Q).
  { rewrite (dyadic_shift _ ex (e' + ey)) by lia.
    replace (ex - (e' + ey)) with (ex - ey - e') by lia. now rewrite Hm. }
  assert (Eq : forall k, (dyadic k e' * dyadic (Zpos my) ey
                          == dyadic (Zpos my * k) (e' + ey))%Q).
  { intros k. rewrite <- dyadic_mul. now rewrite Z.mul_comm. }
  assert (A1 : (dyadic q e' <= a)%Q).
  { apply Qle_shift_div_l; [exact Ypos |]. rewrite Eq, EX. apply dyadic_le_same. lia. }
  assert (A2 : (a < dyadic (q + 1) e')%Q).
  { apply Qlt_shift_div_r; [exact Ypos |]. rewrite Eq, EX. apply dyadic_lt_same. lia. }
  assert (A3 : (a <= dyadic q e')%Q -> r = 0).
  { intros H. apply (Qmult_le_compat_r _ _ (dyadic (Zpos my) ey)) in H;
      [| now apply Qlt_le_weak].
    unfold a in H. rewrite Eq in H.
    assert (E : (dyadic (Zpos mx) ex / dyadic (Zpos my) ey * dyadic (Zpos my) ey
                 == dyadic (Zpos mx) ex)%Q).
    { field. intros C. rewrite C in Ypos. discriminate. }
    rewrite E, EX in H. apply dyadic_le_same in H. lia. }
  assert (A4 : r = 0 -> (a <= dyadic q e')%Q).
  { intros ->. apply Qle_shift_div_r; [exact Ypos |]. rewrite Eq, EX.
    apply dyadic_le_same. lia. }
  pose proof (new_location_code (Zpos my) r eq_refl Hr) as Hc.
  pose proof (loc_code_range (new_location (Zpos my) r)) as Hcr.
  set (c := loc_code (new_location (Zpos my) r)) in *.
  assert (S0 : forall k, (dyadic k e' == dyadic (4 * k) (e' - 2))%Q).
  { intros k. rewrite (dyadic_shift k e' (e' - 2)) by lia.
    replace (e' - (e' - 2)) with 2 by lia. change (2 ^ 2) with 4.
    now rewrite Z.mul_comm. }
  assert (C0 : c = 0 <-> r = 0).
  { rewrite Hc. destruct (Z.eqb_spec r 0); [tauto |].
    destruct (2 * r <? Zpos my); [lia |]. destruct (2 * r =? Zpos my); lia. }
  split; [exact A1 | split; [exact A2 |]].
  unfold sigma. rewrite !S0. split; [| split; [| split]].
  - apply dyadic_le_same. lia.
  - apply dyadic_lt_same. lia.
  - intros H. rewrite <- S0 in H. apply A3 in H. apply dyadic_le_same. lia.
  - intros H. apply dyadic_le_same in H. rewrite <- S0. apply A4. lia.
Qed.
End Quotient.

Lemma place_transfer (w lower upper a sigma : Q) :
  (w <= lower \/ upper <= w)%Q ->
  (lower <= a)%Q -> (a < upper)%Q -> (lower <= sigma)%Q -> (sigma < upper)%Q ->
  ((a <= lower)%Q -> (sigma <= lower)%Q) ->
  ((sigma <= lower)%Q -> (a <= lower)%Q) ->
  ((w <= a)%Q -> (w <= sigma)%Q) /\ ((a <= w)%Q -> (sigma <= w)%Q).
Proof.
  intros Hw A1 A2 S1 S2 I1 I2.
  destruct (Qlt_le_dec lower a) as [C | C].
  - assert (lower < sigma)%Q.
    { apply Qnot_le_lt. intros D. apply I2 in D. lra. }
    destruct Hw; split; intros; lra.
  - apply I1 in C as D. destruct Hw; split; intros; lra.
Qed.

Section QuotientBounds.
Variables prec emax : Z.
Hypothesis Hprec : 0 < prec.

(** The quotient of two finite numbers is the rounding of a number that
    no number of the format separates from the exact quotient. *)
Lemma div_rounds (x y : spec_float) :
  is_finite x = true -> is_finite y = true -> ~ (F2Q y == 0)%Q ->
  exists sigma : Q,
    rounds_to prec emax (SFdiv prec emax x y) sigma
    /\ forall w : spec_float,
         valid_binary prec emax w = true -> is_finite w = true ->
         ((F2Q w <= F2Q x / F2Q y)%Q -> (F2Q w <= sigma)%Q)
         /\ ((F2Q x / F2Q y <= F2Q w)%Q -> (sigma <= F2Q w)%Q).
Proof.
  intros Fx Fy Hy.
  destruct y as [sy | sy | | sy my ey]; try discriminate.
  { exfalso. apply Hy. reflexivity. }
  destruct x as [sx | sx | | sx mx ex]; try discriminate.
  - exists 0%Q. split.
    + exists 0, 0. split; [exact I | unfold dyadic; ring].
    + intros w _ _.
      assert (E : (F2Q (S754_zero sx) / F2Q (S754_finite sy my ey) == 0)%Q).
      { change (F2Q (S754_zero sx)) with 0%Q. unfold Qdiv. ring. }
      rewrite E. tauto.
  - destruct (div_finite prec emax Hprec sx sy mx my ex ey)
      as (q & r & e' & Hd & He & Hm & Hr & Hq & Hn).
    set (Qn := 4 * q + loc_code (new_location (Zpos my) r)) in *.
    destruct (quotient_place mx my ex ey q r e' He Hm Hr)
      as (A1 & A2 & S1 & S2 & I1 & I2).
    fold Qn in S1, S2, I1, I2.
    set (a := (dyadic (Zpos mx) ex / dyadic (Zpos my) ey)%Q) in *.
    set (sigma := dyadic Qn (e' - 2)) in *.
    pose proof (dyadic_positive mx ex) as Xpos.
    pose proof (dyadic_positive my ey) as Ypos.
    assert (Apos : (0 < a)%Q).
    { unfold a. apply Qlt_shift_div_l; [exact Ypos |]. lra. }
    assert (Lpos : (0 <= dyadic q e')%Q) by (apply dyadic_sign; lia).
    assert (Spos : (0 < sigma)%Q).
    { apply Qnot_le_lt. intros C.
      assert (D : (sigma <= dyadic q e')%Q) by lra. apply I2 in D. lra. }
    assert (EA : (F2Q (S754_finite sx mx ex) / F2Q (S754_finite sy my ey)
                  == if xorb sx sy then - a else a)%Q).
    { rewrite !F2Q_signed. unfold a.
      assert (NZ : ~ (dyadic (Zpos my) ey == 0)%Q) by (intros C; rewrite C in Ypos; discriminate).
      destruct sx, sy; cbn [xorb]; field; exact NZ. }
    exists (if xorb sx sy then - sigma else sigma)%Q. split.
    + rewrite Hd. exists (cond_Zopp (xorb sx sy) Qn), (e' - 2). split.
      * apply same_number_refl.
      * unfold sigma. destruct (xorb sx sy); cbn [cond_Zopp]; [apply dyadic_opp | reflexivity].
    + intros w Vw Fw. rewrite EA.
      destruct w as [sw | sw | | sw L l]; try discriminate.
      * change (F2Q (S754_zero sw)) with 0%Q.
        destruct (xorb sx sy); split; intros; lra.
      * pose proof (cell prec emax Hprec q e' L l Hq Hn Vw) as Hc.
        destruct (place_transfer _ _ _ _ _ Hc A1 A2 S1 S2 I1 I2) as [T1 T2].
        pose proof (dyadic_positive L l) as Wpos.
        rewrite F2Q_signed.
        destruct (xorb sx sy), sw; split; intros H; lra.
Qed.

(** A quotient whose exact value lies between two numbers of the format
    lies between them, and is finite. *)
Lemma div_between (x y lo hi : spec_float) :
  is_finite x = true -> is_finite y = true -> ~ (F2Q y == 0)%Q ->
  valid_binary prec emax lo = true -> is_finite lo = true ->
  valid_binary prec emax hi = true -> is_finite hi = true ->
  (F2Q lo <= F2Q x / F2Q y)%Q -> (F2Q x / F2Q y <= F2Q hi)%Q ->
  valid_binary prec emax (SFdiv prec emax x y) = true
  /\ is_finite (SFdiv prec emax x y) = true
  /\ SFleb lo (SFdiv prec emax x y) = true /\ SFleb (SFdiv prec emax x y) hi = true
  /\ (F2Q lo <= F2Q (SFdiv prec emax x y))%Q /\ (F2Q (SFdiv prec emax x y) <= F2Q hi)%Q.
Proof.
  intros Fx Fy Hy Vlo Flo Vhi Fhi Hlo Hhi.
  destruct (div_rounds x y Fx Fy Hy) as (sigma & R & T).
  apply (rounds_to_between prec emax Hprec _ lo hi sigma R); try assumption.
  - now apply (T lo Vlo Flo).
  - now apply (T hi Vhi Fhi).
Qed.
End QuotientBounds.

(** ** Integers that the formats hold *)

Section Integers.
Variables prec emax : Z.
Hypothesis Hprec : 0 < prec.
Hypothesis Hemax : prec < emax.

Lemma integer_representable (k : Z) :
  0 <= k <= 2 ^ prec ->
  exists u : spec_float,
    valid_binary prec emax u = true /\ is_finite u = true /\ (F2Q u == inject_Z k)%Q.
Proof.
  intros [H0 H1]. destruct k as [| p | p]; try lia.
  - exists (S754_zero false). repeat split.
  - destruct (Z.eq_dec (Zpos p) (2 ^ prec)) as [E | NE].
    + assert (Hpos : 0 < 2 ^ (prec - 1)) by (apply Z.pow_pos_nonneg; lia).
      exists (S754_finite false (Z.to_pos (2 ^ (prec - 1))) 1). split; [| split].
      * cbn [valid_binary]. unfold bounded, canonical_mantissa.
        assert (Hd : Zpos (digits2_pos (Z.to_pos (2 ^ (prec - 1)))) = prec).
        { pose proof (digits2_bounds (Z.to_pos (2 ^ (prec - 1)))) as [B1 B2].
          rewrite Z2Pos.id in B1, B2 by lia.
          apply Z.pow_le_mono_r_iff in B1; try lia.
          apply Z.pow_lt_mono_r_iff in B2; lia. }
        rewrite Hd. apply andb_true_intro. split.
        -- apply Z.eqb_eq. unfold fexp, emin. lia.
        -- apply Z.leb_le. lia.
      * reflexivity.
      * rewrite F2Q_dyadic. cbn [mantissa exponent cond_Zopp].
        rewrite Z2Pos.id by lia. rewrite (dyadic_shift _ 1 0) by lia.
        rewrite E. unfold dyadic. cbn [Qpower]. 
        replace (2 ^ (prec - 1) * 2 ^ (1 - 0)) with (2 ^ prec).
        -- ring.
        -- replace prec with (Z.succ (prec - 1)) at 1 by lia.
           rewrite Z.pow_succ_r by lia. change (2 ^ (1 - 0)) with 2. lia.
    + assert (Hd : Zpos (digits2_pos p) <= prec) by (apply digits2_le; lia).
      pose (n := Z.to_nat (prec - Zpos (digits2_pos p))).
      exists (S754_finite false (shl p n) (- Z.of_nat n)). split; [| split].
      * cbn [valid_binary]. unfold bounded, canonical_mantissa.
        rewrite digits2_shl. unfold n. rewrite Z2Nat.id by lia.
        apply andb_true_intro. split.
        -- apply Z.eqb_eq. unfold fexp, emin. lia.
        -- apply Z.leb_le. lia.
      * reflexivity.
      * rewrite F2Q_dyadic. cbn [mantissa exponent cond_Zopp].
        rewrite shl_pow.
        replace (2 ^ Z.of_nat n) with (2 ^ (0 - - Z.of_nat n)) by (f_equal; lia).
        rewrite <- (dyadic_shift (Zpos p) 0 (- Z.of_nat n)) by lia.
        unfold dyadic. cbn [Qpower]. ring.
Qed.
End Integers.

Lemma float_integer (k : Z) :
  0 <= k <= 2 ^ 24 ->
  exists u : float, Float.valid u = true /\ is_finite u = true /\ (F2Q u == inject_Z k)%Q.
Proof. apply integer_representable; reflexivity. Qed.

Lemma same_number_F2Q (u v : spec_float) :
  same_number u v -> (F2Q u == F2Q v)%Q /\ is_finite u = is_finite v.
Proof.
  destruct u, v; cbn [same_number]; intros H; try discriminate H;
    try (injection H as -> || idtac); subst; try (split; reflexivity).
  all: try (injection H as -> -> ->; split; reflexivity).
Qed.

Section SignedIntegers.
Variables prec emax : Z.
Hypothesis Hprec : 0 < prec.
Hypothesis Hemax : prec < emax.

(** The conversion of an integer of at most [prec] bits is exact. *)
Lemma integer_exact (k : Z) :
  - 2 ^ prec <= k <= 2 ^ prec ->
  valid_binary prec emax (rnd prec emax k 0) = true
  /\ is_finite (rnd prec emax k 0) = true
  /\ (F2Q (rnd prec emax k 0) == inject_Z k)%Q.
Proof.
  intros Hk.
  assert (R : rounds_to prec emax (rnd prec emax k 0) (inject_Z k)).
  { exists k, 0. split; [apply same_number_refl | unfold dyadic; cbn [Qpower]; ring]. }
  assert (Hu : exists u, valid_binary prec emax u = true /\ is_finite u = true
                         /\ (F2Q u == inject_Z k)%Q).
  { destruct (Z.le_gt_cases 0 k) as [P | N].
    - apply integer_representable; try assumption. lia.
    - destruct (integer_representable prec emax Hprec Hemax (- k)) as (u & Vu & Fu & Eu); [lia |].
      destruct u as [s | s | | s m e]; try discriminate.
      + exfalso. change (F2Q (S754_zero s)) with 0%Q in Eu.
        assert (H : (inject_Z 0 < inject_Z (- k))%Q) by (rewrite <- Zlt_Qlt; lia).
        change (inject_Z 0) with 0%Q in H. lra.
      + exists (S754_finite (negb s) m e). split; [exact Vu | split; [reflexivity |]].
        rewrite inject_Z_opp in Eu.
        rewrite F2Q_signed in *. destruct s; cbn [negb]; lra. }
  destruct Hu as (u & Vu & Fu & Eu).
  pose proof (rounds_to_same prec emax Hprec _ _ _ _ R
                (rounds_to_self prec emax Hprec u Vu Fu)) as S.
  destruct (same_number_F2Q _ _ (S ltac:(now rewrite Eu))) as [E F].
  split; [apply rnd_valid; assumption | split; [now rewrite F | now rewrite E]].
Qed.
End SignedIntegers.

Lemma double_of_Z_exact (k : Z) :
  - 2 ^ 53 <= k <= 2 ^ 53 ->
  Double.valid (Double.of_Z k) = true /\ is_finite (Double.of_Z k) = true
  /\ (F2Q (Double.of_Z k) == inject_Z k)%Q.
Proof. apply integer_exact; reflexivity. Qed.

(** ** The grid of a format *)

Section Grid.
Variables prec emax : Z.
Hypothesis Hprec : 0 < prec.

(** Every number of the format is a multiple of the smallest one. *)
Lemma F2Q_grid (u : spec_float) :
  valid_binary prec emax u = true ->
  exists K : Z, (F2Q u == dyadic K (emin prec emax))%Q.
Proof.
  destruct u as [s | s | | s m e]; intros Hv.
  1-3: exists 0; unfold dyadic; cbn [F2Q]; ring.
  destruct (canonical_bounds _ _ m e Hv) as (He & _).
  exists (cond_Zopp s (Zpos m) * 2 ^ (e - emin prec emax)).
  rewrite F2Q_dyadic. cbn [mantissa exponent]. now apply dyadic_shift.
Qed.

End Grid.

(** The difference of two numbers of a format is 0 or at least the
    smallest positive number: a difference that is positive rounds to a
    positive number. *)
Lemma float_sub_positive (u v : float) :
  Float.valid u = true -> is_finite u = true ->
  Float.valid v = true -> is_finite v = true ->
  (F2Q v < F2Q u)%Q -> Float.leb (Float.sub u v) (Float.of_Z 0) = false.
Proof.
  intros Vu Fu Vv Fv H.
  destruct (F2Q_grid Float.prec Float.emax u Vu) as [K HK].
  destruct (F2Q_grid Float.prec Float.emax v Vv) as [K' HK'].
  set (w := S754_finite false 1 (emin Float.prec Float.emax)).
  assert (Ew : (F2Q w == dyadic 1 (emin Float.prec Float.emax))%Q) by reflexivity.
  assert (HKK : K' < K).
  { rewrite HK, HK' in H. apply Z.lt_nge. intros C.
    apply (dyadic_le_same K K' (emin Float.prec Float.emax)) in C.
    apply (Qlt_not_le _ _ H C). }
  assert (L : (F2Q w <= F2Q u - F2Q v)%Q).
  { rewrite Ew, HK, HK'.
    assert (E : (dyadic K (emin Float.prec Float.emax) - dyadic K' (emin Float.prec Float.emax)
                 == dyadic (K - K') (emin Float.prec Float.emax))%Q).
    { unfold dyadic. rewrite <- Z.add_opp_r, inject_Z_plus, inject_Z_opp. ring. }
    rewrite E. apply dyadic_le_same. lia. }
  pose proof (rounds_to_le _ _ float_prec _ _ _ _
                (float_self w eq_refl eq_refl) (float_sub u v Vu Fu Vv Fv) L) as Lw.
  destruct (Float.sub u v) as [s | [] | | [] m e]; try discriminate; reflexivity.
Qed.

(** ** The cast to [size_t], on every number *)

Lemma F2Q_finite_abs (s : bool) (m : positive) (e : Z) :
  (F2Q (S754_finite s m e) == (if s then - F2Q (S754_finite false m e) else F2Q (S754_finite false m e)))%Q.
Proof.
  destruct s; cbn [F2Q cond_Zopp]; [| reflexivity].
  change (Zneg m) with (- Zpos m). rewrite inject_Z_opp. ring.
Qed.

Lemma F2Q_positive (m : positive) (e : Z) : (0 < F2Q (S754_finite false m e))%Q.
Proof.
  cbn [F2Q cond_Zopp].
  setoid_replace 0%Q with (0 * Qpower 2 e)%Q by ring.
  apply Qmult_lt_compat_r; [apply Qpower_2_pos | reflexivity].
Qed.

Lemma Qfloor_zero_iff (q : Q) : (0 <= q)%Q -> Qfloor q <= 0 <-> (q < 1)%Q.
Proof.
  intros H0. split; intros H.
  - pose proof (Qlt_floor q) as L.
    eapply Qlt_le_trans; [exact L |].
    change 1%Q with (inject_Z 1). rewrite <- Zle_Qle. lia.
  - assert (Qfloor q < 1); [| lia].
    rewrite Zlt_Qlt. eapply Qle_lt_trans; [apply Qfloor_le | exact H].
Qed.

(** When the cast is defined, and what it gives: truncation toward zero,
    so every number above -1 and below 2^64 has a result, 0 for the
    negative ones. *)
Lemma float_to_size_t_spec (u : float) (n : size_t) :
  float_to_size_t u = Some n <->
  is_finite u = true /\ (-1 < F2Q u)%Q /\ (F2Q u < inject_Z (2 ^ 64))%Q
  /\ Z.of_N n = Z.max 0 (Qfloor (F2Q u)).
Proof.
  unfold size_t in n.
  destruct u as [s | s | | s m e].
  - change (float_to_size_t (S754_zero s)) with (Some 0%N).
    change (F2Q (S754_zero s)) with 0%Q. change (Qfloor 0) with 0.
    split.
    + intros [= <-]. repeat split.
    + intros (_ & _ & _ & H). assert (n = 0%N) as -> by lia. reflexivity.
  - split; [discriminate | now intros [? _]].
  - split; [discriminate | now intros [? _]].
  - unfold float_to_size_t. cbn [truncate is_finite]. rewrite <- Qfloor_shift.
    pose proof (F2Q_positive m e) as Hp.
    pose proof (F2Q_finite_abs s m e) as Hs.
    set (a := F2Q (S754_finite false m e)) in *.
    change (inject_Z (Zpos m) * Qpower 2 e)%Q with a.
    assert (Ha : 0 <= Qfloor a).
    { rewrite <- (Qfloor_Z 0). apply Qfloor_resp_le. now apply Qlt_le_weak. }
    pose proof (Qfloor_zero_iff a (Qlt_le_weak _ _ Hp)) as Hz.
    pose proof (Qfloor_le a) as Fl. pose proof (Qlt_floor a) as Fu.
    assert (Hs' : (F2Q (S754_finite false m e) == a)%Q) by reflexivity.
    clearbody a.
    destruct s; cbn [cond_Zopp] in *.
    + (* negative *)
      assert (Hfl : (-1 < - a)%Q -> Qfloor (- a) = -1).
      { intros H. assert (A1 : (a < 1)%Q) by lra.
        assert (B1 : (inject_Z (Qfloor (- a)) <= - a)%Q) by apply Qfloor_le.
        assert (B2 : (- a < inject_Z (Qfloor (- a) + 1))%Q) by apply Qlt_floor.
        assert (C1 : Qfloor (- a) < 0).
        { rewrite Zlt_Qlt. eapply Qle_lt_trans; [exact B1 |]. change (inject_Z 0) with 0%Q. lra. }
        assert (C2 : -1 < Qfloor (- a) + 1).
        { rewrite Zlt_Qlt. eapply Qlt_trans; [| exact B2]. change (inject_Z (-1)) with (-1)%Q. exact H. }
        lia. }
      destruct (Z.leb_spec 0 (- Qfloor a)) as [L | L]; cbn [andb].
      * assert (E0 : Qfloor a = 0) by lia. rewrite E0.
        change (if - 0 <=? size_t_max then Some (Z.to_N (- 0)) else None) with (Some 0%N).
        assert (A1 : (a < 1)%Q) by (apply Hz; lia).
        split.
        -- intros [= <-]. split; [reflexivity |]. rewrite Hs.
           split; [lra | split].
           ++ apply Qlt_trans with 0%Q; [lra | reflexivity].
           ++ rewrite Hfl by lra. reflexivity.
        -- intros (_ & _ & _ & H).
           rewrite (Qfloor_comp _ (- a)) in H by exact Hs. rewrite Hfl in H by lra.
           assert (n = 0%N) as -> by lia. reflexivity.
      * split; [discriminate |]. intros (_ & H & _). exfalso.
        rewrite Hs in H. assert (A1 : (a < 1)%Q) by lra. apply Hz in A1. lia.
    + (* positive *)
      replace (0 <=? Qfloor a) with true by (symmetry; now apply Z.leb_le).
      cbn [andb]. unfold size_t_max.
      destruct (Z.leb_spec (Qfloor a) (2 ^ 64 - 1)) as [L | L].
      * split.
        -- intros [= <-]. split; [reflexivity |]. rewrite Hs.
           split; [lra | split].
           ++ eapply Qlt_le_trans; [exact Fu |]. rewrite <- Zle_Qle. lia.
           ++ rewrite Z2N.id by lia. lia.
        -- intros (_ & _ & _ & H).
           rewrite (Qfloor_comp _ a) in H by exact Hs.
           assert (n = Z.to_N (Qfloor a)) as -> by lia. reflexivity.
      * split; [discriminate |]. intros (_ & _ & H & _). exfalso.
        rewrite Hs in H.
        assert (Qfloor a < 2 ^ 64); [| lia].
        rewrite Zlt_Qlt. eapply Qle_lt_trans; [exact Fl | exact H].
Qed.

(** ** The flight of a particle *)

Lemma F2Q_0 : (F2Q (Float.of_Z 0) == 0)%Q.
Proof. reflexivity. Qed.

Lemma F2Q_1 : (F2Q (Float.of_Z 1) == 1)%Q.
Proof. reflexivity. Qed.

Lemma F2Q_5 : (F2Q (Float.of_Z 5) == 5)%Q.
Proof. reflexivity. Qed.

Lemma F2Q_m1 : (F2Q (Float.of_Z (-1)) == -1)%Q.
Proof. reflexivity. Qed.

Lemma F2Q_10 : (F2Q Particle.default_life == 10)%Q.
Proof. reflexivity. Qed.

(** A number between 0 and 5, by the comparisons of the program. *)
Lemma delta_range (dt : float) :
  Float.valid dt = true ->
  Float.leb (Float.of_Z 0) dt = true -> Float.leb dt (Float.of_Z 5) = true ->
  is_finite dt = true /\ (0 <= F2Q dt)%Q /\ (F2Q dt <= 5)%Q.
Proof.
  intros V L0 L5.
  assert (F : is_finite dt = true)
    by (apply (leb_finite (Float.of_Z 0) dt (Float.of_Z 5)); auto).
  split; [exact F | split].
  - rewrite <- F2Q_0. now apply float_leb_F2Q.
  - rewrite <- F2Q_5. now apply float_leb_F2Q.
Qed.

(** The factor of the drag, [1.0f - time_delta * slowdown_per_second],
    for a time_delta between 0 and 5: a number between 0 and 1. *)
Lemma drag_factor (dt : float) :
  Float.valid dt = true -> is_finite dt = true ->
  (0 <= F2Q dt)%Q -> (F2Q dt <= 5)%Q ->
  let f := Float.sub (Float.of_Z 1) (Float.mul dt Particle.slowdown_per_second) in
  Float.valid f = true /\ is_finite f = true /\ (0 <= F2Q f)%Q /\ (F2Q f <= 1)%Q.
Proof.
  intros V F H0 H5 f.
  pose proof (float_mul dt Particle.slowdown_per_second V F eq_refl eq_refl) as M.
  assert (S0 : (0 <= F2Q Particle.slowdown_per_second)%Q)
    by (apply Qle_bool_iff; reflexivity).
  set (m := Float.mul dt Particle.slowdown_per_second) in *.
  pose proof (rounds_to_valid _ _ float_prec _ _ M) as Vm.
  assert (L0 : Float.leb (Float.of_Z 0) m = true).
  { apply (rounds_to_le _ _ float_prec _ _ _ _
             (float_self (Float.of_Z 0) eq_refl eq_refl) M).
    rewrite F2Q_0. apply Qmult_le_0_compat; assumption. }
  assert (L1 : Float.leb m (Float.of_Z 1) = true).
  { change (Float.of_Z 1) with (Float.mul (Float.of_Z 5) Particle.slowdown_per_second).
    apply (rounds_to_le _ _ float_prec _ _ _ _ M
             (float_mul (Float.of_Z 5) Particle.slowdown_per_second
                        eq_refl eq_refl eq_refl eq_refl)).
    rewrite F2Q_5. apply Qmult_le_compat_r; assumption. }
  assert (Fm : is_finite m = true)
    by (apply (leb_finite (Float.of_Z 0) m (Float.of_Z 1)); auto).
  pose proof (float_leb_F2Q (Float.of_Z 0) m eq_refl eq_refl Vm Fm L0) as A.
  pose proof (float_leb_F2Q m (Float.of_Z 1) Vm Fm eq_refl eq_refl L1) as B.
  rewrite F2Q_0 in A. rewrite F2Q_1 in B.
  destruct (float_between f (Float.of_Z 0) (Float.of_Z 1) _
              (float_sub (Float.of_Z 1) m eq_refl eq_refl Vm Fm))
    as (Vf & Ff & _ & _ & A' & B'); try reflexivity;
    try (rewrite ?F2Q_0, ?F2Q_1; lra).
  rewrite F2Q_0 in A'. rewrite F2Q_1 in B'. now repeat split.
Qed.

(** Scaling by a factor between 0 and 1 brings a number toward 0. *)
Lemma scale_shrinks (f u : float) :
  Float.valid f = true -> is_finite f = true ->
  (0 <= F2Q f)%Q -> (F2Q f <= 1)%Q ->
  Float.valid u = true -> is_finite u = true ->
  Float.valid (Float.mul f u) = true /\ is_finite (Float.mul f u) = true
  /\ ((0 <= F2Q u)%Q -> (0 <= F2Q (Float.mul f u))%Q /\ (F2Q (Float.mul f u) <= F2Q u)%Q)
  /\ ((F2Q u <= 0)%Q -> (F2Q u <= F2Q (Float.mul f u))%Q /\ (F2Q (Float.mul f u) <= 0)%Q).
Proof.
  intros Vf Ff H0 H1 Vu Fu.
  pose proof (float_mul f u Vf Ff Vu Fu) as M.
  destruct (Qlt_le_dec (F2Q u) 0) as [N | P].
  - destruct (float_between _ u (Float.of_Z 0) _ M) as (V & F & _ & _ & A & B);
      try assumption; try reflexivity; try (rewrite ?F2Q_0; nra).
    rewrite F2Q_0 in B. repeat split; try assumption; lra.
  - destruct (float_between _ (Float.of_Z 0) u _ M) as (V & F & _ & _ & A & B);
      try assumption; try reflexivity; try (rewrite ?F2Q_0; nra).
    rewrite F2Q_0 in A. repeat split; try assumption; lra.
Qed.

(** Dead after [update]: exactly when life was at most time_delta. *)
Lemma update_dead_iff (dt : float) (p : Particle.t) :
  Float.valid (Particle.life p) = true -> is_finite (Particle.life p) = true ->
  Float.valid dt = true -> is_finite dt = true ->
  Particle.dead (Particle.update dt p) = true
  <-> (F2Q (Particle.life p) <= F2Q dt)%Q.
Proof.
  intros V F Vd Fd. unfold Particle.dead. cbn [Particle.update Particle.life].
  split; intros H.
  - destruct (Qlt_le_dec (F2Q dt) (F2Q (Particle.life p))) as [C | C]; [| exact C].
    rewrite (float_sub_positive _ _ V F Vd Fd C) in H. discriminate.
  - apply (rounds_to_le _ _ float_prec _ _ _ _
             (float_sub _ _ V F Vd Fd) (float_self (Float.of_Z 0) eq_refl eq_refl)).
    rewrite F2Q_0. lra.
Qed.

Lemma mul_zero_r (u : float) (s : bool) :
  is_finite u = true -> exists s', Float.mul u (S754_zero s) = S754_zero s'.
Proof. destruct u; try discriminate; intros _; cbn; eauto. Qed.

(** One horizontal component of the direction after [update]. *)
Lemma update_horizontal (dt u : float) :
  Float.valid dt = true -> is_finite dt = true ->
  (0 <= F2Q dt)%Q -> (F2Q dt <= 5)%Q ->
  Float.valid u = true -> is_finite u = true ->
  let u' := Float.add
              (Float.mul (Float.sub (Float.of_Z 1)
                                    (Float.mul dt Particle.slowdown_per_second)) u)
              (Float.mul dt (Float.of_Z 0)) in
  is_finite u' = true
  /\ ((0 <= F2Q u)%Q -> (0 <= F2Q u')%Q /\ (F2Q u' <= F2Q u)%Q)
  /\ ((F2Q u <= 0)%Q -> (F2Q u <= F2Q u')%Q /\ (F2Q u' <= 0)%Q).
Proof.
  intros V F H0 H5 Vu Fu.
  destruct (drag_factor dt V F H0 H5) as (Vf & Ff & A & B).
  destruct (scale_shrinks _ u Vf Ff A B Vu Fu) as (Va & Fa & P & N).
  destruct (mul_zero_r dt false F) as [s' Hz].
  change (Float.of_Z 0) with (S754_zero false). rewrite Hz.
  set (a := Float.mul _ u) in *. cbv zeta.
  pose proof (add_zero_r a s') as S.
  assert (E : (F2Q (Float.add a (S754_zero s')) == F2Q a)%Q).
  { destruct (Float.add a (S754_zero s')), a; cbn in S; try discriminate;
      try (rewrite S); try reflexivity; try contradiction. }
  assert (Fi : is_finite (Float.add a (S754_zero s')) = true).
  { destruct (Float.add a (S754_zero s')), a; cbn in S; try discriminate;
      try reflexivity; try contradiction. }
  split; [exact Fi |]. rewrite E. split; assumption.
Qed.

(** X1.  Drag and gravity, for a time_delta between 0 and 5 seconds and a
    finite direction: each horizontal component of the direction stays
    on its side of 0 and does not grow in magnitude, and the vertical
    component does not increase when it is not negative and stays at or
    below 0 when it is not positive. *)
Theorem Particle_update_slows (dt : float) (p : Particle.t) :
  Float.valid dt = true ->
  Float.leb (Float.of_Z 0) dt = true -> Float.leb dt (Float.of_Z 5) = true ->
  valid_point (Particle.direction p) = true ->
  finite_point (Particle.direction p) = true ->
  let d := Particle.direction p in
  let d' := Particle.direction (Particle.update dt p) in
  is_finite (x d') = true /\ is_finite (z d') = true
  /\ ((0 <= F2Q (x d))%Q -> (0 <= F2Q (x d'))%Q /\ (F2Q (x d') <= F2Q (x d))%Q)
  /\ ((F2Q (x d) <= 0)%Q -> (F2Q (x d) <= F2Q (x d'))%Q /\ (F2Q (x d') <= 0)%Q)
  /\ ((0 <= F2Q (z d))%Q -> (0 <= F2Q (z d'))%Q /\ (F2Q (z d') <= F2Q (z d))%Q)
  /\ ((F2Q (z d) <= 0)%Q -> (F2Q (z d) <= F2Q (z d'))%Q /\ (F2Q (z d') <= 0)%Q)
  /\ ((0 <= F2Q (y d))%Q -> Float.leb (y d') (y d) = true)
  /\ ((F2Q (y d) <= 0)%Q -> Float.leb (y d') (Float.of_Z 0) = true).
Proof.
  intros V L0 L5 Hv Hf d d'.
  destruct (delta_range dt V L0 L5) as (F & H0 & H5).
  unfold valid_point, finite_point in *.
  apply andb_prop in Hv as [Hv Vz]. apply andb_prop in Hv as [Vx Vy].
  apply andb_prop in Hf as [Hf Fz]. apply andb_prop in Hf as [Fx Fy].
  fold d in Vx, Vy, Vz, Fx, Fy, Fz.
  destruct (update_horizontal dt (x d) V F H0 H5 Vx Fx) as (X1 & X2 & X3).
  destruct (update_horizontal dt (z d) V F H0 H5 Vz Fz) as (Z1 & Z2 & Z3).
  split; [exact X1 | split; [exact Z1 |]].
  split; [exact X2 | split; [exact X3 |]].
  split; [exact Z2 | split; [exact Z3 |]].
  destruct (drag_factor dt V F H0 H5) as (Vf & Ff & A & B).
  destruct (scale_shrinks _ (y d) Vf Ff A B Vy Fy) as (Va & Fa & P & N).
  destruct (float_between (Float.mul dt (Float.of_Z (-1))) (Float.of_Z (-5)) (Float.of_Z 0) _
              (float_mul dt (Float.of_Z (-1)) V F eq_refl eq_refl))
    as (Vg & Fg & _ & _ & _ & G0); try reflexivity;
    try (rewrite ?F2Q_m1, ?F2Q_0; try (assert (E5 : (F2Q (Float.of_Z (-5)) == -5)%Q) by reflexivity; rewrite E5); lra).
  rewrite F2Q_0 in G0.
  subst d'. cbn [Particle.update Particle.direction point3_add point3_scale y Particle.gravity].
  fold d.
  set (a := Float.mul _ (y d)) in *. set (g := Float.mul dt (Float.of_Z (-1))) in *.
  pose proof (float_add a g Va Fa Vg Fg) as S.
  split; intros Hy.
  - apply (rounds_to_le _ _ float_prec _ _ _ _ S (float_self (y d) Vy Fy)).
    destruct (P Hy). lra.
  - apply (rounds_to_le _ _ float_prec _ _ _ _ S (float_self (Float.of_Z 0) eq_refl eq_refl)).
    destruct (N Hy). rewrite F2Q_0. lra.
Qed.

(** X2.  After [update], the life of a particle is at most 0 exactly
    when its life was at most time_delta: the rounding of
    [life - time_delta] neither ends a life early nor prolongs it. *)
Theorem Particle_update_expires (dt : float) (p : Particle.t) :
  Float.valid (Particle.life p) = true -> is_finite (Particle.life p) = true ->
  Float.valid dt = true -> is_finite dt = true ->
  Float.leb (Particle.life (Particle.update dt p)) (Float.of_Z 0) = true
  <-> (F2Q (Particle.life p) <= F2Q dt)%Q.
Proof. apply update_dead_iff. Qed.

(** One coordinate of the position after [update]. *)
Lemma update_axis (dt c v : float) :
  Float.valid dt = true -> is_finite dt = true -> (0 <= F2Q dt)%Q ->
  Float.valid c = true -> is_finite c = true ->
  Float.valid v = true -> is_finite v = true ->
  ((0 <= F2Q v)%Q -> Float.leb c (Float.add c (Float.mul dt v)) = true)
  /\ ((F2Q v <= 0)%Q -> Float.leb (Float.add c (Float.mul dt v)) c = true).
Proof.
  intros V F H0 Vc Fc Vv Fv.
  pose proof (float_mul dt v V F Vv Fv) as M.
  pose proof (rounds_to_valid _ _ float_prec _ _ M) as Vt.
  set (t := Float.mul dt v) in *.
  split; intros H.
  - assert (L : Float.leb (Float.of_Z 0) t = true).
    { apply (rounds_to_le _ _ float_prec _ _ _ _
               (float_self (Float.of_Z 0) eq_refl eq_refl) M).
      rewrite F2Q_0. now apply Qmult_le_0_compat. }
    destruct (is_finite t) eqn:Ft.
    + pose proof (float_leb_F2Q (Float.of_Z 0) t eq_refl eq_refl Vt Ft L) as P.
      rewrite F2Q_0 in P.
      apply (rounds_to_le _ _ float_prec _ _ _ _
               (float_self c Vc Fc) (float_add c t Vc Fc Vt Ft)). lra.
    + destruct t as [| [] | |]; try discriminate.
      destruct c as [| | |]; try discriminate; reflexivity.
  - assert (L : Float.leb t (Float.of_Z 0) = true).
    { apply (rounds_to_le _ _ float_prec _ _ _ _ M
               (float_self (Float.of_Z 0) eq_refl eq_refl)).
      rewrite F2Q_0. nra. }
    destruct (is_finite t) eqn:Ft.
    + pose proof (float_leb_F2Q t (Float.of_Z 0) Vt Ft eq_refl eq_refl L) as P.
      rewrite F2Q_0 in P.
      apply (rounds_to_le _ _ float_prec _ _ _ _
               (float_add c t Vc Fc Vt Ft) (float_self c Vc Fc)). lra.
    + destruct t as [| [] | |]; try discriminate.
      destruct c as [| | | []]; try discriminate; reflexivity.
Qed.

(** X3.  A particle never moves against its direction: for a finite
    time_delta that is not negative, each coordinate of the position
    does not decrease when that component of the direction is positive,
    and does not increase when it is negative. *)
Theorem Particle_update_moves (dt : float) (p : Particle.t) :
  Float.valid dt = true -> is_finite dt = true ->
  Float.leb (Float.of_Z 0) dt = true ->
  valid_point (Particle.position p) = true ->
  finite_point (Particle.position p) = true ->
  valid_point (Particle.direction p) = true ->
  finite_point (Particle.direction p) = true ->
  let c := Particle.position p in
  let c' := Particle.position (Particle.update dt p) in
  let d := Particle.direction p in
  ((0 <= F2Q (x d))%Q -> Float.leb (x c) (x c') = true)
  /\ ((F2Q (x d) <= 0)%Q -> Float.leb (x c') (x c) = true)
  /\ ((0 <= F2Q (y d))%Q -> Float.leb (y c) (y c') = true)
  /\ ((F2Q (y d) <= 0)%Q -> Float.leb (y c') (y c) = true)
  /\ ((0 <= F2Q (z d))%Q -> Float.leb (z c) (z c') = true)
  /\ ((F2Q (z d) <= 0)%Q -> Float.leb (z c') (z c) = true).
Proof.
  intros V F L0 Vp Fp Vd Fd c c' d.
  pose proof (float_leb_F2Q (Float.of_Z 0) dt eq_refl eq_refl V F L0) as H0.
  rewrite F2Q_0 in H0.
  unfold valid_point, finite_point in *.
  repeat match goal with
         | H : _ && _ = true |- _ => apply andb_prop in H; destruct H
         end.
  subst c'. cbn [Particle.update Particle.position point3_add point3_scale x y z].
  fold c d.
  destruct (update_axis dt (x c) (x d)) as [X1 X2]; try assumption.
  destruct (update_axis dt (y c) (y d)) as [Y1 Y2]; try assumption.
  destruct (update_axis dt (z c) (z d)) as [Z1 Z2]; try assumption.
  repeat split; assumption.
Qed.

(** ** The clock *)

Lemma sub_finite (prec emax : Z) (u v : spec_float) :
  is_finite (SFsub prec emax u v) = true -> is_finite u = true /\ is_finite v = true.
Proof.
  destruct u as [? | [] | | ], v as [? | [] | | ];
    try (intros _; split; reflexivity); discriminate.
Qed.

Lemma sub_self (prec emax : Z) (u : spec_float) :
  is_finite u = true -> exists s, SFsub prec emax u u = S754_zero s.
Proof.
  destruct u as [[] | | | s m e]; try discriminate; intros _.
  - exists false. reflexivity.
  - exists false. reflexivity.
  - exists false. cbn [SFsub]. rewrite Z.sub_diag. reflexivity.
Qed.

Lemma spawn_none (s : bool) :
  float_to_size_t
    (Float.mul (size_t_to_float Application.particles_per_second)
               (double_to_float (S754_zero s))) = Some 0%N.
Proof. destruct s; reflexivity. Qed.

Lemma F2Q_rate : (F2Q (size_t_to_float Application.particles_per_second) == 400)%Q.
Proof. reflexivity. Qed.

Section ClockFacts.
Context {G : Type} {gen : Generator G}.
Import Application.

(** What a tick changes, and what it needs. *)
Lemma update_time_inv (current_time : double) (app app' : t G) :
  update_time current_time app = Some app' ->
  let dt := double_to_float (Double.sub current_time (last_time_ app)) in
  let product := Float.mul (size_t_to_float particles_per_second) dt in
  float_to_size_t product = Some (particles_to_create (state_ app'))
  /\ time_delta (state_ app') = dt
  /\ last_time_ app' = current_time
  /\ particles_ app' = particles_ app
  /\ generator_ app' = generator_ app
  /\ is_finite product = true
  /\ Float.valid dt = true /\ is_finite dt = true
  /\ is_finite current_time = true /\ is_finite (last_time_ app) = true.
Proof.
  intros H dt product. unfold update_time in H. fold dt in H. fold product in H.
  destruct (float_to_size_t product) as [n |] eqn:E; [| discriminate].
  injection H as <-. cbn [state_ time_delta particles_to_create last_time_ particles_ generator_].
  pose proof (proj1 (float_to_size_t_spec product n) E) as (Fp & _).
  pose proof (mul_finite_r _ _ Fp) as Fd.
  destruct (double_to_float_valid _ Fd) as [Vd Fs].
  destruct (sub_finite _ _ _ _ Fs) as [Fc Fl].
  repeat split; assumption.
Qed.

(** X4.  A tick is defined exactly when the single-precision product
    [particles_per_second * time_delta] is a number above -1 and below
    2^64: the cast to [size_t] is undefined for NaN, for the infinities,
    for a product of -1 or less (a clock that has gone back by 2.5 ms or
    more) and for a product of 2^64 or more. *)
Theorem update_time_defined (current_time : double) (app : t G) :
  let dt := double_to_float (Double.sub current_time (last_time_ app)) in
  let product := Float.mul (size_t_to_float particles_per_second) dt in
  (exists app', update_time current_time app = Some app')
  <-> is_finite product = true
      /\ (-1 < F2Q product)%Q /\ (F2Q product < inject_Z (2 ^ 64))%Q.
Proof.
  intros dt product. split.
  - intros [app' H]. destruct (update_time_inv _ _ _ H) as (E & _).
    fold dt product in E. apply float_to_size_t_spec in E as (A & B & C & _). now repeat split.
  - intros (A & B & C).
    assert (E : float_to_size_t product
                = Some (Z.to_N (Z.max 0 (Qfloor (F2Q product))))).
    { apply float_to_size_t_spec. repeat split; try assumption.
      rewrite Z2N.id; lia. }
    unfold update_time. fold dt product. rewrite E. eexists. reflexivity.
Qed.

(** X5.  A later clock reading never gives a shorter time_delta nor fewer
    particles to create: from the same state, if [ct1 <= ct2] and both
    ticks are defined, the first one's time_delta and particle count are
    at most the second one's. *)
Theorem update_time_monotone (ct1 ct2 : double) (app app1 app2 : t G) :
  Double.valid (last_time_ app) = true ->
  Double.valid ct1 = true -> Double.valid ct2 = true ->
  SFleb ct1 ct2 = true ->
  update_time ct1 app = Some app1 ->
  update_time ct2 app = Some app2 ->
  Float.leb (time_delta (state_ app1)) (time_delta (state_ app2)) = true
  /\ (particles_to_create (state_ app1) <= particles_to_create (state_ app2))%N.
Proof.
  intros Vl V1 V2 L H1 H2.
  destruct (update_time_inv _ _ _ H1) as (E1 & -> & _ & _ & _ & Fp1 & Vt1 & Ft1 & Fc1 & Fl).
  destruct (update_time_inv _ _ _ H2) as (E2 & -> & _ & _ & _ & Fp2 & Vt2 & Ft2 & Fc2 & _).
  set (d1 := Double.sub ct1 (last_time_ app)) in *.
  set (d2 := Double.sub ct2 (last_time_ app)) in *.
  pose proof (double_sub ct1 _ V1 Fc1 Vl Fl) as A1. fold d1 in A1.
  pose proof (double_sub ct2 _ V2 Fc2 Vl Fl) as A2. fold d2 in A2.
  pose proof (leb_F2Q Double.prec Double.emax double_prec ct1 ct2 V1 Fc1 V2 Fc2 L) as Q12.
  assert (Fd1 : is_finite d1 = true) by now destruct (double_to_float_valid _ Ft1).
  assert (Fd2 : is_finite d2 = true) by now destruct (double_to_float_valid _ Ft2).
  assert (D12 : (F2Q d1 <= F2Q d2)%Q).
  { apply (leb_F2Q Double.prec Double.emax double_prec); try assumption.
    - exact (rounds_to_valid _ _ double_prec _ _ A1).
    - exact (rounds_to_valid _ _ double_prec _ _ A2).
    - apply (rounds_to_le _ _ double_prec _ _ _ _ A1 A2). lra. }
  set (t1 := double_to_float d1) in *. set (t2 := double_to_float d2) in *.
  assert (T12 : Float.leb t1 t2 = true).
  { exact (rounds_to_le _ _ float_prec _ _ _ _ (float_narrow d1 Fd1) (float_narrow d2 Fd2) D12). }
  split; [exact T12 |].
  pose proof (float_leb_F2Q t1 t2 Vt1 Ft1 Vt2 Ft2 T12) as Qt.
  pose proof (float_mul (size_t_to_float particles_per_second) t1 eq_refl eq_refl Vt1 Ft1) as M1.
  pose proof (float_mul (size_t_to_float particles_per_second) t2 eq_refl eq_refl Vt2 Ft2) as M2.
  set (p1 := Float.mul (size_t_to_float particles_per_second) t1) in *.
  set (p2 := Float.mul (size_t_to_float particles_per_second) t2) in *.
  assert (P12 : (F2Q p1 <= F2Q p2)%Q).
  { apply float_leb_F2Q; try assumption.
    - exact (rounds_to_valid _ _ float_prec _ _ M1).
    - exact (rounds_to_valid _ _ float_prec _ _ M2).
    - apply (rounds_to_le _ _ float_prec _ _ _ _ M1 M2). rewrite F2Q_rate. lra. }
  apply float_to_size_t_spec in E1 as (_ & _ & _ & N1).
  apply float_to_size_t_spec in E2 as (_ & _ & _ & N2).
  pose proof (Qfloor_resp_le _ _ P12). 
  generalize dependent (particles_to_create (state_ app1)).
  generalize dependent (particles_to_create (state_ app2)).
  unfold size_t. intros. lia.
Qed.

(** X6.  A second tick at the same clock reading: after any defined tick,
    a tick at the same [current_time] is defined, has a time_delta of
    zero and creates no particle. *)
Theorem update_time_repeated (current_time : double) (app app1 : t G) :
  update_time current_time app = Some app1 ->
  exists app2,
    update_time current_time app1 = Some app2
    /\ (exists s, time_delta (state_ app2) = S754_zero s)
    /\ particles_to_create (state_ app2) = 0%N
    /\ last_time_ app2 = current_time.
Proof.
  intros H. destruct (update_time_inv _ _ _ H) as (_ & _ & L & _ & _ & _ & _ & _ & Fc & _).
  destruct (sub_self Double.prec Double.emax current_time Fc) as [s Hs].
  unfold update_time. rewrite L. unfold Double.sub. rewrite Hs, spawn_none.
  eexists. split; [reflexivity |].
  cbn [state_ time_delta particles_to_create last_time_].
  split; [| split; reflexivity]. exists s. reflexivity.
Qed.

(** X7.  The number of particles to create against the exact product: on
    a defined tick whose time_delta is not negative and at most 2^24/400
    seconds, the count is at least the floor and at most the ceiling of
    the exact [400 * time_delta]. *)
Theorem update_time_count_bounds (current_time : double) (app app' : t G) :
  update_time current_time app = Some app' ->
  (0 <= F2Q (time_delta (state_ app')))%Q ->
  (400 * F2Q (time_delta (state_ app')) <= inject_Z (2 ^ 24))%Q ->
  Qfloor (400 * F2Q (time_delta (state_ app')))
  <= Z.of_N (particles_to_create (state_ app'))
  <= Qceiling (400 * F2Q (time_delta (state_ app'))).
Proof.
  intros H. destruct (update_time_inv _ _ _ H) as (E & -> & _ & _ & _ & Fp & Vt & Ft & _).
  set (dt := double_to_float (Double.sub current_time (last_time_ app))) in *.
  intros H0 H1.
  pose proof (float_mul (size_t_to_float particles_per_second) dt eq_refl eq_refl Vt Ft) as M.
  set (p := Float.mul (size_t_to_float particles_per_second) dt) in *.
  pose proof (rounds_to_valid _ _ float_prec _ _ M) as Vp.
  apply float_to_size_t_spec in E as (_ & _ & _ & N).
  set (q := (400 * F2Q dt)%Q) in *.
  assert (Hq : (0 <= q)%Q) by (unfold q; lra).
  assert (K0 : 0 <= Qfloor q).
  { rewrite <- (Qfloor_Z 0). now apply Qfloor_resp_le. }
  assert (K1 : Qceiling q <= 2 ^ 24).
  { rewrite <- (Qceiling_Z (2 ^ 24)). now apply Qceiling_resp_le. }
  pose proof (Qfloor_le q) as Fl. pose proof (Qle_ceiling q) as Ce.
  assert (K2 : Qfloor q <= Qceiling q).
  { rewrite Zle_Qle. eapply Qle_trans; eassumption. }
  destruct (float_integer (Qfloor q)) as (lo & Vlo & Flo & Elo); [lia |].
  destruct (float_integer (Qceiling q)) as (hi & Vhi & Fhi & Ehi); [lia |].
  assert (A : (inject_Z (Qfloor q) <= F2Q p)%Q).
  { rewrite <- Elo. apply float_leb_F2Q; try assumption.
    apply (rounds_to_le _ _ float_prec _ _ _ _ (float_self lo Vlo Flo) M).
    rewrite F2Q_rate, Elo. exact Fl. }
  assert (B : (F2Q p <= inject_Z (Qceiling q))%Q).
  { rewrite <- Ehi. apply float_leb_F2Q; try assumption.
    apply (rounds_to_le _ _ float_prec _ _ _ _ M (float_self hi Vhi Fhi)).
    rewrite F2Q_rate, Ehi. exact Ce. }
  apply Qfloor_resp_le in A, B. rewrite Qfloor_Z in A, B.
  generalize dependent (particles_to_create (state_ app')).
  unfold size_t. intros. lia.
Qed.

End ClockFacts.

(** ** The pool, frame after frame *)

Lemma life_ok_spec (p : Particle.t) :
  life_ok p = true <->
  Float.valid (Particle.life p) = true /\ is_finite (Particle.life p) = true
  /\ (0 < F2Q (Particle.life p))%Q /\ (F2Q (Particle.life p) <= 10)%Q.
Proof.
  unfold life_ok. rewrite !andb_true_iff. split.
  - intros [[V L0] L1].
    assert (F : is_finite (Particle.life p) = true).
    { destruct (Particle.life p) as [| [] | |]; try discriminate; reflexivity. }
    split; [exact V | split; [exact F | split]].
    + rewrite (float_ltb_F2Q (Float.of_Z 0) _ eq_refl eq_refl V F) in L0. now rewrite F2Q_0 in L0.
    + rewrite <- F2Q_10. now apply (float_leb_F2Q _ Particle.default_life V F eq_refl eq_refl).
  - intros (V & F & L0 & L1). repeat split; try assumption.
    + apply (float_ltb_F2Q (Float.of_Z 0) _ eq_refl eq_refl V F). now rewrite F2Q_0.
    + apply (float_F2Q_leb _ Particle.default_life V F eq_refl eq_refl). now rewrite F2Q_10.
Qed.

Lemma filter_none {A} (f : A -> bool) (l : list A) :
  (forall a, In a l -> f a = false) -> filter f l = [].
Proof.
  induction l as [| a l IH]; intros H; [reflexivity |]. cbn [filter].
  rewrite (H a) by (left; reflexivity). apply IH. intros b Hb. apply H. now right.
Qed.

(** A number that is not [<= 0] and is at most a finite number is above 0. *)
Lemma alive_positive (u hi : float) :
  is_finite hi = true ->
  Float.leb u (Float.of_Z 0) = false -> Float.leb u hi = true ->
  Float.ltb (Float.of_Z 0) u = true.
Proof.
  intros Fh H0 H1.
  assert (F : is_finite u = true).
  { destruct u as [| [] | |], hi as [| | | []]; try discriminate; reflexivity. }
  unfold Float.ltb. rewrite SFltb_negb_leb by (reflexivity || assumption).
  unfold Float.leb in H0. now rewrite H0.
Qed.

Section PoolFacts.
Context {G : Type} {gen : Generator G}.
Import Application.

Lemma create_particle_life (dp dd : uniform_real_distribution) (g : G) :
  Particle.life (fst (create_particle dp dd g)) = Particle.default_life.
Proof.
  unfold create_particle.
  destruct (draw dp g) as [px g1]. destruct (draw dp g1) as [py g2].
  destruct (draw dp g2) as [pz g3]. destruct (draw dd g3) as [dx g4].
  destruct (draw dd g4) as [u g5]. destruct (draw dd g5) as [dz g6]. reflexivity.
Qed.

(** What [update] leaves as it is. *)
Lemma update_fields (app : t G) :
  last_time_ (update app) = last_time_ app
  /\ distribution_position_ (update app) = distribution_position_ app
  /\ distribution_direction_ (update app) = distribution_direction_ app
  /\ time_delta (state_ (update app)) = time_delta (state_ app)
  /\ particles_to_create (state_ (update app)) = particles_to_create (state_ app).
Proof.
  unfold update.
  set (app1 := if reset_scene (state_ app) then with_particles app [] else app).
  assert (H1 : state_ app1 = state_ app /\ last_time_ app1 = last_time_ app
               /\ distribution_position_ app1 = distribution_position_ app
               /\ distribution_direction_ app1 = distribution_direction_ app)
    by (subst app1; now destruct (reset_scene _)).
  destruct H1 as (S1 & L1 & P1 & D1).
  destruct (spawn_fields (N.to_nat (particles_to_create (state_ app1))) app1)
    as (A & B & C & D).
  cbn. rewrite A, B, C, D, S1, L1, P1, D1. repeat split.
Qed.

(** The pool that [update] advances: the old particles, unless the scene
    is reset, then the new ones, each with the life of a new particle. *)
Lemma update_pool (app : t G) :
  exists created,
    particles_ (update app)
    = advance (time_delta (state_ app))
              ((if reset_scene (state_ app) then [] else particles_ app) ++ created)
    /\ length created = N.to_nat (particles_to_create (state_ app))
    /\ Forall (fun p => Particle.life p = Particle.default_life) created.
Proof.
  rewrite update_particles.
  destruct (spawn_particles (N.to_nat (particles_to_create (state_ app)))
              (if reset_scene (state_ app) then with_particles app [] else app))
    as (created & Hc & Hl & Hf).
  exists created. rewrite Hc. split; [| split].
  - now destruct (reset_scene (state_ app)).
  - exact Hl.
  - eapply Forall_impl; [| exact Hf]. intros p [g' ->]. apply create_particle_life.
Qed.

(** X8.  [update] removes nothing but dead particles and adds at most
    [particles_to_create]: the pool grows by at most that number, and,
    when the scene is not reset, every particle that is not dead after
    its own update is still in the pool. *)
Theorem update_survivors (app : t G) :
  (length (particles_ (update app))
   <= length (particles_ app) + N.to_nat (particles_to_create (state_ app)))%nat
  /\ (reset_scene (state_ app) = false ->
      forall q, In q (particles_ app) ->
                Particle.dead (Particle.update (time_delta (state_ app)) q) = false ->
                In (Particle.update (time_delta (state_ app)) q) (particles_ (update app))).
Proof.
  destruct (update_pool app) as (created & -> & Hl & _). split.
  - unfold advance. etransitivity; [apply filter_length_le |].
    rewrite length_map, length_app, Hl.
    destruct (reset_scene (state_ app)); cbn [length]; lia.
  - intros -> q Hq Hd. unfold advance. apply filter_In. split.
    + apply in_map, in_or_app. now left.
    + now rewrite Hd.
Qed.

Lemma created_life_ok (created : list Particle.t) :
  Forall (fun p => Particle.life p = Particle.default_life) created ->
  forallb life_ok created = true.
Proof.
  intros H. apply forallb_forall. intros p Hp.
  rewrite Forall_forall in H. specialize (H p Hp).
  unfold life_ok. rewrite H. reflexivity.
Qed.

Lemma base_life_ok (app : t G) (created : list Particle.t) :
  forallb life_ok (particles_ app) = true ->
  Forall (fun p => Particle.life p = Particle.default_life) created ->
  forallb life_ok ((if reset_scene (state_ app) then [] else particles_ app) ++ created)
  = true.
Proof.
  intros H Hc. rewrite forallb_app, (created_life_ok _ Hc).
  destruct (reset_scene (state_ app)); [reflexivity | now rewrite H].
Qed.

(** The invariant of the pool is kept by [update]. *)
Lemma update_life_ok (app : t G) :
  Float.valid (time_delta (state_ app)) = true ->
  is_finite (time_delta (state_ app)) = true ->
  (0 <= F2Q (time_delta (state_ app)))%Q ->
  forallb life_ok (particles_ app) = true ->
  forallb life_ok (particles_ (update app)) = true.
Proof.
  intros V F H0 Hp.
  destruct (update_pool app) as (created & -> & _ & Hc).
  pose proof (base_life_ok app created Hp Hc) as Hb.
  rewrite forallb_forall in Hb. apply forallb_forall.
  intros p' [Hin Hd]%filter_In. apply in_map_iff in Hin as (q & <- & Hq).
  apply negb_true_iff in Hd.
  apply Hb, life_ok_spec in Hq as (Vq & Fq & Q0 & Q1).
  pose proof (float_sub _ _ Vq Fq V F) as S.
  assert (L : Float.leb (Particle.life (Particle.update (time_delta (state_ app)) q))
                        Particle.default_life = true).
  { apply (rounds_to_le _ _ float_prec _ _ _ _ S
             (float_self Particle.default_life eq_refl eq_refl)).
    rewrite F2Q_10. lra. }
  unfold life_ok. rewrite L, andb_true_r. apply andb_true_intro. split.
  - exact (rounds_to_valid _ _ float_prec _ _ S).
  - exact (alive_positive _ Particle.default_life eq_refl Hd L).
Qed.

(** A frame of 10 seconds or more leaves no particle. *)
Lemma long_frame_empty (app : t G) :
  Float.valid (time_delta (state_ app)) = true ->
  is_finite (time_delta (state_ app)) = true ->
  (10 <= F2Q (time_delta (state_ app)))%Q ->
  forallb life_ok (particles_ app) = true ->
  particles_ (update app) = [].
Proof.
  intros V F H10 Hp.
  destruct (update_pool app) as (created & -> & _ & Hc).
  pose proof (base_life_ok app created Hp Hc) as Hb.
  rewrite forallb_forall in Hb. unfold advance. apply filter_none.
  intros p' (q & <- & Hq)%in_map_iff.
  apply Hb, life_ok_spec in Hq as (Vq & Fq & Q0 & Q1).
  apply negb_false_iff, update_dead_iff; try assumption. lra.
Qed.

(** X9.  A frame of 10 seconds or more empties the pool: when every
    particle of the pool has a life above 0 and at most 10 and
    time_delta is a finite number of at least 10, [update] leaves no
    particle at all, the ones it has just created included. *)
Theorem update_long_frame (app : t G) :
  Float.valid (time_delta (state_ app)) = true ->
  is_finite (time_delta (state_ app)) = true ->
  (10 <= F2Q (time_delta (state_ app)))%Q ->
  forallb life_ok (particles_ app) = true ->
  particles_ (update app) = [].
Proof. apply long_frame_empty. Qed.

(** The time_delta of a tick whose clock has not gone back. *)
Lemma delta_nonneg (last current_time : double) :
  Double.valid last = true -> is_finite last = true ->
  Double.valid current_time = true -> is_finite current_time = true ->
  SFleb last current_time = true ->
  is_finite (double_to_float (Double.sub current_time last)) = true ->
  (0 <= F2Q (double_to_float (Double.sub current_time last)))%Q.
Proof.
  intros Vl Fl Vc Fc L Ft.
  destruct (double_to_float_valid _ Ft) as [Vt Fd].
  pose proof (leb_F2Q Double.prec Double.emax double_prec _ _ Vl Fl Vc Fc L) as Q.
  pose proof (double_sub current_time last Vc Fc Vl Fl) as S.
  assert (D : (0 <= F2Q (Double.sub current_time last))%Q).
  { change 0%Q with (F2Q (Double.of_Z 0)).
    apply (leb_F2Q Double.prec Double.emax double_prec); try assumption; try reflexivity.
    - exact (rounds_to_valid _ _ double_prec _ _ S).
    - apply (rounds_to_le _ _ double_prec _ _ _ _
               (rounds_to_self _ _ double_prec (Double.of_Z 0) eq_refl eq_refl) S).
      change (F2Q (Double.of_Z 0)) with 0%Q. lra. }
  rewrite <- F2Q_0. apply float_leb_F2Q; try assumption; try reflexivity.
  apply (rounds_to_le _ _ float_prec _ _ _ _
           (float_self (Float.of_Z 0) eq_refl eq_refl) (float_narrow _ Fd)).
  now rewrite F2Q_0.
Qed.

(** X10.  The invariant of the pool: over any run of frames whose clock
    readings are valid and never go back, if every particle has a life
    above 0 and at most 10 before the run, so has every particle after
    it.  It holds of the empty pool the application starts with. *)
Theorem frames_life_ok (times : list double) (app app' : t G) :
  Double.valid (last_time_ app) = true ->
  increasing (last_time_ app) times = true ->
  forallb life_ok (particles_ app) = true ->
  frames times app = Some app' ->
  forallb life_ok (particles_ app') = true.
Proof.
  revert app. induction times as [| ct times IH]; intros app Vl Hi Hp Hf.
  - now injection Hf as <-.
  - cbn [frames] in Hf. cbn [increasing] in Hi.
    apply andb_prop in Hi as [Hi Hr]. apply andb_prop in Hi as [Vc Lc].
    destruct (frame ct app) as [app1 |] eqn:E; [| discriminate].
    unfold frame in E. destruct (update_time ct app) as [app0 |] eqn:E0; [| discriminate].
    injection E as <-.
    destruct (update_time_inv _ _ _ E0) as (_ & Hd & Hl & Hps & _ & _ & Vt & Ft & Fc & Fl).
    destruct (update_fields app0) as (Hl' & _).
    apply (IH (update app0)); try assumption.
    + now rewrite Hl', Hl.
    + now rewrite Hl', Hl.
    + apply update_life_ok.
      * now rewrite Hd.
      * now rewrite Hd.
      * rewrite Hd. now apply delta_nonneg.
      * now rewrite Hps.
Qed.

End PoolFacts.

Section FastFrames.
Context {G : Type} {gen : Generator G}.
Import Application.

(** X11.  Frames of 2 ms or less create nothing: the fraction of a
    particle that a frame is owed is dropped, not carried over, so on
    a defined tick whose time_delta is at most 1/500 s no particle is
    to be created, and the frame leaves an empty pool empty. *)
Theorem frame_fast (current_time : double) (app app' : t G) :
  frame current_time app = Some app' ->
  (F2Q (time_delta (state_ app')) <= 1 # 500)%Q ->
  particles_to_create (state_ app') = 0%N
  /\ (length (particles_ app') <= length (particles_ app))%nat
  /\ (particles_ app = [] -> particles_ app' = []).
Proof.
  unfold frame. destruct (update_time current_time app) as [app0 |] eqn:E; [| discriminate].
  cbn [option_map]. intros [= <-].
  destruct (update_fields app0) as (_ & _ & _ & -> & ->).
  destruct (update_time_inv _ _ _ E) as (Ec & Ed & _ & Ep & _ & Fp & Vt & Ft & _).
  rewrite Ed. intros Hd.
  set (dt := double_to_float (Double.sub current_time (last_time_ app))) in *.
  pose proof (float_mul (size_t_to_float particles_per_second) dt eq_refl eq_refl Vt Ft) as M.
  set (p := Float.mul (size_t_to_float particles_per_second) dt) in *.
  pose proof (rounds_to_valid _ _ float_prec _ _ M) as Vp.
  assert (E8 : (F2Q (Float.lit 8 10) == 13421773 # 16777216)%Q) by reflexivity.
  assert (L : (F2Q p <= F2Q (Float.lit 8 10))%Q).
  { apply float_leb_F2Q; try assumption; try reflexivity.
    apply (rounds_to_le _ _ float_prec _ _ _ _ M (float_self (Float.lit 8 10) eq_refl eq_refl)).
    rewrite F2Q_rate, E8.
    assert ((4 # 5) <= 13421773 # 16777216)%Q by (apply Qle_bool_iff; reflexivity). lra. }
  assert (N0 : particles_to_create (state_ app0) = 0%N).
  { apply float_to_size_t_spec in Ec as (_ & _ & _ & N).
    assert (Qfloor (F2Q p) <= 0).
    { apply Z.lt_succ_r. rewrite Zlt_Qlt.
      eapply Qle_lt_trans; [apply Qfloor_le |].
      eapply Qle_lt_trans; [exact L |]. rewrite E8. reflexivity. }
    generalize dependent (particles_to_create (state_ app0)).
    unfold size_t. intros. lia. }
  split; [exact N0 |].
  destruct (update_pool app0) as (created & -> & Hl & _).
  rewrite N0 in Hl. destruct created; [| discriminate]. rewrite app_nil_r, <- Ep.
  unfold advance. split.
  - etransitivity; [apply filter_length_le |]. rewrite length_map.
    destruct (reset_scene (state_ app0)); cbn [length]; lia.
  - intros ->. now destruct (reset_scene (state_ app0)).
Qed.
End FastFrames.

(** ** The colour of a new particle *)

Lemma F2Q_2 : (F2Q (Float.of_Z 2) == 2)%Q.
Proof. reflexivity. Qed.

Lemma F2Q_4 : (F2Q (Float.of_Z 4) == 4)%Q.
Proof. reflexivity. Qed.

(** The factor of the colour for a vertical direction between 0 and 4. *)
Lemma color_factor_rising (p : Particle.t) :
  Float.valid (y (Particle.direction p)) = true ->
  Float.leb (Float.of_Z 0) (y (Particle.direction p)) = true ->
  Float.leb (y (Particle.direction p)) (Float.of_Z 4) = true ->
  Float.leb (Float.of_Z 1) (Particle.color_factor p) = true
  /\ Float.leb (Particle.color_factor p) (Float.of_Z 3) = true.
Proof.
  intros V L0 L4. set (v := y (Particle.direction p)) in *.
  assert (F : is_finite v = true)
    by (apply (leb_finite (Float.of_Z 0) v (Float.of_Z 4)); auto).
  pose proof (float_leb_F2Q (Float.of_Z 0) v eq_refl eq_refl V F L0) as A.
  pose proof (float_leb_F2Q v (Float.of_Z 4) V F eq_refl eq_refl L4) as B.
  rewrite F2Q_0 in A. rewrite F2Q_4 in B.
  assert (NZ : ~ (F2Q (Float.of_Z 2) == 0)%Q) by (rewrite F2Q_2; discriminate).
  assert (EQ : (F2Q v / F2Q (Float.of_Z 2) == F2Q v * (1 # 2))%Q).
  { rewrite F2Q_2. unfold Qdiv. reflexivity. }
  destruct (div_between Float.prec Float.emax float_prec v (Float.of_Z 2)
              (Float.of_Z 0) (Float.of_Z 2) F eq_refl NZ)
    as (Vd & Fd & _ & _ & D0 & D2); try reflexivity;
    try (rewrite EQ, ?F2Q_0, ?F2Q_2; lra).
  fold (Float.div v (Float.of_Z 2)) in *.
  rewrite F2Q_0 in D0. rewrite F2Q_2 in D2.
  unfold Particle.color_factor. fold v.
  assert (E3 : (F2Q (Float.of_Z 3) == 3)%Q) by reflexivity.
  destruct (float_between _ (Float.of_Z 1) (Float.of_Z 3) _
              (float_add (Float.div v (Float.of_Z 2)) (Float.of_Z 1) Vd Fd eq_refl eq_refl))
    as (_ & _ & R1 & R3 & _); try reflexivity; try (rewrite ?F2Q_1, ?E3; lra).
  now split.
Qed.

Section NewParticle.
Context {G : Type} {gen : Generator G}.
Import Application.

(** X12.  Every new particle is hot: when the draw for the vertical
    direction lies between -1 and 1, the particle that
    [create_particle] returns has a colour factor between 1 and 3, and
    [get_color] gives it the hot colour. *)
Theorem create_particle_hot (dp dd : uniform_real_distribution) (g0 : G) :
  let g1 := snd (draw dp g0) in
  let g2 := snd (draw dp g1) in
  let g3 := snd (draw dp g2) in
  let g4 := snd (draw dd g3) in
  let p := fst (create_particle dp dd g0) in
  in_range (mk_uniform (Float.of_Z (-1)) (Float.of_Z 1)) (fst (draw dd g4)) = true ->
  y (Particle.direction p) = upward (fst (draw dd g4))
  /\ Float.leb (Float.of_Z 1) (Particle.color_factor p) = true
  /\ Float.leb (Particle.color_factor p) (Float.of_Z 3) = true
  /\ Particle.get_color p = Particle.hot.
Proof.
  intros g1 g2 g3 g4 p Hr.
  assert (Ey : y (Particle.direction p) = upward (fst (draw dd g4))).
  { subst p g4 g3 g2 g1. unfold create_particle.
    destruct (draw dp g0) as [px h1]; cbn [fst snd].
    destruct (draw dp h1) as [py h2]; cbn [fst snd].
    destruct (draw dp h2) as [pz h3]; cbn [fst snd].
    destruct (draw dd h3) as [dx h4]; cbn [fst snd].
    destruct (draw dd h4) as [u h5]; cbn [fst snd].
    destruct (draw dd h5) as [dz h6]; reflexivity. }
  unfold in_range in Hr. cbn [dist_a dist_b] in Hr.
  apply andb_prop in Hr as [Hr U2]. apply andb_prop in Hr as [V U1].
  destruct (upward_range _ V U1 U2) as (L0 & L4 & w & v & _ & _ & R).
  pose proof (rounds_to_valid _ _ float_prec _ _ R) as Vy.
  rewrite <- Ey in L0, L4, Vy.
  destruct (color_factor_rising p Vy L0 L4) as [C1 C3].
  split; [exact Ey | split; [exact C1 | split; [exact C3 |]]].
  unfold Particle.get_color, color_grad. now rewrite (clamp01_high _ C1).
Qed.
End NewParticle.

(** ** The window *)

Lemma quotient_bounds (w h B : Z) :
  - B <= w <= B -> h <> 0 ->
  (- inject_Z B <= inject_Z w / inject_Z h)%Q /\ (inject_Z w / inject_Z h <= inject_Z B)%Q.
Proof.
  intros Hw Hh.
  assert (P : forall w' h', - B <= w' <= B -> 0 < h' ->
                (- inject_Z B <= inject_Z w' / inject_Z h')%Q
                /\ (inject_Z w' / inject_Z h' <= inject_Z B)%Q).
  { intros w' h' Hw' Hh'.
    assert (Hq : (0 < inject_Z h')%Q) by (change 0%Q with (inject_Z 0); now rewrite <- Zlt_Qlt).
    split.
    - apply Qle_shift_div_l; [exact Hq |].
      rewrite <- inject_Z_opp, <- inject_Z_mult, <- Zle_Qle. nia.
    - apply Qle_shift_div_r; [exact Hq |].
      rewrite <- inject_Z_mult, <- Zle_Qle. nia. }
  destruct (Z.lt_trichotomy h 0) as [N | [E | Pz]]; [| lia | now apply P].
  assert (E : (inject_Z w / inject_Z h == inject_Z (- w) / inject_Z (- h))%Q).
  { rewrite !inject_Z_opp. field. intros C.
    assert (inject_Z h < inject_Z 0)%Q by now rewrite <- Zlt_Qlt.
    change (inject_Z 0) with 0%Q in *. lra. }
  rewrite E. apply P; lia.
Qed.

Lemma aspect_spec (w h : Z) :
  - 2 ^ 31 <= w <= 2 ^ 31 -> - 2 ^ 31 <= h <= 2 ^ 31 -> h <> 0 ->
  Float.valid (Glut.aspect w h) = true /\ is_finite (Glut.aspect w h) = true
  /\ (- inject_Z (2 ^ 31) <= F2Q (Glut.aspect w h))%Q
  /\ (F2Q (Glut.aspect w h) <= inject_Z (2 ^ 31))%Q
  /\ (0 < w -> 0 < h -> (1 # 2147483648 <= F2Q (Glut.aspect w h))%Q)
  /\ (w = h -> (F2Q (Glut.aspect w h) == 1)%Q).
Proof.
  intros Hw Hh Hn. unfold Glut.aspect.
  destruct (double_of_Z_exact w) as (Vw & Fw & Ew); [lia |].
  destruct (double_of_Z_exact h) as (Vh & Fh & Eh); [lia |].
  (* w * 1.0 *)
  pose proof (rounds_to_mul _ _ double_emin _ _ Vw Fw
                (eq_refl : Double.valid (Double.of_Z 1) = true) eq_refl) as M.
  assert (E1 : (F2Q (Double.of_Z 1) == 1)%Q) by reflexivity.
  destruct (same_number_F2Q _ _
              (rounds_to_same _ _ double_prec _ _ _ _ M
                 (rounds_to_self _ _ double_prec _ Vw Fw) ltac:(rewrite E1; ring)))
    as [Em Fm].
  fold (Glut.double_mul (Double.of_Z w) (Double.of_Z 1)) in Em, Fm.
  set (xw := Glut.double_mul (Double.of_Z w) (Double.of_Z 1)) in *.
  rewrite Fw in Fm. rewrite Ew in Em.
  (* / h *)
  assert (NZ : ~ (F2Q (Double.of_Z h) == 0)%Q).
  { rewrite Eh. intros C.
    assert (H : (inject_Z h == inject_Z 0)%Q) by exact C.
    destruct (Z.lt_trichotomy h 0) as [N | [E | P]]; [| lia |].
    - assert (inject_Z h < inject_Z 0)%Q by now rewrite <- Zlt_Qlt. lra.
    - assert (inject_Z 0 < inject_Z h)%Q by now rewrite <- Zlt_Qlt. lra. }
  assert (ER : (F2Q xw / F2Q (Double.of_Z h) == inject_Z w / inject_Z h)%Q).
  { rewrite Em. rewrite Eh in *. reflexivity. }
  destruct (quotient_bounds w h (2 ^ 31) Hw Hn) as [B1 B2].
  assert (D31 : (F2Q (Double.of_Z (2 ^ 31)) == inject_Z (2 ^ 31))%Q) by reflexivity.
  assert (Dm31 : (F2Q (Double.of_Z (- 2 ^ 31)) == - inject_Z (2 ^ 31))%Q) by reflexivity.
  assert (F31 : (F2Q (Float.of_Z (2 ^ 31)) == inject_Z (2 ^ 31))%Q) by reflexivity.
  assert (Fm31 : (F2Q (Float.of_Z (- 2 ^ 31)) == - inject_Z (2 ^ 31))%Q) by reflexivity.
  destruct (div_between Double.prec Double.emax double_prec xw (Double.of_Z h)
              (Double.of_Z (- 2 ^ 31)) (Double.of_Z (2 ^ 31)) Fm Fh NZ)
    as (Vd & Fd & _ & _ & L1 & L2); try reflexivity; try (rewrite ER; lra).
  fold (Glut.double_div xw (Double.of_Z h)) in *.
  set (d := Glut.double_div xw (Double.of_Z h)) in *.
  destruct (float_between (double_to_float d) (Float.of_Z (- 2 ^ 31)) (Float.of_Z (2 ^ 31)) _
              (float_narrow d Fd))
    as (Vr & Fr & _ & _ & R1 & R2); try reflexivity; try lra.
  split; [exact Vr | split; [exact Fr | split; [lra | split; [lra | split]]]].
  - intros Pw Ph.
    set (lo := S754_finite false 4503599627370496 (-83)).
    assert (Elo : (F2Q lo == 1 # 2147483648)%Q) by reflexivity.
    assert (Hq : (0 < inject_Z h)%Q) by (change 0%Q with (inject_Z 0); now rewrite <- Zlt_Qlt).
    assert (Hq1 : (inject_Z h <= inject_Z (2 ^ 31))%Q) by (rewrite <- Zle_Qle; lia).
    assert (Hw1 : (inject_Z 1 <= inject_Z w)%Q) by (rewrite <- Zle_Qle; lia).
    change (inject_Z 1) with 1%Q in Hw1. change (inject_Z (2 ^ 31)) with 2147483648%Q in Hq1.
    assert (Lq : (1 # 2147483648 <= inject_Z w / inject_Z h)%Q).
    { apply Qle_shift_div_l; [exact Hq |]. lra. }
    destruct (div_between Double.prec Double.emax double_prec xw (Double.of_Z h) lo (Double.of_Z (2 ^ 31)) Fm Fh NZ)
      as (_ & _ & _ & _ & L1' & _); try reflexivity; try (rewrite ER; lra).
    fold (Glut.double_div xw (Double.of_Z h)) in L1'. fold d in L1'.
    set (flo := S754_finite false 8388608 (-54)).
    assert (Eflo : (F2Q flo == 1 # 2147483648)%Q) by reflexivity.
    destruct (float_between (double_to_float d) flo (Float.of_Z (2 ^ 31)) _
                (float_narrow d Fd))
      as (_ & _ & _ & _ & R1' & _); try reflexivity; try lra.
  - intros <-.
    assert (E : (inject_Z w / inject_Z w == 1)%Q).
    { field. intros C. apply NZ. now rewrite Eh. }
    assert (D1 : (F2Q (Double.of_Z 1) == 1)%Q) by reflexivity.
    destruct (div_between Double.prec Double.emax double_prec xw (Double.of_Z w)
                (Double.of_Z 1) (Double.of_Z 1) Fm Fh NZ)
      as (_ & _ & _ & _ & L1' & L2'); try reflexivity; try (rewrite ER; lra).
    fold (Glut.double_div xw (Double.of_Z w)) in L1', L2'. fold d in L1', L2'.
    destruct (float_between (double_to_float d) (Float.of_Z 1) (Float.of_Z 1) _
                (float_narrow d Fd))
      as (_ & _ & _ & _ & R1' & R2'); try reflexivity; try (rewrite ?F2Q_1; lra).
    rewrite F2Q_1 in *. lra.
Qed.

(** A width of 0 gives the ratio 0, whatever the height. *)
Lemma aspect_zero (h : Z) :
  - 2 ^ 31 <= h <= 2 ^ 31 -> h <> 0 -> (F2Q (Glut.aspect 0 h) == 0)%Q.
Proof.
  intros Hh Hn. unfold Glut.aspect.
  destruct (double_of_Z_exact h) as (_ & Fh & Eh); [lia |].
  change (Glut.double_mul (Double.of_Z 0) (Double.of_Z 1)) with (S754_zero false).
  destruct (Double.of_Z h) as [s | s | | s m e]; try discriminate Fh.
  - exfalso. cbn in Eh.
    assert (H : (inject_Z 0 == inject_Z h)%Q) by exact Eh.
    destruct (Z.lt_trichotomy h 0) as [N | [E | P]]; [| lia |].
    + assert (inject_Z h < inject_Z 0)%Q by now rewrite <- Zlt_Qlt. lra.
    + assert (inject_Z 0 < inject_Z h)%Q by now rewrite <- Zlt_Qlt. lra.
  - reflexivity.
Qed.

(** X13.  [resize_glut] never divides by zero: for all [int] arguments a
    height of 0 is taken as 1, the viewport gets that height, and the
    aspect ratio given to [gluPerspective] is a finite number of
    magnitude at most 2^31, positive (at least 2^-31) when width and
    height are positive, exactly 1 when the width is the height that is
    used (the given one, or 1 in place of 0), and 0 when the width is 0:
    a window of 0 by 0 gets the ratio 0. *)
Theorem resize_glut_ratio (w h : Z) :
  - 2 ^ 31 <= w < 2 ^ 31 -> - 2 ^ 31 <= h < 2 ^ 31 ->
  exists (h' : Z) (ratio : float),
    Glut.resize_glut w h
    = [Glut.glMatrixMode Glut.GL_PROJECTION;
       Glut.glLoadIdentity;
       Glut.glViewport 0 0 w h';
       Glut.gluPerspective (float_to_double (Float.of_Z 45)) (float_to_double ratio)
                           (float_to_double (Float.lit 1 10))
                           (float_to_double (Float.of_Z 100));
       Glut.glMatrixMode Glut.GL_MODELVIEW]
    /\ h' <> 0 /\ (h <> 0 -> h' = h) /\ (h = 0 -> h' = 1)
    /\ Float.valid ratio = true /\ is_finite ratio = true
    /\ (- inject_Z (2 ^ 31) <= F2Q ratio)%Q /\ (F2Q ratio <= inject_Z (2 ^ 31))%Q
    /\ (0 < w -> 0 < h -> (1 # 2147483648 <= F2Q ratio)%Q)
    /\ (w = h' -> (F2Q ratio == 1)%Q)
    /\ (w = h -> h <> 0 -> (F2Q ratio == 1)%Q)
    /\ (w = 0 -> (F2Q ratio == 0)%Q).
Proof.
  intros Hw Hh. unfold Glut.resize_glut.
  set (h' := if h =? 0 then 1 else h).
  assert (H0 : h' <> 0) by (unfold h'; destruct (Z.eqb_spec h 0); lia).
  assert (H1 : h <> 0 -> h' = h) by (unfold h'; destruct (Z.eqb_spec h 0); lia).
  assert (H2 : h = 0 -> h' = 1) by (unfold h'; destruct (Z.eqb_spec h 0); lia).
  assert (Hh' : - 2 ^ 31 <= h' <= 2 ^ 31) by (unfold h'; destruct (Z.eqb_spec h 0); lia).
  destruct (aspect_spec w h') as (V & F & B1 & B2 & P & E); try lia.
  exists h', (Glut.aspect w h'). split; [reflexivity |].
  repeat split; try assumption.
  - intros Pw Ph. apply P; [lia |]. rewrite H1; lia.
  - intros Ew Hz. apply E. rewrite H1; assumption.
  - intros ->. apply aspect_zero; assumption.
Qed.

(** ** The keyboard *)

Section KeyboardFacts.
Context {G : Type} {gen : Generator G} {math : Math}.
Import Application Glut.

(** The switch of [keyboard_glut], key by key. *)
Lemma keyboard_glut_cases (key : ascii) (app : t G) :
  keyboard_glut key app =
  let s := state_ app in
  if Ascii.eqb key "027" then Exited 0
  else if Ascii.eqb key " " then Running (reset true app)
  else if Ascii.eqb key "w" then
    Running (with_position app
               (mk_point3 (Float.add (x (position s)) (sin (rotation_y s)))
                          (y (position s))
                          (Float.add (z (position s)) (cos (rotation_y s)))))
  else if Ascii.eqb key "s" then
    Running (with_position app
               (mk_point3 (Float.sub (x (position s)) (sin (rotation_y s)))
                          (y (position s))
                          (Float.sub (z (position s)) (cos (rotation_y s)))))
  else if Ascii.eqb key "a" then
    Running (with_rotation_y app
               (Float.add (rotation_y s)
                          (Float.div rotation_per_second (Float.of_Z 20))))
  else if Ascii.eqb key "d" then
    Running (with_rotation_y app
               (Float.sub (rotation_y s)
                          (Float.div rotation_per_second (Float.of_Z 20))))
  else Running app.
Proof. destruct key as [[] [] [] [] [] [] [] []]; reflexivity. Qed.

Lemma Running_inj (a b : t G) : Running a = Running b -> a = b.
Proof. now intros [= ->]. Qed.

(** X14.  A key never touches the simulation: whatever the key, the
    particles, the generator, the clock, time_delta and the number of
    particles to create are left as they are; the process exits, with
    status 0, on Escape and on no other key; and a key that is none of
    Escape, space, w, s, a, d changes nothing at all. *)
Theorem keyboard_glut_frame (key : ascii) (app : t G) :
  (forall status, keyboard_glut key app = Exited status
                  <-> key = "027"%char /\ status = 0)
  /\ (forall app', keyboard_glut key app = Running app' ->
        particles_ app' = particles_ app
        /\ generator_ app' = generator_ app
        /\ last_time_ app' = last_time_ app
        /\ distribution_position_ app' = distribution_position_ app
        /\ distribution_direction_ app' = distribution_direction_ app
        /\ time_delta (state_ app') = time_delta (state_ app)
        /\ particles_to_create (state_ app') = particles_to_create (state_ app))
  /\ (key <> "027"%char -> key <> " "%char -> key <> "w"%char -> key <> "s"%char ->
      key <> "a"%char -> key <> "d"%char -> keyboard_glut key app = Running app).
Proof.
  rewrite keyboard_glut_cases. cbv zeta.
  destruct (Ascii.eqb_spec key "027") as [-> | N1].
  { split; [| split].
    - intros status. split; [intros [= <-]; now split | intros [_ ->]; reflexivity].
    - intros app' H. discriminate H.
    - intros H. now elim H. }
  split; [intros status; split; [| now intros [? _]] |].
  { repeat match goal with |- context [if ?b then _ else _] => destruct b end;
      discriminate. }
  destruct (Ascii.eqb_spec key " ") as [-> | N2].
  { split; [| intros _ H; now elim H].
    intros app' <-%Running_inj. repeat split. }
  destruct (Ascii.eqb_spec key "w") as [-> | N3].
  { split; [| intros _ _ H; now elim H].
    intros app' <-%Running_inj. repeat split. }
  destruct (Ascii.eqb_spec key "s") as [-> | N4].
  { split; [| intros _ _ _ H; now elim H].
    intros app' <-%Running_inj. repeat split. }
  destruct (Ascii.eqb_spec key "a") as [-> | N5].
  { split; [| intros _ _ _ _ H; now elim H].
    intros app' <-%Running_inj. repeat split. }
  destruct (Ascii.eqb_spec key "d") as [-> | N6].
  { split; [| intros _ _ _ _ _ H; now elim H].
    intros app' <-%Running_inj. repeat split. }
  split; [| reflexivity].
  intros app' <-%Running_inj. repeat split.
Qed.

(** X15.  Turning: for a yaw that is a finite number, the key a never
    decreases it and the key d never increases it, and neither moves the
    viewer; the step is [rotation_per_second/20], 10541436 * 2^-27
    radians. *)
Theorem keyboard_glut_turn (app : t G) :
  Float.valid (rotation_y (state_ app)) = true ->
  is_finite (rotation_y (state_ app)) = true ->
  (F2Q (Float.div rotation_per_second (Float.of_Z 20)) == 10541436 # 134217728)%Q
  /\ (exists app', keyboard_glut "a" app = Running app'
        /\ Float.leb (rotation_y (state_ app)) (rotation_y (state_ app')) = true
        /\ position (state_ app') = position (state_ app))
  /\ (exists app', keyboard_glut "d" app = Running app'
        /\ Float.leb (rotation_y (state_ app')) (rotation_y (state_ app)) = true
        /\ position (state_ app') = position (state_ app)).
Proof.
  intros V F.
  assert (E : (F2Q (Float.div rotation_per_second (Float.of_Z 20))
               == 10541436 # 134217728)%Q) by reflexivity.
  set (step := Float.div rotation_per_second (Float.of_Z 20)) in *.
  assert (Vs : Float.valid step = true) by reflexivity.
  assert (Fs : is_finite step = true) by reflexivity.
  split; [exact E | split].
  - eexists. split; [reflexivity |]. split; [| reflexivity].
    cbn [with_rotation_y with_state state_ rotation_y]. fold step.
    apply (rounds_to_le _ _ float_prec _ _ _ _
             (float_self _ V F) (float_add _ step V F Vs Fs)).
    rewrite E. assert (0 <= 10541436 # 134217728)%Q by (apply Qle_bool_iff; reflexivity). lra.
  - eexists. split; [reflexivity |]. split; [| reflexivity].
    cbn [with_rotation_y with_state state_ rotation_y]. fold step.
    apply (rounds_to_le _ _ float_prec _ _ _ _
             (float_sub _ step V F Vs Fs) (float_self _ V F)).
    rewrite E. assert (0 <= 10541436 # 134217728)%Q by (apply Qle_bool_iff; reflexivity). lra.
Qed.
End KeyboardFacts.

(** ** Frames of the desktop build *)

(** The clock of [render_glut]: milliseconds to seconds. *)
Lemma glut_time (elapsed : Z) :
  0 <= elapsed < 2 ^ 31 ->
  let current_time := Glut.double_div (Double.of_Z elapsed) (Double.of_Z 1000) in
  Double.valid current_time = true /\ is_finite current_time = true
  /\ (0 <= F2Q current_time)%Q /\ (F2Q current_time <= inject_Z (2 ^ 31))%Q
  /\ (10000 <= elapsed -> (10 <= F2Q current_time)%Q).
Proof.
  intros He current_time.
  destruct (double_of_Z_exact elapsed) as (Ve & Fe & Ee); [lia |].
  assert (E1000 : (F2Q (Double.of_Z 1000) == 1000)%Q) by reflexivity.
  assert (NZ : ~ (F2Q (Double.of_Z 1000) == 0)%Q) by (rewrite E1000; discriminate).
  assert (H0 : (0 <= inject_Z elapsed)%Q)
    by (change 0%Q with (inject_Z 0); rewrite <- Zle_Qle; lia).
  assert (H1 : (inject_Z elapsed <= inject_Z (2 ^ 31))%Q) by (rewrite <- Zle_Qle; lia).
  assert (EQ : (F2Q (Double.of_Z elapsed) / F2Q (Double.of_Z 1000)
                == inject_Z elapsed * (1 # 1000))%Q).
  { rewrite Ee, E1000. reflexivity. }
  change (inject_Z (2 ^ 31)) with 2147483648%Q in *.
  assert (D0 : (F2Q (Double.of_Z 0) == 0)%Q) by reflexivity.
  assert (D31 : (F2Q (Double.of_Z (2 ^ 31)) == 2147483648)%Q) by reflexivity.
  destruct (div_between Double.prec Double.emax double_prec
              (Double.of_Z elapsed) (Double.of_Z 1000)
              (Double.of_Z 0) (Double.of_Z (2 ^ 31)) Fe eq_refl NZ)
    as (V & F & _ & _ & A & B); try reflexivity.
  - rewrite EQ, D0. lra.
  - rewrite EQ, D31. lra.
  - rewrite D0 in A. rewrite D31 in B.
    split; [exact V | split; [exact F | split; [exact A | split; [exact B |]]]].
    intros Hl.
    assert (D10 : (F2Q (Double.of_Z 10) == 10)%Q) by reflexivity.
    assert (H2 : (inject_Z 10000 <= inject_Z elapsed)%Q) by (rewrite <- Zle_Qle; lia).
    change (inject_Z 10000) with 10000%Q in H2.
    destruct (div_between Double.prec Double.emax double_prec
                (Double.of_Z elapsed) (Double.of_Z 1000)
                (Double.of_Z 10) (Double.of_Z (2 ^ 31)) Fe eq_refl NZ)
      as (_ & _ & _ & _ & A' & _); try reflexivity; try (rewrite EQ, ?D10, ?D31; lra).
    now rewrite D10 in A'.
Qed.

Section DesktopFacts.
Context {G : Type} {gen : Generator G} {math : Math}.
Import Application Glut.

(** What [update] leaves of [state_]. *)
Lemma update_state (app : t G) :
  state_ (update app)
  = mk_state (position (state_ app)) (rotation_y (state_ app))
             (time_delta (state_ app)) false (particles_to_create (state_ app)).
Proof.
  unfold update.
  set (app1 := if reset_scene (state_ app) then with_particles app [] else app).
  assert (H1 : state_ app1 = state_ app) by (subst app1; now destruct (reset_scene _)).
  destruct (spawn_fields (N.to_nat (particles_to_create (state_ app1))) app1)
    as (_ & _ & _ & H).
  cbn. now rewrite H, H1.
Qed.

(** The first tick, at a clock reading between 0 and 2^31 seconds. *)
Lemma first_tick (state0 : state_t) (generator0 : G) (current_time : double) :
  Double.valid current_time = true -> is_finite current_time = true ->
  (0 <= F2Q current_time)%Q -> (F2Q current_time <= inject_Z (2 ^ 31))%Q ->
  exists app0,
    update_time current_time (new state0 generator0) = Some app0
    /\ Float.valid (time_delta (state_ app0)) = true
    /\ is_finite (time_delta (state_ app0)) = true
    /\ (0 <= F2Q (time_delta (state_ app0)))%Q
    /\ (F2Q (time_delta (state_ app0)) <= inject_Z (2 ^ 31))%Q
    /\ ((10 <= F2Q current_time)%Q ->
        (10 <= F2Q (time_delta (state_ app0)))%Q
        /\ (4000 <= particles_to_create (state_ app0))%N).
Proof.
  intros V F H0 H1. change (inject_Z (2 ^ 31)) with 2147483648%Q in *.
  assert (D0 : (F2Q (Double.of_Z 0) == 0)%Q) by reflexivity.
  assert (D31 : (F2Q (Double.of_Z (2 ^ 31)) == 2147483648)%Q) by reflexivity.
  assert (F31 : (F2Q (Float.of_Z (2 ^ 31)) == 2147483648)%Q) by reflexivity.
  assert (FP : (F2Q (Float.of_Z (400 * 2 ^ 31)) == 858993459200)%Q) by reflexivity.
  destruct (double_between (Double.sub current_time (Double.of_Z 0))
              (Double.of_Z 0) (Double.of_Z (2 ^ 31)) _
              (double_sub current_time (Double.of_Z 0) V F eq_refl eq_refl))
    as (Vd & Fd & _ & _ & A & B); try reflexivity; try lra.
  set (d := Double.sub current_time (Double.of_Z 0)) in *.
  destruct (float_between (double_to_float d) (Float.of_Z 0) (Float.of_Z (2 ^ 31)) _
              (float_narrow d Fd))
    as (Vt & Ft & _ & _ & A' & B'); try reflexivity; try (rewrite ?F2Q_0; lra).
  set (dt := double_to_float d) in *. rewrite F2Q_0 in A'.
  destruct (float_between (Float.mul (size_t_to_float particles_per_second) dt)
              (Float.of_Z 0) (Float.of_Z (400 * 2 ^ 31)) _
              (float_mul (size_t_to_float particles_per_second) dt eq_refl eq_refl Vt Ft))
    as (Vp & Fp & _ & _ & A'' & B''); try reflexivity;
    try (rewrite F2Q_rate, ?F2Q_0, ?FP; lra).
  set (p := Float.mul (size_t_to_float particles_per_second) dt) in *.
  rewrite F2Q_0 in A''.
  assert (E : float_to_size_t p = Some (Z.to_N (Z.max 0 (Qfloor (F2Q p))))).
  { apply float_to_size_t_spec. split; [exact Fp | split; [lra | split]].
    - eapply Qle_lt_trans; [exact B'' |]. rewrite FP. reflexivity.
    - rewrite Z2N.id; lia. }
  unfold update_time. cbn [new last_time_]. fold d dt p. rewrite E.
  eexists. split; [reflexivity |]. cbn [state_ time_delta particles_to_create].
  split; [exact Vt | split; [exact Ft | split; [exact A' | split; [lra |]]]].
  intros H10.
  assert (D10 : (F2Q (Double.of_Z 10) == 10)%Q) by reflexivity.
  assert (E10 : (F2Q (Float.of_Z 10) == 10)%Q) by reflexivity.
  assert (E4000 : (F2Q (Float.of_Z 4000) == 4000)%Q) by reflexivity.
  destruct (double_between d (Double.of_Z 10) (Double.of_Z (2 ^ 31)) _
              (double_sub current_time (Double.of_Z 0) V F eq_refl eq_refl))
    as (_ & _ & _ & _ & A1 & _); try reflexivity; try lra.
  destruct (float_between dt (Float.of_Z 10) (Float.of_Z (2 ^ 31)) _ (float_narrow d Fd))
    as (_ & _ & _ & _ & A2 & _); try reflexivity; try lra.
  destruct (float_between p (Float.of_Z 4000) (Float.of_Z (400 * 2 ^ 31)) _
              (float_mul (size_t_to_float particles_per_second) dt eq_refl eq_refl Vt Ft))
    as (_ & _ & _ & _ & A3 & _); try reflexivity;
    try (rewrite F2Q_rate, ?E4000, ?FP; lra).
  split; [lra |].
  assert (4000 <= Qfloor (F2Q p)).
  { rewrite <- (Qfloor_Z 4000). apply Qfloor_resp_le.
    change (inject_Z 4000) with 4000%Q. lra. }
  lia.
Qed.

(** X16.  The first frame of the desktop build is always defined: for
    every clock reading of [glutGet], 0 <= ms < 2^31, [render_glut] on a
    new application runs [update_time] within the range of its cast, with
    a time_delta that is a finite number and not negative, and leaves a
    pool whose particles all have a life above 0 and at most 10; and
    without an instance it does nothing. *)
Theorem render_glut_first_frame (state0 : state_t) (generator0 : G) (elapsed : Z) :
  0 <= elapsed < 2 ^ 31 ->
  render_glut elapsed (None : option (t G)) = Some None
  /\ exists app',
       render_glut elapsed (Some (new state0 generator0)) = Some (Some app')
       /\ is_finite (time_delta (state_ app')) = true
       /\ (0 <= F2Q (time_delta (state_ app')))%Q
       /\ last_time_ app' = double_div (Double.of_Z elapsed) (Double.of_Z 1000)
       /\ reset_scene (state_ app') = false
       /\ forallb life_ok (particles_ app') = true.
Proof.
  intros He. split; [reflexivity |].
  destruct (glut_time elapsed He) as (V & F & H0 & H1 & _).
  destruct (first_tick state0 generator0 _ V F H0 H1) as (app0 & E & Vt & Ft & T0 & _).
  exists (update app0). unfold render_glut, frame. rewrite E. cbn [option_map].
  destruct (update_fields app0) as (L & _ & _ & D & _).
  destruct (update_time_inv _ _ _ E) as (_ & _ & L0 & P0 & _).
  split; [reflexivity |]. rewrite D, L, L0, update_state. cbn [reset_scene].
  repeat split; try assumption.
  apply update_life_ok; try assumption. now rewrite P0.
Qed.

(** X17.  A late start: when the first clock reading of [glutGet] is 10
    seconds or more, the first frame has a time_delta of at least 10,
    is to create 4000 particles or more, and leaves the pool empty:
    every particle it creates is removed in the same [update]. *)
Theorem render_glut_late_start (state0 : state_t) (generator0 : G) (elapsed : Z) :
  10000 <= elapsed < 2 ^ 31 ->
  exists app',
    render_glut elapsed (Some (new state0 generator0)) = Some (Some app')
    /\ (10 <= F2Q (time_delta (state_ app')))%Q
    /\ (4000 <= particles_to_create (state_ app'))%N
    /\ particles_ app' = [].
Proof.
  intros He.
  destruct (glut_time elapsed) as (V & F & H0 & H1 & H10); [lia |].
  destruct (first_tick state0 generator0 _ V F H0 H1)
    as (app0 & E & Vt & Ft & _ & _ & L); [].
  destruct (L (H10 ltac:(lia))) as [L1 L2].
  exists (update app0). unfold render_glut, frame. rewrite E. cbn [option_map].
  destruct (update_fields app0) as (_ & _ & _ & D & C).
  destruct (update_time_inv _ _ _ E) as (_ & _ & _ & P0 & _).
  split; [reflexivity |]. rewrite D, C.
  split; [exact L1 | split; [exact L2 |]].
  apply long_frame_empty; try assumption. now rewrite P0.
Qed.

(** X18.  Space, then a frame: after the key space, the next
    [render_glut] leaves the viewer at the default position with a yaw
    of 0 and the reset flag down, and a pool that holds nothing but
    particles created in that frame, each with the life 10 - time_delta
    of one update. *)
Theorem space_then_frame (app app' : t G) (elapsed : Z) :
  render_glut elapsed (Some (reset true app)) = Some (Some app') ->
  keyboard_glut " " app = Running (reset true app)
  /\ position (state_ app') = default_position
  /\ rotation_y (state_ app') = Float.of_Z 0
  /\ reset_scene (state_ app') = false
  /\ (length (particles_ app') <= N.to_nat (particles_to_create (state_ app')))%nat
  /\ Forall (fun p => Particle.life p
                      = Float.sub Particle.default_life (time_delta (state_ app')))
            (particles_ app').
Proof.
  intros H. split; [reflexivity |].
  unfold render_glut, frame in H.
  destruct (update_time _ (reset true app)) as [app0 |] eqn:E; [| discriminate].
  cbn [option_map] in H. injection H as <-.
  assert (S0 : position (state_ app0) = default_position
               /\ rotation_y (state_ app0) = Float.of_Z 0
               /\ reset_scene (state_ app0) = true).
  { unfold update_time in E.
    destruct (float_to_size_t _) as [n |]; [| discriminate].
    injection E as <-. repeat split. }
  destruct S0 as (S1 & S2 & S3).
  rewrite update_state. cbn [position rotation_y reset_scene particles_to_create time_delta].
  split; [exact S1 | split; [exact S2 | split; [reflexivity |]]].
  destruct (update_pool app0) as (created & -> & Hl & Hc).
  rewrite S3. cbn [List.app]. unfold advance. split.
  - etransitivity; [apply filter_length_le |]. rewrite length_map. lia.
  - apply Forall_forall. intros p [Hin _]%filter_In.
    apply in_map_iff in Hin as (q & <- & Hq).
    rewrite Forall_forall in Hc. cbn [Particle.update Particle.life].
    now rewrite (Hc q Hq).
Qed.

End DesktopFacts.

(** ** The instances of the CAVE build *)

Section CaveFacts.
Context {G : Type} {gen : Generator G} {B : Type} {btn : Button B} {math : Math}.
Import Application Cave.

Lemma spawn_replica (n : nat) (a b : Application.t G) :
  replica a b -> state_ a = state_ b ->
  replica (spawn n a) (spawn n b) /\ state_ (spawn n a) = state_ (spawn n b).
Proof.
  revert a b. induction n as [| n IH]; intros a b R S; cbn [spawn]; [now split |].
  destruct R as (R1 & R2 & R3 & R4). rewrite R1, R2, R4.
  destruct (create_particle _ _ _) as [p g'].
  apply IH; [| exact S].
  repeat split; cbn; congruence.
Qed.

(** [update] does the same to two instances that simulate the same scene
    in the same state: it does not look at the clock. *)
Lemma update_replica (a b : Application.t G) :
  replica a b -> state_ a = state_ b ->
  replica (update a) (update b) /\ state_ (update a) = state_ (update b).
Proof.
  intros R S. unfold update. rewrite <- S.
  set (a1 := if reset_scene (state_ a) then with_particles a [] else a).
  set (b1 := if reset_scene (state_ a) then with_particles b [] else b).
  assert (R1 : replica a1 b1 /\ state_ a1 = state_ b1).
  { subst a1 b1. destruct R as (R1 & R2 & R3 & R4).
    destruct (reset_scene (state_ a)); repeat split; cbn; congruence. }
  destruct R1 as [R1 S1]. rewrite <- S1.
  destruct (spawn_replica (N.to_nat (particles_to_create (state_ a1))) a1 b1 R1 S1)
    as [(Q1 & Q2 & Q3 & Q4) Q5].
  repeat split; cbn; congruence.
Qed.

(** What a tick leaves of the scene. *)
Lemma update_time_replica (current_time : double) (app app' : Application.t G) :
  update_time current_time app = Some app' -> replica app' app.
Proof.
  unfold update_time. destruct (float_to_size_t _); [| discriminate].
  intros [= <-]. repeat split.
Qed.

Lemma reset_replica (value : bool) (app : Application.t G) : replica (reset value app) app.
Proof. destruct value; repeat split. Qed.

Lemma with_state_replica (a b : Application.t G) (s : state_t) :
  replica a b ->
  replica (with_state a s) (with_state b s)
  /\ state_ (with_state a s) = state_ (with_state b s).
Proof. intros (R1 & R2 & R3 & R4). repeat split; assumption. Qed.

Lemma replica_trans (a b c : Application.t G) : replica a b -> replica b c -> replica a c.
Proof.
  intros (A1 & A2 & A3 & A4) (B1 & B2 & B3 & B4). repeat split; congruence.
Qed.

Lemma published_inj (a b : t G B) (u v : option state_t) :
  Some (a, u) = Some (b, v) -> a = b /\ u = v.
Proof. intros [= -> ->]. now split. Qed.

(** X19.  The instances of a CAVE stay replicas: when the master instance
    and another instance simulate the same scene (the same particles,
    generator and distributions) and the other one reads the state that
    the master has written to the channel, then after [update_cave] they
    simulate the same scene again, in the same state; the other instance
    uses neither its clock nor its controller, and writes nothing. *)
Theorem update_cave_replicates (lib_m lib_f : cavelib) (master follower master' follower' : t G B)
        (published : state_t) (written : option state_t) :
  CAVEMasterDisplay lib_m = true -> CAVEDistribMaster lib_m = true ->
  CAVEMasterDisplay lib_f = true -> CAVEDistribMaster lib_f = false ->
  replica (application master) (application follower) ->
  update_cave lib_m master = Some (master', Some published) ->
  CAVEDistribRead lib_f = published ->
  update_cave lib_f follower = Some (follower', written) ->
  replica (application master') (application follower')
  /\ state_ (application master') = state_ (application follower')
  /\ written = None
  /\ buttons_ follower' = buttons_ follower.
Proof.
  intros M1 M2 F1 F2 R Hm Hr Hf.
  unfold update_cave in Hm, Hf. rewrite M1, M2 in Hm. rewrite F1, F2, Hr in Hf.
  apply published_inj in Hf as [<- <-].
  destruct (update_buttons _ 0 (buttons_ master)) as [| b0 bs]; [discriminate |].
  destruct (update_time _ _) as [app2 |] eqn:E; [| discriminate].
  cbv zeta in Hm.
  match type of Hm with
  | Some (mk (update (with_state _ ?s)) _, _) = _ => set (s' := s) in Hm
  end.
  apply published_inj in Hm as [<- Hp]. injection Hp as <-.
  cbn [application buttons_].
  pose proof (replica_trans _ _ _ (update_time_replica _ _ _ E)
                (replica_trans _ _ _ (reset_replica _ _) R)) as R2.
  destruct (with_state_replica _ _ s' R2) as [W1 W2].
  destruct (update_replica _ _ W1 W2) as [U1 U2].
  split; [exact U1 | split; [exact U2 | split; reflexivity]].
Qed.

(** X20.  A joystick at rest moves nothing: on the master instance, when
    neither axis is beyond 0.1 in magnitude, [update_cave] leaves the
    viewer where [reset] has put it (at the default position with a yaw
    of 0 when the first button was pressed, where it was otherwise),
    and that is the state it writes to the channel; with no button at
    all the call is undefined. *)
Theorem update_cave_at_rest (lib : cavelib) (c : t G B) :
  CAVEMasterDisplay lib = true -> CAVEDistribMaster lib = true ->
  Float.ltb (Float.lit 1 10) (SFabs (valuator lib 0)) = false ->
  Float.ltb (Float.lit 1 10) (SFabs (valuator lib 1)) = false ->
  (buttons_ c = [] -> update_cave lib c = None)
  /\ forall b rest c' written,
       buttons_ c = b :: rest ->
       update_cave lib c = Some (c', written) ->
       let pressed := was_pressed (button_update (button lib 0) b) in
       position (state_ (application c'))
       = (if pressed then default_position else position (state_ (application c)))
       /\ rotation_y (state_ (application c'))
          = (if pressed then Float.of_Z 0 else rotation_y (state_ (application c)))
       /\ reset_scene (state_ (application c')) = false
       /\ exists s, written = Some s
                    /\ position s = position (state_ (application c'))
                    /\ rotation_y s = rotation_y (state_ (application c'))
                    /\ reset_scene s = pressed.
Proof.
  intros M1 M2 Jx Jy. unfold update_cave. rewrite M1, M2, Jx, Jy. split.
  - intros ->. reflexivity.
  - intros b rest c' written -> H. cbn [update_buttons] in H.
    set (pressed := was_pressed (button_update (button lib 0) b)) in *.
    destruct (update_time _ _) as [app2 |] eqn:E; [| discriminate].
    injection H as <- <-. cbn [application]. cbv zeta.
    rewrite update_state. cbn [position rotation_y reset_scene with_state state_].
    assert (S2 : position (state_ app2)
                 = (if pressed then default_position else position (state_ (application c)))
                 /\ rotation_y (state_ app2)
                    = (if pressed then Float.of_Z 0 else rotation_y (state_ (application c)))
                 /\ reset_scene (state_ app2) = pressed).
    { unfold update_time in E. destruct (float_to_size_t _); [| discriminate].
      injection E as <-. destruct pressed; repeat split. }
    destruct S2 as (P & R & F).
    split; [exact P | split; [exact R | split; [reflexivity |]]].
    eexists. split; [reflexivity |]. cbn [position rotation_y reset_scene].
    split; [reflexivity | split; [reflexivity | exact F]].
Qed.

End CaveFacts.

(** ** Examples *)

(** Ticks at 0.1 s and at 0.2 s from a new application: 40 particles,
    then 80. *)
Lemma update_time_monotone_witness :
  exists app1 app2,
    Application.update_time (Double.lit 1 10) fresh_app = Some app1
    /\ Application.update_time (Double.lit 2 10) fresh_app = Some app2
    /\ Application.particles_to_create (Application.state_ app1) = 40%N
    /\ Application.particles_to_create (Application.state_ app2) = 80%N
    /\ (Application.particles_to_create (Application.state_ app1)
        <= Application.particles_to_create (Application.state_ app2))%N.
Proof.
  eexists. eexists. split; [vm_compute; reflexivity |].
  split; [vm_compute; reflexivity |].
  split; [reflexivity | split; [reflexivity |]].
  eapply (update_time_monotone (Double.lit 1 10) (Double.lit 2 10) fresh_app);
    reflexivity.
Defined.

(** A second tick at 1.5 s: time_delta 0, nothing to create. *)
Lemma update_time_repeated_witness :
  exists app1 app2,
    Application.update_time (Double.lit 3 2) fresh_app = Some app1
    /\ Application.update_time (Double.lit 3 2) app1 = Some app2
    /\ Application.time_delta (Application.state_ app2) = S754_zero false
    /\ Application.particles_to_create (Application.state_ app2) = 0%N.
Proof.
  eexists.
  destruct (update_time_repeated (Double.lit 3 2) fresh_app _ eq_refl)
    as (app2 & H & _ & Hn & _).
  exists app2. split; [reflexivity | split; [exact H | split; [| exact Hn]]].
  vm_compute in H. injection H as <-. reflexivity.
Defined.

(** A tick of 0.1 s: the exact product 400 * 0.1f is a little above 40,
    and 40 particles are created. *)
Lemma update_time_count_bounds_witness :
  exists app',
    Application.update_time (Double.lit 1 10) fresh_app = Some app'
    /\ Qfloor (400 * F2Q (Application.time_delta (Application.state_ app'))) = 40
    /\ Qceiling (400 * F2Q (Application.time_delta (Application.state_ app'))) = 41
    /\ 40 <= Z.of_N (Application.particles_to_create (Application.state_ app')) <= 41.
Proof.
  eexists. split; [vm_compute; reflexivity |].
  split; [reflexivity | split; [reflexivity |]].
  refine (update_time_count_bounds (Double.lit 1 10) fresh_app _ eq_refl _ _).
  - vm_compute. discriminate.
  - vm_compute. discriminate.
Defined.

(** A particle with 5 seconds to live does not outlive an update by 6
    seconds. *)
Lemma Particle_update_expires_witness :
  Float.leb
    (Particle.life (Particle.update (Float.of_Z 6)
                                    (Particle.mk (Float.of_Z 5) origin origin)))
    (Float.of_Z 0) = true.
Proof.
  apply (Particle_update_expires (Float.of_Z 6) (Particle.mk (Float.of_Z 5) origin origin));
    try reflexivity.
  vm_compute. discriminate.
Defined.

(** One second of flight of a particle that falls at 3 units per second
    and drifts at 0.5: it drifts at 0.4 and falls at 3.4. *)
Lemma Particle_update_slows_witness :
  (0 <= F2Q (x (Particle.direction (Particle.update (Float.of_Z 1) falling_particle))))%Q
  /\ (F2Q (x (Particle.direction (Particle.update (Float.of_Z 1) falling_particle)))
      <= 1 # 2)%Q
  /\ Float.leb (y (Particle.direction (Particle.update (Float.of_Z 1) falling_particle)))
               (Float.of_Z 0) = true.
Proof.
  destruct (Particle_update_slows (Float.of_Z 1) falling_particle)
    as (_ & _ & H1 & _ & _ & _ & _ & H2); try reflexivity.
  split; [| split].
  - apply H1. vm_compute. discriminate.
  - apply H1. vm_compute. discriminate.
  - apply H2. vm_compute. discriminate.
Defined.

(** The same second: the particle has moved right and down. *)
Lemma Particle_update_moves_witness :
  Float.leb (x (Particle.position falling_particle))
            (x (Particle.position (Particle.update (Float.of_Z 1) falling_particle)))
  = true
  /\ Float.leb (y (Particle.position (Particle.update (Float.of_Z 1) falling_particle)))
               (y (Particle.position falling_particle))
     = true.
Proof.
  destruct (Particle_update_moves (Float.of_Z 1) falling_particle)
    as (H1 & _ & _ & H2 & _); try reflexivity.
  split.
  - apply H1. vm_compute. discriminate.
  - apply H2. vm_compute. discriminate.
Defined.

(** A frame of 12 seconds: the live particle and the two new ones are
    all gone. *)
Lemma update_long_frame_witness :
  Application.particles_ (Application.update long_frame) = [].
Proof.
  apply (update_long_frame long_frame); try reflexivity.
  vm_compute. discriminate.
Defined.

(** Three frames, at 10 ms, 20 ms and 120 ms. *)
Lemma frames_life_ok_witness :
  exists app',
    frames [Double.lit 1 100; Double.lit 2 100; Double.lit 12 100] fresh_app = Some app'
    /\ forallb life_ok (Application.particles_ app') = true.
Proof.
  eexists. split; [vm_compute; reflexivity |].
  eapply (frames_life_ok [Double.lit 1 100; Double.lit 2 100; Double.lit 12 100] fresh_app);
    [reflexivity | reflexivity | reflexivity | vm_compute; reflexivity].
Defined.

(** From a yaw of 0: a turns to the left, d to the right. *)
Lemma keyboard_glut_turn_witness :
  exists app1 app2,
    Glut.keyboard_glut (math := level_math) "a" reset_app = Glut.Running app1
    /\ Glut.keyboard_glut (math := level_math) "d" reset_app = Glut.Running app2
    /\ Float.leb (Application.rotation_y (Application.state_ reset_app))
                 (Application.rotation_y (Application.state_ app1)) = true
    /\ Float.leb (Application.rotation_y (Application.state_ app2))
                 (Application.rotation_y (Application.state_ reset_app)) = true.
Proof.
  destruct (keyboard_glut_turn (math := level_math) reset_app eq_refl eq_refl)
    as (_ & (app1 & H1 & L1 & _) & (app2 & H2 & L2 & _)).
  exists app1, app2. now repeat split.
Defined.

(** The window of [run]: 800 by 600, a ratio of 4/3. *)
Lemma resize_glut_ratio_witness :
  exists ratio : float,
    In (Glut.gluPerspective (float_to_double (Float.of_Z 45)) (float_to_double ratio)
                            (float_to_double (Float.lit 1 10))
                            (float_to_double (Float.of_Z 100)))
       (Glut.resize_glut 800 600)
    /\ is_finite ratio = true /\ (1 # 2147483648 <= F2Q ratio)%Q.
Proof.
  destruct (resize_glut_ratio 800 600) as (h' & ratio & E & _ & _ & _ & _ & F & _ & _ & P & _ & _ & _);
    try (split; [discriminate | reflexivity]).
  exists ratio. split; [| split; [exact F | apply P; reflexivity]].
  rewrite E. right. right. right. left. reflexivity.
Defined.

(** A vertical draw of 0.5: the new particle rises at 3, with a colour
    factor of 2.5, and is hot. *)
Lemma create_particle_hot_witness :
  Particle.get_color
    (fst (Application.create_particle (mk_uniform (Float.of_Z 0) (Float.of_Z 1))
                                      (mk_uniform (Float.of_Z (-1)) (Float.of_Z 1))
                                      six_draws))
  = Particle.hot.
Proof.
  apply (create_particle_hot (mk_uniform (Float.of_Z 0) (Float.of_Z 1))
                             (mk_uniform (Float.of_Z (-1)) (Float.of_Z 1)) six_draws).
  reflexivity.
Defined.

(** A first frame 16 ms after the start. *)
Lemma render_glut_first_frame_witness :
  exists app',
    Glut.render_glut 16 (Some fresh_app) = Some (Some app')
    /\ forallb life_ok (Application.particles_ app') = true.
Proof.
  destruct (render_glut_first_frame blank_state ([] : replay) 16)
    as (_ & app' & H & _ & _ & _ & _ & L); [split; [discriminate | reflexivity] |].
  exists app'. split; [exact H | exact L].
Defined.

(** Space over the two particles of the scenario, then a frame at
    100 ms: the viewer is back, the pool holds new particles only. *)
Lemma space_then_frame_witness :
  exists app',
    Glut.render_glut 100 (Some (Application.reset true two_particles)) = Some (Some app')
    /\ Application.position (Application.state_ app') = Application.default_position
    /\ Application.reset_scene (Application.state_ app') = false.
Proof.
  eexists. split; [vm_compute; reflexivity |].
  destruct (space_then_frame (math := level_math) two_particles _ 100 eq_refl)
    as (_ & H1 & _ & H2 & _).
  split; [exact H1 | exact H2].
Defined.

(** A frame of 1 ms creates nothing. *)
Lemma frame_fast_witness :
  exists app',
    Application.frame (Double.lit 1 1000) fresh_app = Some app'
    /\ Application.particles_to_create (Application.state_ app') = 0%N
    /\ Application.particles_ app' = [].
Proof.
  eexists. split; [vm_compute; reflexivity |].
  destruct (frame_fast (Double.lit 1 1000) fresh_app _ eq_refl) as (H1 & _ & H2).
  - vm_compute. discriminate.
  - split; [exact H1 | apply H2; reflexivity].
Defined.

(** A first frame 12 s after the start: 4800 particles to create, none
    left. *)
Lemma render_glut_late_start_witness :
  exists app',
    Glut.render_glut 12000 (Some fresh_app) = Some (Some app')
    /\ (4000 <= Application.particles_to_create (Application.state_ app'))%N
    /\ Application.particles_ app' = [].
Proof.
  destruct (render_glut_late_start blank_state ([] : replay) 12000)
    as (app' & H & _ & C & P); [split; [discriminate | reflexivity] |].
  exists app'. split; [exact H | split; [exact C | exact P]].
Defined.

(** The master simulates the two particles of the scenario for 0.1 s and
    creates 40 more; an instance that reads its state holds the same pool. *)
Lemma update_cave_replicates_witness :
  exists master' published follower',
    Cave.update_cave (btn := held_button) (math := level_math) master_cave
                     (Cave.mk two_particles [false])
    = Some (master', Some published)
    /\ Cave.update_cave (btn := held_button) (math := level_math)
                        (follower_cave published) (Cave.mk two_particles [])
       = Some (follower', None)
    /\ Application.particles_ (Cave.application master')
       = Application.particles_ (Cave.application follower')
    /\ length (Application.particles_ (Cave.application follower')) = 42%nat.
Proof.
  eexists. eexists. eexists.
  split; [vm_compute; reflexivity |].
  split; [vm_compute; reflexivity |].
  split; [| reflexivity].
  eapply (update_cave_replicates (btn := held_button) (math := level_math)
            master_cave (follower_cave _)
            (Cave.mk two_particles [false]) (Cave.mk two_particles []));
    try reflexivity.
  repeat split.
Defined.

(** The same call of the master: the viewer stays at the origin. *)
Lemma update_cave_at_rest_witness :
  exists c' s,
    Cave.update_cave (btn := held_button) (math := level_math) master_cave
                     (Cave.mk two_particles [false])
    = Some (c', Some s)
    /\ Application.position (Application.state_ (Cave.application c')) = origin
    /\ Application.position s = origin.
Proof.
  assert (E : exists c' s,
             Cave.update_cave (btn := held_button) (math := level_math) master_cave
                              (Cave.mk two_particles [false])
             = Some (c', Some s))
    by (eexists; eexists; vm_compute; reflexivity).
  destruct E as (c' & s & E). exists c', s. split; [exact E |].
  destruct (update_cave_at_rest (btn := held_button) (math := level_math) master_cave
              (Cave.mk two_particles [false]) eq_refl eq_refl eq_refl eq_refl)
    as [_ H].
  destruct (H false [] c' (Some s) eq_refl E) as (P & _ & _ & s' & [= <-] & Q & _).
  split; [exact P | now rewrite Q].
Defined.
